(** * absfuyu.dxt: list and dict extensions

    A shallow embedding of [ListExt] (src/absfuyu/dxt/listext.py) and
    [DictExt] (src/absfuyu/dxt/dictext.py), with the properties of their
    sorting, counting, flattening, grouping, slicing and aggregation
    methods.

    Python values are modelled by [Py.pyval] (None, int, str, list, tuple;
    floating-point numbers are left out), raised exceptions by the error
    monad [Py.result], a list object that a method mutates by a heap of
    such objects. The built-ins that the methods call ([sorted], [max],
    [min], [set], [Counter], [range], slices, [str], [repr]) are modelled
    in [Py] after CPython 3. *)

From Stdlib Require Import ZArith List String Ascii Bool Lia.
From stdpp Require Import gmap strings list sorting pretty.
From Equations Require Import Equations.
From Equations.Prop Require Import Logic.

Local Open Scope string_scope.
Local Open Scope list_scope.
Local Open Scope Z_scope.

(** ** The fragment of Python the two classes rely on *)
Module Py.

(** Exceptions, by kind; [ValueError] carries its message. *)
Inductive exn : Type :=
| TypeError
| ValueError (msg : string)
| ZeroDivisionError.

Inductive result (A : Type) : Type :=
| Ok (a : A)
| Raise (e : exn).
Arguments Ok {A} a.
Arguments Raise {A} e.

Definition bind {A B} (m : result A) (k : A → result B) : result B :=
  match m with
  | Ok a => k a
  | Raise e => Raise e
  end.

Notation "'let*' x ':=' m 'in' k" := (bind m (fun x => k))
  (at level 10, x pattern, m at level 100, k at level 200).

(** [try: body except TypeError: handler] *)
Definition except_TypeError {A} (body : result A) (handler : result A) : result A :=
  match body with
  | Raise TypeError => handler
  | r => r
  end.

Fixpoint mapM {A B} (f : A → result B) (l : list A) : result (list B) :=
  match l with
  | [] => Ok []
  | x :: l' => let* y := f x in let* ys := mapM f l' in Ok (y :: ys)
  end.

(** Values: [None], integers, strings, lists and tuples. Floats and
    booleans are not among them, so a statement over [pyval] speaks of
    values of exactly these five types; in particular two values of
    different types never compare here, while Python compares an [int] with
    a [float]. *)
#[local] Unset Elimination Schemes.
Inductive pyval : Type :=
| PNone
| PInt (z : Z)
| PStr (s : string)
| PList (items : list pyval)
| PTuple (items : list pyval).
#[local] Set Elimination Schemes.

Inductive pytype : Type := TNoneType | TInt | TStr | TList | TTuple.

(** [type(x)] *)
Definition type_of (x : pyval) : pytype :=
  match x with
  | PNone => TNoneType
  | PInt _ => TInt
  | PStr _ => TStr
  | PList _ => TList
  | PTuple _ => TTuple
  end.

(** [x == y]: structural on these types. *)
Fixpoint py_eqb (x y : pyval) : bool :=
  let fix eqs (xs ys : list pyval) : bool :=
    match xs, ys with
    | [], [] => true
    | a :: xs', b :: ys' => py_eqb a b && eqs xs' ys'
    | _, _ => false
    end in
  match x, y with
  | PNone, PNone => true
  | PInt a, PInt b => Z.eqb a b
  | PStr a, PStr b => String.eqb a b
  | PList a, PList b => eqs a b
  | PTuple a, PTuple b => eqs a b
  | _, _ => false
  end.

(** [isinstance(x, str)] and [isinstance(x, Iterable)] *)
Definition is_str (x : pyval) : bool :=
  match x with PStr _ => true | _ => false end.

Definition is_iterable (x : pyval) : bool :=
  match x with PStr _ | PList _ | PTuple _ => true | _ => false end.

(** [x < y]; sequences compare at their first differing position. *)
Fixpoint py_lt (x y : pyval) : result bool :=
  let fix lts (xs ys : list pyval) : result bool :=
    match xs, ys with
    | [], [] => Ok false
    | [], _ :: _ => Ok true
    | _ :: _, [] => Ok false
    | a :: xs', b :: ys' => if py_eqb a b then lts xs' ys' else py_lt a b
    end in
  match x, y with
  | PInt a, PInt b => Ok (Z.ltb a b)
  | PStr a, PStr b => Ok (String.ltb a b)
  | PList a, PList b => lts a b
  | PTuple a, PTuple b => lts a b
  | _, _ => Raise TypeError
  end.

(** [x > y] is [y < x] on these types. *)
Definition py_gt (x y : pyval) : result bool := py_lt y x.

(** Slice bounds: a negative index counts from the end, and both ends are
    clamped into [0, n]. *)
Definition slice_index (n i : Z) : Z :=
  if i <? 0 then Z.max (i + n) 0 else Z.min i n.

(** [l[lo:hi]] *)
Definition slice {A} (l : list A) (lo hi : Z) : list A :=
  let n := Z.of_nat (length l) in
  let lo' := slice_index n lo in
  let hi' := slice_index n hi in
  take (Z.to_nat (hi' - lo')) (drop (Z.to_nat lo') l).

(** [s[:hi]] on a string *)
Definition str_prefix (s : string) (hi : Z) : string :=
  let n := Z.of_nat (String.length s) in
  String.substring 0 (Z.to_nat (slice_index n hi)) s.

(** [s.ljust(width, " ")] *)
Definition ljust (s : string) (width : Z) : string :=
  let n := Z.of_nat (String.length s) in
  if width <=? n then s
  else s +:+ string_of_list_ascii (repeat " "%char (Z.to_nat (width - n))).

(** [s.rjust(width, " ")] *)
Definition rjust (s : string) (width : Z) : string :=
  let n := Z.of_nat (String.length s) in
  if width <=? n then s
  else string_of_list_ascii (repeat " "%char (Z.to_nat (width - n))) +:+ s.

(** [sep.join(parts)] *)
Fixpoint join (sep : string) (parts : list string) : string :=
  match parts with
  | [] => ""
  | [p] => p
  | p :: ps => p +:+ sep +:+ join sep ps
  end.

(** [repr(s)] for a string of characters below 256. *)
Definition hex_digit (n : N) : ascii :=
  match n with
  | 0 => "0" | 1 => "1" | 2 => "2" | 3 => "3" | 4 => "4" | 5 => "5"
  | 6 => "6" | 7 => "7" | 8 => "8" | 9 => "9" | 10 => "a" | 11 => "b"
  | 12 => "c" | 13 => "d" | 14 => "e" | _ => "f"
  end%N%char.

Definition printable (c : N) : bool :=
  ((32 <=? c) && (c <? 127) || (161 <=? c) && negb (c =? 173))%N.

Definition repr_char (quote : ascii) (c : ascii) : string :=
  let n := N_of_ascii c in
  if Ascii.eqb c quote || Ascii.eqb c "\"%char then String "\"%char (String c "")
  else if (n =? 9)%N then "\t"
  else if (n =? 10)%N then "\n"
  else if (n =? 13)%N then "\r"
  else if printable n then String c ""
  else String "\"%char (String "x"%char
         (String (hex_digit (n / 16)) (String (hex_digit (n mod 16)) ""))).

Fixpoint has_char (c : ascii) (s : string) : bool :=
  match s with
  | EmptyString => false
  | String d s' => Ascii.eqb c d || has_char c s'
  end.

Definition dquote : ascii := ascii_of_N 34.

Definition repr_str (s : string) : string :=
  let quote : ascii :=
    if has_char "'"%char s && negb (has_char dquote s)
    then dquote else "'"%char in
  String quote
    (fold_right (fun c acc => repr_char quote c +:+ acc) (String quote "")
       (list_ascii_of_string s)).

(** [repr(x)] and [str(x)] *)
Fixpoint py_repr (x : pyval) : string :=
  match x with
  | PNone => "None"
  | PInt z => pretty z
  | PStr s => repr_str s
  | PList l => "[" +:+ join ", " (map py_repr l) +:+ "]"
  | PTuple [a] => "(" +:+ py_repr a +:+ ",)"
  | PTuple l => "(" +:+ join ", " (map py_repr l) +:+ ")"
  end.

Definition py_str (x : pyval) : string :=
  match x with
  | PStr s => s
  | _ => py_repr x
  end.

(** Lists are unhashable; a tuple is hashable when its items are. *)
Fixpoint hashable (x : pyval) : bool :=
  match x with
  | PList _ => false
  | PTuple l => forallb hashable l
  | _ => true
  end.

(** [sorted] is a stable sort, and the result of a stable sort does not
    depend on the algorithm: insertion stands for it. [ltb y x] is the test
    [y < x] that decides whether [x] moves past [y]. *)
Section Sorted.
Context {A : Type} (ltb : A → A → bool).

Fixpoint insert_sorted (x : A) (l : list A) : list A :=
  match l with
  | [] => [x]
  | y :: l' => if ltb y x then y :: insert_sorted x l' else x :: y :: l'
  end.

Fixpoint sorted_asc (l : list A) : list A :=
  match l with
  | [] => []
  | x :: l' => insert_sorted x (sorted_asc l')
  end.

(** [sorted(l, reverse=reverse)]: a reversed sort keeps equal keys in
    their original order. *)
Definition sorted (reverse : bool) (l : list A) : list A :=
  if reverse then rev (sorted_asc (rev l)) else sorted_asc l.
End Sorted.

(** [range(start, stop, step)]; an empty list stands for the rejected
    [step = 0]. *)
Definition range (start stop step : Z) : list Z :=
  let count :=
    if 0 <? step then (stop - start + step - 1) / step
    else if step <? 0 then (start - stop - step - 1) / (- step)
    else 0 in
  map (λ i, start + Z.of_nat i * step) (seq 0 (Z.to_nat count)).

(** [max(l)] keeps the first of the largest items, [min(l)] the first of the
    smallest; both compare each further item with the current best. *)
Definition extremum (better : pyval → pyval → result bool) (name : string)
    (l : list pyval) : result pyval :=
  match l with
  | [] => Raise (ValueError (name +:+ "() arg is an empty sequence"))
  | x :: l' =>
      fold_left (λ acc item,
        let* best := acc in
        let* c := better item best in
        Ok (if c then item else best)) l' (Ok x)
  end.

Definition py_max : list pyval → result pyval := extremum py_gt "max".
Definition py_min : list pyval → result pyval := extremum py_lt "min".

(** The same on integers, where no comparison fails. *)
Definition max_int (l : list Z) : result Z :=
  match l with
  | [] => Raise (ValueError "max() arg is an empty sequence")
  | x :: l' => Ok (fold_left Z.max l' x)
  end.

Definition min_int (l : list Z) : result Z :=
  match l with
  | [] => Raise (ValueError "min() arg is an empty sequence")
  | x :: l' => Ok (fold_left Z.min l' x)
  end.

(** [len(x)]: defined on strings and sequences only. *)
Definition py_len (x : pyval) : result Z :=
  match x with
  | PStr s => Ok (Z.of_nat (String.length s))
  | PList l | PTuple l => Ok (Z.of_nat (length l))
  | _ => Raise TypeError
  end.

(** [operator.add] *)
Definition py_add (x y : pyval) : result pyval :=
  match x, y with
  | PInt a, PInt b => Ok (PInt (a + b))
  | PStr a, PStr b => Ok (PStr (a +:+ b))
  | PList a, PList b => Ok (PList (a ++ b))
  | PTuple a, PTuple b => Ok (PTuple (a ++ b))
  | _, _ => Raise TypeError
  end.

(** **** [set] of integers

    [list(set(xs))] yields the items in the order of the hash table that
    CPython builds: open addressing over a table of [mask + 1] slots that
    starts with 8 slots and is rebuilt when it is three fifths full. *)
Record pyset : Type := MkSet {
  set_mask : Z;
  set_fill : Z;
  set_table : list (option Z)
}.

Definition PySet_MINSIZE : Z := 8.
Definition LINEAR_PROBES : nat := 9.
Definition PERTURB_SHIFT : Z := 5.

Definition hash_int (z : Z) : Z :=
  let P := 2 ^ 61 - 1 in
  let h := if z <? 0 then - ((- z) mod P) else z mod P in
  if h =? -1 then -2 else h.

Definition set_empty (size : Z) : pyset :=
  MkSet (size - 1) 0 (repeat None (Z.to_nat size)).

(** Looks at slot [i] and the [probes] slots after it: the index of the
    first unused slot ([true]) or of the slot that holds [key] ([false]). *)
Fixpoint linear_probe (table : list (option Z)) (i : Z) (probes : nat) (key : Z)
    : option (Z * bool) :=
  match table !! Z.to_nat i with
  | Some (Some k) =>
      if k =? key then Some (i, false)
      else match probes with
           | O => None
           | S p => linear_probe table (i + 1) p key
           end
  | _ => Some (i, true)
  end.

Fixpoint probe_loop (fuel : nat) (table : list (option Z)) (mask i perturb key : Z)
    : option (Z * bool) :=
  match fuel with
  | O => None
  | S fuel' =>
      let probes := if i + Z.of_nat LINEAR_PROBES <=? mask then LINEAR_PROBES else O in
      match linear_probe table i probes key with
      | Some r => Some r
      | None =>
          let perturb := Z.shiftr perturb PERTURB_SHIFT in
          probe_loop fuel' table mask (Z.land (i * 5 + 1 + perturb) mask) perturb key
      end
  end.

(** The slot for [key]. The table always has an unused slot, which the probe
    sequence reaches within [mask + 16] rounds. *)
Definition set_find_slot (table : list (option Z)) (mask key : Z) : option (Z * bool) :=
  let hash := hash_int key in
  probe_loop (Z.to_nat mask + 16) table mask (Z.land hash mask) (hash mod 2 ^ 64) key.

Definition set_insert_clean (table : list (option Z)) (mask key : Z) : list (option Z) :=
  match set_find_slot table mask key with
  | Some (i, _) => <[Z.to_nat i := Some key]> table
  | None => table
  end.

Fixpoint grow_size (fuel : nat) (newsize minused : Z) : Z :=
  match fuel with
  | O => newsize
  | S fuel' => if newsize <=? minused then grow_size fuel' (newsize * 2) minused else newsize
  end.

Definition set_table_resize (so : pyset) (minused : Z) : pyset :=
  let newsize := grow_size 64 PySet_MINSIZE minused in
  let newmask := newsize - 1 in
  let newtable :=
    fold_left (λ t entry,
      match entry with
      | Some key => set_insert_clean t newmask key
      | None => t
      end) (set_table so) (repeat None (Z.to_nat newsize)) in
  MkSet newmask (set_fill so) newtable.

Definition set_add (so : pyset) (key : Z) : pyset :=
  match set_find_slot (set_table so) (set_mask so) key with
  | Some (i, true) =>
      let so' := MkSet (set_mask so) (set_fill so + 1)
                   (<[Z.to_nat i := Some key]> (set_table so)) in
      if set_fill so' * 5 <? set_mask so' * 3 then so'
      else set_table_resize so'
             (if 50000 <? set_fill so' then set_fill so' * 2 else set_fill so' * 4)
  | _ => so
  end.

(** [list(set(xs))] *)
Definition list_of_set (xs : list Z) : list Z :=
  omap id (set_table (fold_left set_add xs (set_empty PySet_MINSIZE))).

(** [k for k, _ in groupby(l)]: the first item of every run of equal items. *)
Fixpoint groupby_from {A} `{EqDecision A} (cur : A) (l : list A) : list A :=
  match l with
  | [] => []
  | y :: l' => if decide (y = cur) then groupby_from cur l' else y :: groupby_from y l'
  end.

Definition groupby_keys {A} `{EqDecision A} (l : list A) : list A :=
  match l with
  | [] => []
  | x :: l' => x :: groupby_from x l'
  end.

(** [accumulate(l, operator.add)] *)
Fixpoint accumulate_from (total : Z) (l : list Z) : list Z :=
  match l with
  | [] => []
  | x :: l' => (total + x) :: accumulate_from (total + x) l'
  end.

Definition accumulate (l : list Z) : list Z :=
  match l with
  | [] => []
  | x :: l' => x :: accumulate_from x l'
  end.

(** [Counter(data)]: the counts in first-seen order; an unhashable item is
    rejected. *)
Fixpoint counter_add (x : pyval) (c : list (pyval * Z)) : list (pyval * Z) :=
  match c with
  | [] => [(x, 1)]
  | (k, n) :: c' => if py_eqb k x then (k, n + 1) :: c' else (k, n) :: counter_add x c'
  end.

Definition Counter (data : list pyval) : result (list (pyval * Z)) :=
  if forallb hashable data
  then Ok (fold_left (λ c x, counter_add x c) data [])
  else Raise TypeError.

(** [sorted] when the comparison may raise: the first failing comparison
    aborts the sort. The comparisons made are those of the insertion
    sort. *)
Section SortedRaising.
Context {A : Type} (lt : A → A → result bool).

Fixpoint insert_sorted_r (x : A) (l : list A) : result (list A) :=
  match l with
  | [] => Ok [x]
  | y :: l' =>
      let* c := lt y x in
      if c then let* r := insert_sorted_r x l' in Ok (y :: r)
      else Ok (x :: y :: l')
  end.

Fixpoint sorted_r (l : list A) : result (list A) :=
  match l with
  | [] => Ok []
  | x :: l' => let* s := sorted_r l' in insert_sorted_r x s
  end.
End SortedRaising.

(** [n in range(lo, hi)] for an integer [n] *)
Definition in_range (n lo hi : Z) : bool := (lo <=? n) && (n <? hi).

(** [operator.floordiv] *)
Definition py_floordiv (x y : pyval) : result pyval :=
  match x, y with
  | PInt a, PInt b => if b =? 0 then Raise ZeroDivisionError else Ok (PInt (a / b))
  | _, _ => Raise TypeError
  end.

(** [groupby(l)] with its groups: a group runs while [tgtkey == key] holds
    of its first item and the next one. [cur] is the current group,
    reversed. *)
Fixpoint groupby_acc {A} (eqb : A → A → bool) (tgt : A) (cur : list A)
    (l : list A) : list (list A) :=
  match l with
  | [] => [rev cur]
  | e :: l' =>
      if eqb tgt e then groupby_acc eqb tgt (e :: cur) l'
      else rev cur :: groupby_acc eqb e [e] l'
  end.

Definition groupby {A} (eqb : A → A → bool) (l : list A) : list (list A) :=
  match l with
  | [] => []
  | x :: l' => groupby_acc eqb x [x] l'
  end.

(** [enumerate(l, start)] *)
Fixpoint enumerate {A} (start : Z) (l : list A) : list (Z * A) :=
  match l with
  | [] => []
  | x :: l' => (start, x) :: enumerate (start + 1) l'
  end.

(** [sep.join(items)]: an item that is no string is a [TypeError]. *)
Definition str_join (sep : string) (items : list pyval) : result string :=
  let* parts := mapM (λ x, match x with PStr s => Ok s | _ => Raise TypeError end)
                  items in
  Ok (join sep parts).

(** [d[k] = v] on a dict, the list of its items in insertion order: a key
    that is present keeps its place. *)
Fixpoint dict_set (k v : pyval) (d : list (pyval * pyval)) : list (pyval * pyval) :=
  match d with
  | [] => [(k, v)]
  | (k', v') :: d' =>
      if py_eqb k' k then (k', v) :: d' else (k', v') :: dict_set k v d'
  end.

(** [d.get(k)] *)
Fixpoint dict_get (k : pyval) (d : list (pyval * pyval)) : option pyval :=
  match d with
  | [] => None
  | (k', v') :: d' => if py_eqb k' k then Some v' else dict_get k d'
  end.

(** [{key(i): value(i) for i in items}]; hashing an unhashable key is a
    [TypeError]. *)
Definition dict_comprehension {A} (entry : A → result (pyval * pyval))
    (items : list A) : result (list (pyval * pyval)) :=
  fold_left (λ acc item,
    let* d := acc in
    let* kv := entry item in
    if hashable kv.1 then Ok (dict_set kv.1 kv.2 d) else Raise TypeError)
    items (Ok []).

(** [c.isspace()] for a character below 256 *)
Definition isspace (c : ascii) : bool :=
  let n := N_of_ascii c in
  ((9 <=? n) && (n <=? 13) || (28 <=? n) && (n <=? 32) || (n =? 133) || (n =? 160))%N.

End Py.

(** ** [ListExt] (src/absfuyu/dxt/listext.py) *)
Module ListExt.
Import Py.

(** *** [sorts]

    Stated over any element type with a [type] and a [str]; the dict
    [type_weights] maps each type to the number of types seen before it. *)
Section Sorts.
Context {A T : Type} `{Countable T} (type_of : A → T) (str : A → string).

(** The loop filling [type_weights]. *)
Definition add_type_weight (type_weights : gmap T nat) (x : A) : gmap T nat :=
  match type_weights !! type_of x with
  | None => <[type_of x := size type_weights]> type_weights
  | Some _ => type_weights
  end.

Definition type_weights_of (lst : list A) : gmap T nat :=
  fold_left add_type_weight lst ∅.

(** The key [(type_weights[type(x)], str(x))]; every type of [lst] is a
    key of the dict, so the default of the lookup is never used. *)
Definition sort_key (type_weights : gmap T nat) (x : A) : nat * string :=
  (type_weights !!! type_of x, str x).

(** [<] on key tuples. *)
Definition key_ltb (k1 k2 : nat * string) : bool :=
  (k1.1 <? k2.1)%nat || ((k1.1 =? k2.1)%nat && String.ltb k1.2 k2.2).

Definition sorts (self : list A) (reverse : bool) : list A :=
  let lst := self in
  let type_weights := type_weights_of lst in
  sorted (λ y x, key_ltb (sort_key type_weights y) (sort_key type_weights x))
    reverse lst.
End Sorts.

Global Instance pytype_eq_dec : EqDecision pytype.
Proof. solve_decision. Defined.

Definition pytype_code (t : pytype) : nat :=
  match t with TNoneType => 0 | TInt => 1 | TStr => 2 | TList => 3 | TTuple => 4 end.

Definition pytype_decode (n : nat) : option pytype :=
  match n with
  | 0 => Some TNoneType | 1 => Some TInt | 2 => Some TStr | 3 => Some TList
  | 4 => Some TTuple | _ => None
  end%nat.

Global Instance pytype_countable : Countable pytype.
Proof.
  apply (inj_countable pytype_code pytype_decode). by intros [].
Defined.

(** [ListExt.sorts] on Python values. *)
Definition sorts_py (self : list pyval) (reverse : bool) : list pyval :=
  sorts type_of py_str self reverse.

(** *** [flatten] *)
Definition instance_checking (item : pyval) : list pyval :=
  match item with
  | PStr _ => [item]
  | PList l | PTuple l => l
  | _ => [item]
  end.

(** [flatten()] with [recursive=False] *)
Definition flatten_once (self : list pyval) : list pyval :=
  concat (map instance_checking self).

Definition _condition (item : pyval) : bool :=
  if is_str item then false else is_iterable item.

(** Nesting depth, the measure of the [while] loop. *)
Fixpoint depth (x : pyval) : nat :=
  match x with
  | PList l | PTuple l => S (fold_right (λ y d, Nat.max (depth y) d) 0%nat l)
  | _ => 0
  end.

Definition depth_list (l : list pyval) : nat :=
  fold_right (λ y d, Nat.max (depth y) d) 0%nat l.

Lemma depth_list_app l1 l2 :
  depth_list (l1 ++ l2) = Nat.max (depth_list l1) (depth_list l2).
Proof. induction l1 as [|x l1 IH]; simpl; [done|]. rewrite IH. lia. Qed.

Lemma depth_flatten_once l :
  existsb _condition l = true → (depth_list (flatten_once l) < depth_list l)%nat.
Proof.
  assert (Hle : ∀ l, (depth_list (flatten_once l) ≤ Nat.pred (depth_list l))%nat).
  { clear l. induction l as [|x l IH]; simpl; [lia|].
    unfold flatten_once in *. simpl. rewrite depth_list_app.
    assert (depth_list (instance_checking x) ≤ Nat.pred (depth x))%nat.
    { destruct x; simpl; unfold depth_list; lia. }
    assert (depth_list (instance_checking x) ≤ depth x)%nat.
    { destruct x; simpl; unfold depth_list; lia. }
    destruct (depth x) eqn:Hx.
    - destruct x; simpl in *; try discriminate; lia.
    - lia. }
  intros Hex. specialize (Hle l).
  assert (0 < depth_list l)%nat; [|lia].
  clear Hle. induction l as [|x l IH]; simpl in *; [done|].
  apply orb_true_iff in Hex as [Hx|Hl].
  - destruct x; simpl in *; try discriminate; lia.
  - specialize (IH Hl). lia.
Qed.

(** [while any(flattened.apply(_condition)): flattened = flattened.flatten()] *)
Equations? flatten_while (flattened : list pyval) : list pyval
    by wf (depth_list flattened) lt :=
  flatten_while flattened with inspect (existsb _condition flattened) := {
    | exist _ true Hany => flatten_while (flatten_once flattened)
    | exist _ false _ => flattened }.
Proof. by apply depth_flatten_once. Qed.

Definition flatten (self : list pyval) (recursive : bool) : list pyval :=
  let flattened := flatten_once self in
  if recursive then flatten_while flattened else flattened.

(** *** [len_items], [max_item_len] *)
Definition _len (item : pyval) : result Z :=
  except_TypeError (py_len item) (Ok (Z.of_nat (String.length (py_str item)))).

Definition len_items (self : list pyval) : result (list Z) := mapM _len self.

Definition max_item_len (self : list pyval) (recursive : bool) : result Z :=
  if recursive then
    let* lens := len_items (flatten self true) in max_int lens
  else
    let* lens := len_items self in max_int lens.

(** *** [freq] *)
Inductive freq_result : Type :=
| FreqDict (times_appear : list (pyval * Z))
| FreqIncrement (times_appear_increment : list Z).

(** [<] on the [(item, count)] tuples of [temp.items()] *)
Definition item_lt (a b : pyval * Z) : result bool :=
  if py_eqb a.1 b.1 then Ok (a.2 <? b.2) else py_lt a.1 b.1.

(** An [(item, count)] tuple as a value, for [sorts]. *)
Definition item_value (a : pyval * Z) : pyval := PTuple [a.1; PInt a.2].

Definition freq (self : list pyval) (sort : bool) (num_of_first_char : option Z)
    (appear_increment : bool) : result freq_result :=
  let data := if sort then sorts_py self false else self in
  let* temp :=
    match num_of_first_char with
    | None => Counter data
    | Some c =>
        let* max_char := min_int (map (λ x, Z.of_nat (String.length (py_str x))) data) in
        if negb (in_range c 1 max_char) then Counter data
        else Counter (map (λ x, PStr (str_prefix (py_str x) c)) data)
    end in
  let* times_appear :=
    except_TypeError (sorted_r item_lt temp)
      (Ok (sorts (λ a, type_of (item_value a)) (λ a, py_str (item_value a)) temp false)) in
  if appear_increment
  then Ok (FreqIncrement (accumulate (map snd times_appear)))
  else Ok (FreqDict times_appear).

(** *** [group_by_pair_value], on integer items

    The dict [temp] keeps its keys in insertion order. *)
Fixpoint temp_add (x : Z) (item : list Z) (temp : list (Z * list (list Z)))
    : list (Z * list (list Z)) :=
  match temp with
  | [] => [(x, [item])]
  | (k, v) :: temp' =>
      if k =? x then (k, v ++ [item]) :: temp' else (k, v) :: temp_add x item temp'
  end.

(** One round of the loop: from [iter] to the next [iter]. *)
Definition group_pass (iter : list (list Z)) : list (list Z) :=
  let temp :=
    fold_left (λ temp item, fold_left (λ temp x, temp_add x item temp) item temp)
      iter [] in
  let temp := map (λ kv, (kv.1, list_of_set (concat kv.2))) temp in
  map snd temp.

Definition group_by_pair_value (self : list (list Z)) (max_loop : Z) : list (list Z) :=
  let iter := Nat.iter (Z.to_nat (Z.max max_loop 3)) group_pass self in
  groupby_keys iter.

(** *** [slice_points], [split_chunk]

    [points] is a reference to a list object of the caller: the heap maps
    references to the contents of such objects, and [slice_points] returns
    the heap after its [append]. *)
Definition loc : Type := nat.

Definition slice_points {A} (self : list A) (points : loc) (h : gmap loc (list Z))
    : list (list A) * gmap loc (list Z) :=
  let pts := (h !!! points) ++ [Z.of_nat (length self)] in
  let h := <[points := pts]> h in
  let data := self in
  (map (λ i, slice data i.1 i.2) (zip (0 :: slice pts 0 (-1)) pts), h).

Definition split_chunk {A} (self : list A) (chunk_size : Z) (h : gmap loc (list Z))
    : list (list A) * gmap loc (list Z) :=
  let r := range 0 (Z.of_nat (length self)) (Z.max chunk_size 1) in
  let slice_points_list := slice r 1 (Z.of_nat (length r)) in
  let p := fresh (dom h) in
  slice_points self p (<[p := slice_points_list]> h).

(** *** [wrap_to_column], on a list of strings *)
Definition wrap_to_column (self : list string) (width margin : Z)
    (h : gmap loc (list Z)) : result (list string) * gmap loc (list Z) :=
  match max_item_len (map PStr self) false with
  | Raise e => (Raise e, h)
  | Ok m =>
      let max_item_length := m + 1 in
      let available_width := Z.max width 4 - Z.max margin 2 in
      let column_count :=
        if 0 <? max_item_length then Z.max 1 (available_width / max_item_length)
        else 1 in
      let mod_item (item : list string) : string :=
        join "" (map (λ x, ljust x max_item_length) item) in
      let '(chunks, h) := split_chunk self column_count h in
      (Ok (map mod_item chunks), h)
  end.

(** *** [head], [tail] *)

(** Modelled from the spec: [absfuyu.util.set_min_max], which [head] and
    [tail] import and whose source is not among the files; the spec names
    it a clamping utility [clamp(value, min, max)], and its test expects
    [50], [0] and [100] for [50], [-10] and [200] between [0] and [100]. *)
Definition set_min_max (current_value min_value max_value : Z) : Z :=
  Z.min (Z.max current_value min_value) max_value.

Definition head {A} (self : list A) (number_of_items : Z) : list A :=
  let number_of_items :=
    set_min_max number_of_items 0 (Z.of_nat (length self)) in
  slice self 0 number_of_items.

(** [self[::-1]] is the reversed list. *)
Definition tail {A} (self : list A) (number_of_items : Z) : list A :=
  let number_of_items :=
    set_min_max number_of_items 0 (Z.of_nat (length self)) in
  rev (slice (rev self) 0 number_of_items).

(** *** [apply], [stringify], [join], [numbering] *)
Definition apply {A B} (self : list A) (func : A → B) : list B := map func self.

Definition stringify (self : list pyval) : list pyval :=
  map (λ x, PStr (py_str x)) self.

Definition join (self : list pyval) (sep : string) : result string :=
  except_TypeError (str_join sep self)
    (str_join sep (apply self (λ x, PStr (py_str x)))).

Definition numbering {A} (self : list A) (start : Z) : list (Z * A) :=
  let start := Z.max start 0 in
  enumerate start self.

(** *** [pick_one], [get_random]

    [random.choice(seq)] is [seq[randbelow(len(seq))]]: the generator is a
    state [G] with its [randbelow]. *)
Inductive index_error : Type := IndexError (msg : string).

Section Random.
Context {G : Type} (randbelow : G → Z → Z * G).

Definition pick_one {A} (self : list A) (g : G) : (index_error + A) * G :=
  if negb (Z.of_nat (length self) =? 0) then
    let '(i, g) := randbelow g (Z.of_nat (length self)) in
    match self !! Z.to_nat i with
    | Some out => (inr out, g)
    | None => (inl (IndexError "list index out of range"), g)
    end
  else (inl (IndexError "List empty!"), g).

(** [[self.pick_one() for _ in range(number_of_items)]] *)
Fixpoint get_random_loop {A} (self : list A) (count : nat) (g : G)
    : (index_error + list A) * G :=
  match count with
  | O => (inr [], g)
  | S count' =>
      match pick_one self g with
      | (inl e, g) => (inl e, g)
      | (inr x, g) =>
          match get_random_loop self count' g with
          | (inl e, g) => (inl e, g)
          | (inr xs, g) => (inr (x :: xs), g)
          end
      end
  end.

Definition get_random {A} (self : list A) (number_of_items : Z) (g : G)
    : (index_error + list A) * G :=
  get_random_loop self (Z.to_nat number_of_items) g.
End Random.

(** *** [group_by_unique] *)
Definition group_by_unique (self : list pyval) : list (list pyval) :=
  let temp := groupby py_eqb (sorts_py self false) in
  temp.

End ListExt.

(** ** [DictExt] (src/absfuyu/dxt/dictext.py) *)
Module DictExt.
Import Py.

Record DictAnalyzeResult {K : Type} : Type := MkDictAnalyzeResult {
  max_value : pyval;
  min_value : pyval;
  max_list : list (K * pyval);
  min_list : list (K * pyval)
}.
Arguments DictAnalyzeResult K : clear implicits.

(** [analyze]: the dict is the list of its items, in insertion order. *)
Definition analyze {K} (self : list (K * pyval)) : result (DictAnalyzeResult K) :=
  let body :=
    let dct := self in
    let* max_val := py_max (map snd dct) in
    let* min_val := py_min (map snd dct) in
    let max_list := filter (λ kv, py_eqb kv.2 max_val = true) dct in
    let min_list := filter (λ kv, py_eqb kv.2 min_val = true) dct in
    Ok (MkDictAnalyzeResult K max_val min_val max_list min_list) in
  except_TypeError body (Raise (ValueError "Value must be int or float")).

(** [aggregate]: [all_keys] is a set, visited in some order. *)
Section Aggregate.
Context {K : Type} `{Countable K}.

Definition aggregate_step (self other_dict : gmap K pyval) (default_value : pyval)
    (operator_func : pyval → pyval → result pyval)
    (merged_output : gmap K pyval) (k : K) : result (gmap K pyval) :=
  let value_self := default default_value (self !! k) in
  let value_other := default default_value (other_dict !! k) in
  let* v := except_TypeError (operator_func value_self value_other)
              (Ok (PList [value_self; value_other])) in
  Ok (<[k := v]> merged_output).

Definition aggregate_loop (self other_dict : gmap K pyval) (default_value : pyval)
    (operator_func : pyval → pyval → result pyval) (all_keys : list K)
    : result (gmap K pyval) :=
  fold_left (λ acc k,
    let* merged_output := acc in
    aggregate_step self other_dict default_value operator_func merged_output k)
    all_keys (Ok ∅).

Definition aggregate (self other_dict : gmap K pyval) (default_value : pyval)
    (operator_func : pyval → pyval → result pyval) : result (gmap K pyval) :=
  let all_keys := dom self ∪ dom other_dict in
  aggregate_loop self other_dict default_value operator_func (elements all_keys).
End Aggregate.

(** [swap_items] and [apply], on a dict as the list of its items in
    insertion order. *)
Definition swap_items (self : list (pyval * pyval)) : result (list (pyval * pyval)) :=
  dict_comprehension (λ kv, Ok (kv.2, kv.1)) self.

Definition apply (self : list (pyval * pyval)) (func : pyval → result pyval)
    (apply_to_value : bool) : result (list (pyval * pyval)) :=
  if apply_to_value then
    dict_comprehension (λ kv, let* v := func kv.2 in Ok (kv.1, v)) self
  else
    dict_comprehension (λ kv, let* k := func kv.1 in Ok (k, kv.2)) self.

End DictExt.

(** ** [SphinxDocstring] (src/absfuyu/core/docstring.py), the decorator
    behind [versionadded], [versionchanged] and [deprecated] *)
Module Docstring.
Import Py.

Inductive SphinxDocstringMode : Type := ADDED | CHANGED | DEPRECATED.

Definition mode_value (mode : SphinxDocstringMode) : string :=
  match mode with
  | ADDED => "Added"
  | CHANGED => "Changed"
  | DEPRECATED => "Deprecated"
  end.

Definition newline : ascii := ascii_of_N 10.
Definition tab : ascii := ascii_of_N 9.

Definition _LINEBREAK : string := String newline (String newline "").

(** The loop of [_calculate_white_space] over the characters. *)
Fixpoint white_space_loop (res : Z) (docs : string) : Z :=
  match docs with
  | EmptyString => res
  | String char rest =>
      let res := if Ascii.eqb char " " then res + 1 else res in
      let res := if Ascii.eqb char tab then res + 4 else res in
      if negb (isspace char) then res else white_space_loop res rest
  end.

Definition _calculate_white_space (docs : option string) : Z :=
  let res := 0 in
  match docs with
  | None => res
  | Some docs => white_space_loop res docs
  end.

(** [" " * n] *)
Definition spaces_times (n : Z) : string :=
  string_of_list_ascii (repeat " "%char (Z.to_nat n)).

(** [_SPHINX_DOCS_TEMPLATE.substitute(...)], for the template
    ["$line_break*$mode in version $version$reason*"]. *)
Definition _generate_version_note (version : string) (reason : option string)
    (mode : SphinxDocstringMode) (num_of_white_spaces : Z) : string :=
  let reason_str :=
    match reason with
    | None | Some EmptyString => ""
    | Some r => ": " +:+ r
    end in
  let line_break := _LINEBREAK +:+ spaces_times num_of_white_spaces in
  line_break +:+ "*" +:+ mode_value mode +:+ " in version " +:+ version
    +:+ reason_str +:+ "*".

(** The docstring that [__call__] gives to the decorated object:
    [(doc or "") + note]. *)
Definition decorated_doc (version : string) (reason : option string)
    (mode : SphinxDocstringMode) (doc : option string) : string :=
  default "" doc
    +:+ _generate_version_note version reason mode (_calculate_white_space doc).

End Docstring.

(** ** The vocabulary of the properties *)
Import Py.

(** Induction on values, with the hypothesis on every item of a sequence. *)
Fixpoint pyval_ind' (P : pyval → Prop)
    (HNone : P PNone) (HInt : ∀ z, P (PInt z)) (HStr : ∀ s, P (PStr s))
    (HList : ∀ l, Forall P l → P (PList l))
    (HTuple : ∀ l, Forall P l → P (PTuple l)) (x : pyval) : P x :=
  let fix all (l : list pyval) : Forall P l :=
    match l with
    | [] => List.Forall_nil P
    | y :: l' =>
        List.Forall_cons P y l' (pyval_ind' P HNone HInt HStr HList HTuple y) (all l')
    end in
  match x with
  | PNone => HNone
  | PInt z => HInt z
  | PStr s => HStr s
  | PList l => HList l (all l)
  | PTuple l => HTuple l (all l)
  end.

(** *** Sorting *)

(** [a] may stand before [b]: [b] is not below [a]. *)
Definition in_order {A} (ltb : A → A → bool) (a b : A) : Prop := ltb b a = false.

Section SortVocabulary.
Context {A T : Type} `{Countable T} (type_of : A → T) (str : A → string).

(** The ranks in a dict under construction: each below the size, no two
    equal. *)
Definition ranked (tw : gmap T nat) : Prop :=
  (∀ t n, tw !! t = Some n → (n < size tw)%nat)
  ∧ (∀ t1 t2 n, tw !! t1 = Some n → tw !! t2 = Some n → t1 = t2).

(** The comparison that [sorts] hands to [sorted], for a dict of ranks. *)
Definition key_lt (tw : gmap T nat) (y x : A) : bool :=
  ListExt.key_ltb (ListExt.sort_key type_of str tw y)
    (ListExt.sort_key type_of str tw x).
End SortVocabulary.

(** *** Counting *)

(** The length of [str(x)], and the least such length over a list. *)
Definition str_len (x : pyval) : Z := Z.of_nat (String.length (py_str x)).

Definition is_min_len (self : list pyval) (m : Z) : Prop :=
  (∃ x, x ∈ self ∧ str_len x = m) ∧ ∀ x, x ∈ self → m ≤ str_len x.

(** The first [c] characters of [str(x)]. *)
Definition first_chars (c : Z) (x : pyval) : string :=
  String.substring 0 (Z.to_nat c) (py_str x).

Definition occurrences (s : string) (l : list string) : Z :=
  Z.of_nat (length (filter (λ t, t = s) l)).

(** [d] is a table of the strings of [l] with their multiplicities. *)
Definition counts_of (l : list string) (d : list (pyval * Z)) : Prop :=
  NoDup (map fst d)
  ∧ ∀ k n, (k, n) ∈ d ↔ ∃ s, k = PStr s ∧ n = occurrences s l ∧ 0 < n.

(** What [freq] returns for a sorted table. *)
Definition freq_output (appear_increment : bool) (d : list (pyval * Z))
    : ListExt.freq_result :=
  if appear_increment then ListExt.FreqIncrement (accumulate (map snd d))
  else ListExt.FreqDict d.

(** The count that a [Counter] holds for a string. *)
Fixpoint counted (c : list (pyval * Z)) (s : string) : option Z :=
  match c with
  | [] => None
  | (k, n) :: c' => if py_eqb k (PStr s) then Some n else counted c' s
  end.

(** The table built from the strings [ss], starting from a table [c]. *)
Definition counter_fold (ss : list string) (c : list (pyval * Z)) : list (pyval * Z) :=
  fold_left (λ c x, counter_add x c) (map PStr ss) c.

(** [<] on [(item, count)] tuples whose items are strings. *)
Definition item_ltb (a b : pyval * Z) : bool :=
  if py_eqb a.1 b.1 then a.2 <? b.2
  else match a.1, b.1 with
       | PStr s, PStr t => String.ltb s t
       | _, _ => false
       end.

(** *** Chunks and columns *)

(** A list of chunks of [size] items each, but for a last one that may be
    shorter. *)
Definition chunked {A} (size : Z) (chunks : list (list A)) : Prop :=
  ∃ body last, chunks = body ++ [last]
    ∧ Forall (λ c, Z.of_nat (length c) = size) body
    ∧ Z.of_nat (length last) ≤ size.

Definition spaces (n : Z) : string :=
  string_of_list_ascii (repeat " "%char (Z.to_nat n)).

(** Padding to [cell] characters, after the text and before it. *)
Definition pad_right (cell : Z) (x : string) : string :=
  x +:+ spaces (cell - Z.of_nat (String.length x)).

Definition pad_left (cell : Z) (x : string) : string :=
  spaces (cell - Z.of_nat (String.length x)) +:+ x.

(** [M] is the greatest length of the strings of [self]. *)
Definition is_max_len (self : list string) (M : Z) : Prop :=
  (∃ x, x ∈ self ∧ Z.of_nat (String.length x) = M)
  ∧ ∀ x, x ∈ self → Z.of_nat (String.length x) ≤ M.

(** The layout of [wrap_to_column] for a way of padding: rows of
    [column_count] items, every item padded to [M + 1] characters, every row
    joined into one string. *)
Definition column_layout (pad : Z → string → string) (self : list string)
    (width margin : Z) (out : result (list string)) : Prop :=
  ∃ (M : Z) (rows : list (list string)),
    is_max_len self M
    ∧ concat rows = self
    ∧ chunked (Z.max 1 ((Z.max width 4 - Z.max margin 2) / (M + 1))) rows
    ∧ (∀ x, x ∈ self → Z.of_nat (String.length (pad (M + 1) x)) = M + 1)
    ∧ out = Ok (map (λ row, join "" (map (pad (M + 1)) row)) rows).

(** *** Graphs of pairs *)

(** Two items are linked when some input list holds both; the components
    are the classes of the reflexive and transitive closure of the links. *)
Definition linked (edges : list (list Z)) (a b : Z) : Prop :=
  ∃ e, e ∈ edges ∧ a ∈ e ∧ b ∈ e.

Definition connected (edges : list (list Z)) : Z → Z → Prop :=
  rtc (linked edges).

Definition vertex (edges : list (list Z)) (a : Z) : Prop :=
  ∃ e, e ∈ edges ∧ a ∈ e.

Definition components_of (edges groups : list (list Z)) : Prop :=
  ∀ a b, vertex edges a →
    connected edges a b ↔ ∃ g, g ∈ groups ∧ a ∈ g ∧ b ∈ g.

Definition example_pairs : list (list Z) := [[1; 2]; [2; 3]; [4; 3]; [5; 6]].

(** The component of an item of the example: the least item of its group. *)
Definition example_root (a : Z) : Z := if a <=? 4 then 1 else 5.

(** *** Comparisons and operators that may raise *)

(** What [max] and [min] need of their comparison. *)
Definition comparison (better : pyval → pyval → result bool) : Prop :=
  (∀ a b r, better a b = Ok r → type_of a = type_of b)
  ∧ (∀ a b e, better a b = Raise e → e = TypeError).

Definition extremum_step (better : pyval → pyval → result bool)
    (acc : result pyval) (item : pyval) : result pyval :=
  let* best := acc in
  let* c := better item best in
  Ok (if c then item else best).

Section AggregateVocabulary.
Context {K : Type} `{Countable K}.

(** The value [aggregate] stores at a key when the operator returns or
    raises [TypeError] there. *)
Definition aggregated (self other_dict : gmap K pyval) (default_value : pyval)
    (operator_func : pyval → pyval → result pyval) (k : K) : pyval :=
  let value_self := default default_value (self !! k) in
  let value_other := default default_value (other_dict !! k) in
  match operator_func value_self value_other with
  | Ok v => v
  | Raise _ => PList [value_self; value_other]
  end.

(** The operator raises nothing but [TypeError] at the key [k]. *)
Definition only_type_errors (self other_dict : gmap K pyval) (default_value : pyval)
    (operator_func : pyval → pyval → result pyval) (k : K) : Prop :=
  ∀ e, operator_func (default default_value (self !! k))
         (default default_value (other_dict !! k)) = Raise e → e = TypeError.
End AggregateVocabulary.

(** Membership in a list that is written out. *)
Ltac elem_solve :=
  solve [repeat first [apply list_elem_of_here | apply list_elem_of_further]].

Ltac elem_cases H :=
  repeat (apply elem_of_cons in H as [-> | H]);
  try (by apply elem_of_nil in H).

(** ** Properties *)

(** *** [freq] on the empty list *)

(** C10: on the empty list, [freq] with any integer [num_of_first_char]
    raises the error of [min] on an empty sequence, whatever the other
    arguments are, whereas [freq()] without it returns the empty mapping. *)
Theorem freq_empty_list :
  (∀ (sort : bool) (c : Z) (appear_increment : bool),
     ListExt.freq [] sort (Some c) appear_increment
     = Raise (ValueError "min() arg is an empty sequence"))
  ∧ (∀ sort : bool, ListExt.freq [] sort None false = Ok (ListExt.FreqDict [])).
Proof.
  split.
  - intros [] c []; reflexivity.
  - intros []; reflexivity.
Qed.

(** *** [flatten] *)

Lemma flatten_once_fixed l :
  existsb ListExt._condition l = false → ListExt.flatten_once l = l.
Proof.
  unfold ListExt.flatten_once.
  induction l as [|x l IH]; simpl; [done|].
  intros [Hx Hl]%orb_false_iff. rewrite (IH Hl).
  by destruct x; simpl in *.
Qed.

Lemma flatten_while_done l :
  existsb ListExt._condition (ListExt.flatten_while l) = false.
Proof.
  funelim (ListExt.flatten_while l); [assumption | congruence].
Qed.

Lemma flatten_while_fixed l :
  existsb ListExt._condition l = false → ListExt.flatten_while l = l.
Proof.
  intros Hl. funelim (ListExt.flatten_while l); [congruence | reflexivity].
Qed.

(** C4: the result of [flatten(recursive=True)] holds no element that is an
    iterable other than a string, and flattening it again returns it
    unchanged. *)
Theorem flatten_recursive_idempotent (x : list pyval) :
  let y := ListExt.flatten x true in
  (∀ e, e ∈ y → ¬ (is_iterable e = true ∧ is_str e = false))
  ∧ ListExt.flatten y true = y.
Proof.
  simpl. unfold ListExt.flatten.
  pose proof (flatten_while_done (ListExt.flatten_once x)) as Hdone.
  split.
  - intros e He [Hit Hstr].
    assert (existsb ListExt._condition
              (ListExt.flatten_while (ListExt.flatten_once x)) = true) as Hex.
    { apply existsb_exists. exists e. split; [by apply list_elem_of_In|].
      unfold ListExt._condition. by rewrite Hstr. }
    congruence.
  - rewrite (flatten_once_fixed _ Hdone). by apply flatten_while_fixed.
Qed.

(** *** Slices *)

Lemma slice_index_in n i : 0 ≤ i ≤ n → slice_index n i = i.
Proof. intros. unfold slice_index. destruct (Z.ltb_spec i 0); lia. Qed.

Lemma slice_in {A} (l : list A) (a b : Z) :
  0 ≤ a ≤ b → b ≤ Z.of_nat (length l) →
  slice l a b = take (Z.to_nat (b - a)) (drop (Z.to_nat a) l).
Proof.
  intros. unfold slice. by rewrite !slice_index_in by lia.
Qed.

Lemma slice_drop_last {A} (l : list A) (x : A) : slice (l ++ [x]) 0 (-1) = l.
Proof.
  unfold slice. rewrite length_app.
  rewrite (slice_index_in _ 0) by lia.
  replace (slice_index _ (-1)) with (Z.of_nat (length l)).
  - rewrite Z.sub_0_r, Nat2Z.id. simpl. apply take_app_length.
  - unfold slice_index. change (-1 <? 0) with true. cbv iota. simpl length. lia.
Qed.

Lemma slice_tail {A} (l : list A) : slice l 1 (Z.of_nat (length l)) = drop 1 l.
Proof.
  unfold slice. destruct l as [|x l]; [done|].
  rewrite !slice_index_in by (simpl length; lia).
  simpl length. change (Z.to_nat 1) with 1%nat. simpl drop. rewrite drop_0.
  apply take_ge. lia.
Qed.

Lemma slice_empty_at_end {A} (l : list A) :
  slice l (Z.of_nat (length l)) (Z.of_nat (length l)) = [].
Proof. rewrite slice_in by lia. by rewrite Z.sub_diag. Qed.

(** The pairs [(i1, i2)] that [slice_points] walks through. *)
Lemma slice_points_pairs {A} (self : list A) p h :
  (ListExt.slice_points self p h).1
  = map (λ i, slice self i.1 i.2)
      (zip (0 :: h !!! p) (h !!! p ++ [Z.of_nat (length self)])).
Proof. unfold ListExt.slice_points. simpl. by rewrite slice_drop_last. Qed.

Lemma zip_snoc {B C} (l1 : list B) (l2 : list C) x y :
  length l1 = length l2 → zip (l1 ++ [x]) (l2 ++ [y]) = zip l1 l2 ++ [(x, y)].
Proof.
  revert l2. induction l1 as [|a l1 IH]; intros [|b l2] Hlen; simpl in *;
    try done. f_equal. apply IH. lia.
Qed.

(** C9: [slice_points] appends [len(s)] to the list object it is given: after
    the call that object holds its old items followed by [len(s)], no other
    object changes, and a second call with the same object returns one more
    (empty) slice than the first. *)
Theorem slice_points_mutates_points {A} (s : list A) (points : ListExt.loc)
    (h : gmap ListExt.loc (list Z)) (pts : list Z) :
  h !! points = Some pts →
  let n := Z.of_nat (length s) in
  let call1 := ListExt.slice_points s points h in
  let call2 := ListExt.slice_points s points call1.2 in
  call1.2 = <[points := pts ++ [n]]> h
  ∧ call2.2 !! points = Some (pts ++ [n; n])
  ∧ call2.1 = call1.1 ++ [[]]
  ∧ call2.1 ≠ call1.1.
Proof.
  intros Hpts n call1 call2.
  assert (h !!! points = pts) as Htot by by apply lookup_total_correct.
  assert (call1.2 = <[points := pts ++ [n]]> h) as H1.
  { unfold call1, ListExt.slice_points. simpl. by rewrite Htot. }
  assert (call2.1 = call1.1 ++ [[]]) as H2.
  { unfold call2. rewrite slice_points_pairs, H1, lookup_total_insert_eq.
    unfold call1. rewrite slice_points_pairs, Htot. fold n.
    change (0 :: pts ++ [n]) with ((0 :: pts) ++ [n]).
    rewrite zip_snoc by (simpl; rewrite length_app; simpl; lia).
    rewrite map_app. simpl. unfold n. by rewrite slice_empty_at_end. }
  split_and!; [done| |done|].
  - unfold call2. rewrite H1. unfold ListExt.slice_points. simpl.
    rewrite lookup_insert_eq, lookup_total_insert_eq.
    by rewrite <- app_assoc.
  - rewrite H2. intros Heq. apply (f_equal length) in Heq.
    rewrite length_app in Heq. simpl in Heq. lia.
Qed.

Lemma slice_points_mutates_points_witness :
  let s := [1; 2; 3] in
  let h : gmap ListExt.loc (list Z) := {[ 0%nat := [1] ]} in
  (ListExt.slice_points s 0%nat h).1 = [[1]; [2; 3]]
  ∧ (ListExt.slice_points s 0%nat (ListExt.slice_points s 0%nat h).2).1
    = [[1]; [2; 3]] ++ [[]].
Proof.
  intros s h.
  assert (h !! 0%nat = Some [1]) as Hh by (vm_compute; reflexivity).
  split; [vm_compute; reflexivity|].
  exact (proj1 (proj2 (proj2 (slice_points_mutates_points s 0%nat h [1] Hh)))).
Defined.

(** *** [split_chunk] *)

(** Slicing at the points [a + K], [a + 2K], ..., [a + mK] and at the end
    cuts the items from [a] on into chunks of [K]. *)
Lemma slices_from {A} (s : list A) (K : Z) (m : nat) :
  0 < K → ∀ a, 0 ≤ a →
  a + Z.of_nat m * K ≤ Z.of_nat (length s) ≤ a + (Z.of_nat m + 1) * K →
  ∀ pts, pts = map (λ i, a + (Z.of_nat i + 1) * K) (seq 0 m) →
  ∀ chunks,
  chunks = map (λ i, slice s i.1 i.2) (zip (a :: pts) (pts ++ [Z.of_nat (length s)])) →
  concat chunks = drop (Z.to_nat a) s ∧ chunked K chunks.
Proof.
  intros HK. induction m as [|m IH]; intros a Ha Hn pts -> chunks ->.
  - simpl. rewrite app_nil_r, slice_in by lia.
    rewrite take_ge by (rewrite length_drop; lia).
    split; [done|]. exists [], (drop (Z.to_nat a) s).
    split_and!; [done|constructor|]. rewrite length_drop. lia.
  - assert (a + K ≤ Z.of_nat (length s)) as HaK by nia.
    change (seq 0 (S m)) with (0%nat :: seq 1 m).
    rewrite <- seq_shift, map_cons, map_map.
    rewrite (map_ext _ (λ i, (a + K) + (Z.of_nat i + 1) * K))
      by (intros i; rewrite Nat2Z.inj_succ; ring).
    replace (a + (Z.of_nat 0 + 1) * K) with (a + K) by (simpl; ring).
    set (pts := map _ (seq 0 m)).
    change (zip (a :: a + K :: pts) ((a + K :: pts) ++ [Z.of_nat (length s)]))
      with ((a, a + K) :: zip (a + K :: pts) (pts ++ [Z.of_nat (length s)])).
    rewrite map_cons. cbn [concat fst snd].
    destruct (IH (a + K) ltac:(lia) ltac:(nia) _ eq_refl _ eq_refl)
      as (Hcat & body & last & Hch & Hbody & Hlast).
    fold pts in Hcat, Hch. split.
    + rewrite Hcat, slice_in by lia.
      replace (a + K - a) with K by ring.
      rewrite <- (take_drop (Z.to_nat K) (drop (Z.to_nat a) s)) at 2.
      rewrite drop_drop. do 3 f_equal. lia.
    + exists (slice s a (a + K) :: body), last. rewrite Hch.
      split_and!; [done| |done]. constructor; [|done].
      rewrite slice_in by lia. rewrite length_take, length_drop. lia.
Qed.

Lemma range_from_zero (n K : Z) :
  0 < K →
  drop 1 (range 0 n K)
  = map (λ i, 0 + (Z.of_nat i + 1) * K)
      (seq 0 (Nat.pred (Z.to_nat ((n + K - 1) / K)))).
Proof.
  intros HK. unfold range.
  destruct (Z.ltb_spec 0 K) as [_|]; [|lia].
  replace (n - 0 + K - 1) with (n + K - 1) by ring.
  destruct (Z.to_nat ((n + K - 1) / K)) as [|c]; [done|].
  simpl. rewrite <- seq_shift, map_map, drop_0.
  apply map_ext. intros i. rewrite Nat2Z.inj_succ. ring.
Qed.

Lemma split_chunk_chunks {A} (s : list A) (chunk_size : Z)
    (h : gmap ListExt.loc (list Z)) :
  concat (ListExt.split_chunk s chunk_size h).1 = s
  ∧ chunked (Z.max chunk_size 1) (ListExt.split_chunk s chunk_size h).1.
Proof.
  unfold ListExt.split_chunk.
  rewrite slice_points_pairs, lookup_total_insert_eq, slice_tail.
  set (K := Z.max chunk_size 1). set (n := Z.of_nat (length s)).
  assert (0 < K) as HK by lia.
  rewrite range_from_zero by done.
  set (q := (n + K - 1) / K).
  assert (0 ≤ n) as Hn by lia.
  assert (q * K ≤ n + K - 1 < (q + 1) * K) as Hq.
  { unfold q. pose proof (Z.mul_div_le (n + K - 1) K HK).
    pose proof (Z.mul_succ_div_gt (n + K - 1) K HK). lia. }
  assert (0 ≤ q) as Hq0 by (apply Z.div_pos; lia).
  assert (0 + Z.of_nat (Nat.pred (Z.to_nat q)) * K ≤ n
          ≤ 0 + (Z.of_nat (Nat.pred (Z.to_nat q)) + 1) * K) as Hbounds.
  { destruct (Z.to_nat q) as [|c] eqn:Hc; simpl Nat.pred.
    - assert (q = 0) by lia. nia.
    - assert (q = Z.of_nat c + 1) by lia. nia. }
  destruct (slices_from s K (Nat.pred (Z.to_nat q)) HK 0 ltac:(lia) Hbounds
              _ eq_refl _ eq_refl) as [Hcat Hch].
  split; [exact Hcat | exact Hch].
Qed.

(** C8: for every list [s], integer [chunk_size] and heap, the chunks of
    [split_chunk] concatenate to [s]; each chunk but the last has exactly
    [max(chunk_size, 1)] items (that is [chunk_size] itself from 1 on), the
    last has at most that many, and so has every chunk. *)
Theorem split_chunk_reconstructs {A} (s : list A) (chunk_size : Z)
    (h : gmap ListExt.loc (list Z)) :
  concat (ListExt.split_chunk s chunk_size h).1 = s
  ∧ chunked (Z.max chunk_size 1) (ListExt.split_chunk s chunk_size h).1
  ∧ Forall (λ c, Z.of_nat (length c) ≤ Z.max chunk_size 1)
      (ListExt.split_chunk s chunk_size h).1.
Proof.
  destruct (split_chunk_chunks s chunk_size h) as [Hcat Hch].
  split_and!; [done..|].
  destruct Hch as (body & last & -> & Hbody & Hlast).
  apply Forall_app. split.
  - eapply Forall_impl; [exact Hbody|]. simpl. lia.
  - by constructor.
Qed.

(** *** [wrap_to_column] *)

Lemma string_length_append (s1 s2 : string) :
  String.length (s1 +:+ s2) = (String.length s1 + String.length s2)%nat.
Proof. induction s1 as [|c s1 IH]; simpl; [done|]. by rewrite IH. Qed.

Lemma string_length_of_list (l : list ascii) :
  String.length (string_of_list_ascii l) = length l.
Proof. induction l as [|c l IH]; simpl; [done|]. by rewrite IH. Qed.

Lemma spaces_length (n : Z) : String.length (spaces n) = Z.to_nat n.
Proof. unfold spaces. by rewrite string_length_of_list, repeat_length. Qed.

Lemma ljust_pad_right (x : string) (cell : Z) :
  Z.of_nat (String.length x) < cell → ljust x cell = pad_right cell x.
Proof.
  intros Hlt. unfold ljust, pad_right, spaces.
  destruct (Z.leb_spec cell (Z.of_nat (String.length x))); [lia|done].
Qed.

Lemma len_items_strs (self : list string) :
  ListExt.len_items (map PStr self)
  = Ok (map (λ x, Z.of_nat (String.length x)) self).
Proof.
  unfold ListExt.len_items.
  induction self as [|x self IH]; simpl; [done|]. by rewrite IH.
Qed.

Lemma fold_left_max (l : list Z) (x : Z) :
  (fold_left Z.max l x = x ∨ fold_left Z.max l x ∈ l)
  ∧ x ≤ fold_left Z.max l x
  ∧ ∀ y, y ∈ l → y ≤ fold_left Z.max l x.
Proof.
  revert x. induction l as [|a l IH]; intros x; simpl.
  - split_and!; [by left|lia|]. by intros y ?%elem_of_nil.
  - destruct (IH (Z.max x a)) as (Hin & Hle & Hall). split_and!.
    + destruct Hin as [->|Hin]; [|right; by right].
      destruct (Z.max_spec x a) as [[_ ->]|[_ ->]]; [right; by left|by left].
    + lia.
    + intros y [->|Hy]%elem_of_cons; [lia|by apply Hall].
Qed.

Lemma fold_left_min (l : list Z) (x : Z) :
  (fold_left Z.min l x = x ∨ fold_left Z.min l x ∈ l)
  ∧ fold_left Z.min l x ≤ x
  ∧ ∀ y, y ∈ l → fold_left Z.min l x ≤ y.
Proof.
  revert x. induction l as [|a l IH]; intros x; simpl.
  - split_and!; [by left|lia|]. by intros y ?%elem_of_nil.
  - destruct (IH (Z.min x a)) as (Hin & Hle & Hall). split_and!.
    + destruct Hin as [->|Hin]; [|right; by right].
      destruct (Z.min_spec x a) as [[_ ->]|[_ ->]]; [by left|right; by left].
    + lia.
    + intros y [->|Hy]%elem_of_cons; [lia|by apply Hall].
Qed.

Lemma max_item_len_strs (self : list string) (M : Z) :
  is_max_len self M → ListExt.max_item_len (map PStr self) false = Ok M.
Proof.
  intros [(x0 & Hx0 & HM) Hle]. unfold ListExt.max_item_len.
  rewrite len_items_strs. simpl. destruct self as [|x self]; simpl.
  { by apply elem_of_nil in Hx0. }
  f_equal. set (len := λ x : string, Z.of_nat (String.length x)) in *.
  destruct (fold_left_max (map len self) (len x)) as (Hin & Hge & Hall).
  change (Z.of_nat (String.length x)) with (len x).
  revert Hin Hge Hall. generalize (fold_left Z.max (map len self) (len x)).
  intros r Hin Hge Hall. apply Z.le_antisymm.
  - destruct Hin as [->|(y & -> & Hy)%list_elem_of_fmap].
    + apply Hle. by left.
    + apply Hle. by right.
  - rewrite <- HM. apply elem_of_cons in Hx0 as [->|Hx0]; [done|].
    apply Hall. apply list_elem_of_fmap. eauto.
Qed.

(** C6 (as amended): for every non-empty list of strings, [wrap_to_column]
    puts [max(1, (max(width, 4) - max(margin, 2)) // (M + 1))] items in a
    row, [M] being the greatest item length, pads every item with spaces
    after its text to [M + 1] characters, and joins every row into one
    string. *)
Theorem wrap_to_column_layout (self : list string) (width margin : Z)
    (h : gmap ListExt.loc (list Z)) :
  self ≠ [] →
  column_layout pad_right self width margin
    (ListExt.wrap_to_column self width margin h).1.
Proof.
  intros Hne.
  set (len := λ x : string, Z.of_nat (String.length x)).
  assert (∃ M, is_max_len self M) as [M HM].
  { destruct self as [|x self]; [done|].
    destruct (fold_left_max (map len self) (len x)) as (Hin & Hge & Hall).
    exists (fold_left Z.max (map len self) (len x)). split.
    - destruct Hin as [Hin|(y & Hy & Hin)%list_elem_of_fmap].
      + exists x. split; [by left|done].
      + exists y. split; [by right|done].
    - intros y [->|Hy]%elem_of_cons; [done|].
      apply Hall, list_elem_of_fmap. eauto. }
  assert (0 ≤ M) as HM0 by (destruct HM as [(x & _ & <-) _]; lia).
  destruct (split_chunk_chunks self
              (Z.max 1 ((Z.max width 4 - Z.max margin 2) / (M + 1))) h)
    as [Hcat Hch].
  rewrite Z.max_l in Hch by lia.
  exists M, (ListExt.split_chunk self
               (Z.max 1 ((Z.max width 4 - Z.max margin 2) / (M + 1))) h).1.
  split_and!; [done..| |].
  - intros x Hx. unfold pad_right.
    rewrite string_length_append, spaces_length.
    destruct HM as [_ Hle]. specialize (Hle x Hx). lia.
  - unfold ListExt.wrap_to_column. rewrite (max_item_len_strs _ _ HM).
    destruct (Z.ltb_spec 0 (M + 1)); [|lia].
    destruct (ListExt.split_chunk self _ h) as [chunks h'] eqn:Hsplit.
    simpl in *. f_equal. apply map_ext_in. intros row Hrow.
    f_equal. apply map_ext_in. intros x Hx.
    apply ljust_pad_right. destruct HM as [_ Hle].
    assert (Z.of_nat (String.length x) ≤ M); [|lia].
    apply Hle. rewrite <- Hcat. apply list_elem_of_In, in_concat. eauto.
Qed.

Lemma wrap_to_column_layout_witness :
  column_layout pad_right ["apple"; "banana"; "cherry"; "date"] 30 4
    (ListExt.wrap_to_column ["apple"; "banana"; "cherry"; "date"] 30 4 ∅).1.
Proof. apply wrap_to_column_layout. discriminate. Defined.

(** C6 as stated fails: with padding before the text, ["a"; "bcd"] at width
    30 would give ["   a bcd"], and the method returns ["a   bcd "]. *)
Lemma wrap_to_column_not_left_padded :
  (ListExt.wrap_to_column ["a"; "bcd"] 30 4 ∅).1 = Ok ["a   bcd "]
  ∧ ¬ column_layout pad_left ["a"; "bcd"] 30 4
        (ListExt.wrap_to_column ["a"; "bcd"] 30 4 ∅).1.
Proof.
  split; [vm_compute; reflexivity|].
  intros (M & rows & [(x & Hx & HM) Hle] & Hcat & Hch & _ & Hout).
  assert (M = 3) as ->.
  { assert ("bcd" ∈ ["a"; "bcd"]) as Hbcd
      by (apply elem_of_cons; right; apply elem_of_cons; by left).
    pose proof (Hle "bcd" Hbcd) as H3. simpl in H3.
    apply elem_of_cons in Hx as [->|Hx]; [simpl in HM; lia|].
    apply elem_of_cons in Hx as [->|Hx]; [simpl in HM; lia|].
    by apply elem_of_nil in Hx. }
  change (Z.max 1 ((Z.max 30 4 - Z.max 4 2) / (3 + 1))) with 6 in Hch.
  destruct Hch as (body & last & -> & Hbody & Hlast).
  destruct body as [|c body].
  - simpl in Hcat. rewrite app_nil_r in Hcat. subst last.
    vm_compute in Hout. discriminate.
  - apply (f_equal length) in Hcat. rewrite concat_app in Hcat.
    simpl in Hcat. rewrite !length_app in Hcat.
    apply Forall_cons in Hbody as [Hc _]. lia.
Qed.

(** *** [group_by_pair_value] *)

Lemma linked_sym edges a b : linked edges a b → linked edges b a.
Proof. intros (e & He & Ha & Hb). by exists e. Qed.

Lemma connected_sym edges a b : connected edges a b → connected edges b a.
Proof.
  unfold connected. induction 1 as [|a b c Hab _ IH]; [constructor|].
  eapply rtc_r; [exact IH|]. by apply linked_sym.
Qed.

Lemma connected_via edges a b c :
  connected edges a c → connected edges b c → connected edges a b.
Proof.
  intros Ha Hb%connected_sym. unfold connected in *. by etrans.
Qed.

Lemma example_vertex a :
  vertex example_pairs a → a = 1 ∨ a = 2 ∨ a = 3 ∨ a = 4 ∨ a = 5 ∨ a = 6.
Proof.
  intros (e & He & Ha). unfold example_pairs in He.
  repeat (apply elem_of_cons in He as [->|He];
          [repeat (apply elem_of_cons in Ha as [->|Ha]; [lia|]);
           by apply elem_of_nil in Ha|]).
  by apply elem_of_nil in He.
Qed.

Lemma example_linked_root a b :
  linked example_pairs a b → example_root a = example_root b.
Proof.
  intros (e & He & Ha & Hb). unfold example_pairs in He.
  repeat (apply elem_of_cons in He as [->|He];
    [repeat (apply elem_of_cons in Ha as [->|Ha];
       [repeat (apply elem_of_cons in Hb as [->|Hb]; [done|]);
        by apply elem_of_nil in Hb|]);
     by apply elem_of_nil in Ha|]).
  by apply elem_of_nil in He.
Qed.

Lemma example_connected_root a b :
  connected example_pairs a b →
  example_root a = example_root b ∧ (vertex example_pairs a → vertex example_pairs b).
Proof.
  unfold connected. induction 1 as [|a b c Hab _ [IHr IHv]]; [done|].
  split.
  - rewrite <- IHr. by apply example_linked_root.
  - intros _. apply IHv. destruct Hab as (e & He & _ & Hb). by exists e.
Qed.

Lemma example_link (e : list Z) (a b : Z) :
  e ∈ example_pairs → a ∈ e → b ∈ e → connected example_pairs a b.
Proof. intros. apply rtc_once. by exists e. Qed.

Lemma example_to_root a :
  vertex example_pairs a → connected example_pairs a (example_root a).
Proof.
  assert (connected example_pairs 2 1) as H21
    by (apply (example_link [1; 2]); elem_solve).
  assert (connected example_pairs 3 2) as H32
    by (apply (example_link [2; 3]); elem_solve).
  assert (connected example_pairs 4 3) as H43
    by (apply (example_link [4; 3]); elem_solve).
  assert (connected example_pairs 6 5) as H65
    by (apply (example_link [5; 6]); elem_solve).
  unfold connected in *.
  intros Ha. destruct (example_vertex a Ha) as [->|[->|[->|[->|[->| ->]]]]];
    unfold example_root; simpl.
  - constructor.
  - done.
  - by etrans.
  - etrans; [exact H43|]. by etrans.
  - constructor.
  - done.
Qed.

Lemma example_group_vertex g a :
  g ∈ [[1; 2; 3; 4]; [5; 6]] → a ∈ g →
  vertex example_pairs a ∧ g = (if a <=? 4 then [1; 2; 3; 4] else [5; 6]).
Proof.
  intros Hg Ha. elem_cases Hg; elem_cases Ha; (split; [|reflexivity]).
  - exists [1; 2]; split; elem_solve.
  - exists [1; 2]; split; elem_solve.
  - exists [2; 3]; split; elem_solve.
  - exists [4; 3]; split; elem_solve.
  - exists [5; 6]; split; elem_solve.
  - exists [5; 6]; split; elem_solve.
Qed.

Lemma example_components :
  components_of example_pairs [[1; 2; 3; 4]; [5; 6]].
Proof.
  intros a b Ha. split.
  - intros Hab. destruct (example_connected_root a b Hab) as [Hr Hv].
    specialize (Hv Ha).
    destruct (example_vertex a Ha) as [->|[->|[->|[->|[->| ->]]]]];
      destruct (example_vertex b Hv) as [->|[->|[->|[->|[->| ->]]]]];
      try discriminate Hr;
      first [ exists [1; 2; 3; 4]; split_and!; elem_solve
            | exists [5; 6]; split_and!; elem_solve ].
  - intros (g & Hg & Hag & Hbg).
    destruct (example_group_vertex g a Hg Hag) as [_ Hga].
    destruct (example_group_vertex g b Hg Hbg) as [Hb Hgb].
    assert (example_root a = example_root b) as Hr.
    { unfold example_root. rewrite Hga in Hgb.
      by destruct (a <=? 4), (b <=? 4). }
    eapply connected_via; [by apply example_to_root|].
    rewrite Hr. by apply example_to_root.
Qed.

Lemma iter_fixed {B} (f : B → B) (x : B) (n k : nat) :
  f (Nat.iter n f x) = Nat.iter n f x → Nat.iter (n + k) f x = Nat.iter n f x.
Proof.
  intros Hfix. induction k as [|k IH].
  - by rewrite Nat.add_0_r.
  - rewrite Nat.add_succ_r. simpl. by rewrite IH.
Qed.

(** C5: on [[1, 2], [2, 3], [4, 3], [5, 6]] and with the default
    [max_loop], [group_by_pair_value] returns [[1, 2, 3, 4], [5, 6]], the
    connected components of the graph of the pairs; so it does for every
    [max_loop], and on every input the number of rounds is
    [max(max_loop, 3)], at least 3. *)
Theorem group_by_pair_value_example :
  ListExt.group_by_pair_value example_pairs 3 = [[1; 2; 3; 4]; [5; 6]]
  ∧ components_of example_pairs (ListExt.group_by_pair_value example_pairs 3)
  ∧ (∀ max_loop : Z,
       ListExt.group_by_pair_value example_pairs max_loop = [[1; 2; 3; 4]; [5; 6]])
  ∧ (∀ (self : list (list Z)) (max_loop : Z),
       ∃ rounds : nat,
         (3 ≤ rounds)%nat ∧ Z.of_nat rounds = Z.max max_loop 3
         ∧ ListExt.group_by_pair_value self max_loop
           = groupby_keys (Nat.iter rounds ListExt.group_pass self)).
Proof.
  assert (ListExt.group_by_pair_value example_pairs 3 = [[1; 2; 3; 4]; [5; 6]])
    as H3 by (vm_compute; reflexivity).
  split_and!.
  - exact H3.
  - rewrite H3. exact example_components.
  - intros max_loop. unfold ListExt.group_by_pair_value.
    replace (Z.to_nat (Z.max max_loop 3))
      with (3 + (Z.to_nat (Z.max max_loop 3) - 3))%nat by lia.
    rewrite iter_fixed; [exact H3|]. vm_compute. reflexivity.
  - intros self max_loop. exists (Z.to_nat (Z.max max_loop 3)).
    split_and!; [lia|lia|reflexivity].
Qed.

(** *** [analyze] *)

Lemma py_lt_same_type a b r : py_lt a b = Ok r → type_of a = type_of b.
Proof. by destruct a, b. Qed.

Lemma py_lt_raises a b e : py_lt a b = Raise e → e = TypeError.
Proof.
  revert b. induction a as [|z|s|l IH|l IH] using pyval_ind';
    intros [|z'|s'|l'|l']; simpl; try congruence.
  - revert l'. induction IH as [|x l Hx _ IHl]; intros [|y l']; try congruence.
    destruct (py_eqb x y); [apply IHl|apply Hx].
  - revert l'. induction IH as [|x l Hx _ IHl]; intros [|y l']; try congruence.
    destruct (py_eqb x y); [apply IHl|apply Hx].
Qed.

Lemma py_lt_comparison : comparison py_lt.
Proof. split; [apply py_lt_same_type|apply py_lt_raises]. Qed.

Lemma py_gt_comparison : comparison py_gt.
Proof.
  split; unfold py_gt.
  - intros a b r Hr. symmetry. by eapply py_lt_same_type.
  - intros a b e. apply py_lt_raises.
Qed.

Lemma extremum_fold_raise better l e :
  fold_left (extremum_step better) l (Raise e) = Raise e.
Proof. by induction l. Qed.

Lemma extremum_fold better l x :
  comparison better →
  match fold_left (extremum_step better) l (Ok x) with
  | Ok m => type_of m = type_of x ∧ Forall (λ y, type_of y = type_of x) l
  | Raise e => e = TypeError
  end.
Proof.
  intros [Hty Hraise]. revert x. induction l as [|y l IH]; intros x; simpl.
  { done. }
  destruct (better y x) as [c|e] eqn:Hc; simpl.
  - apply Hty in Hc. specialize (IH (if c then y else x)).
    destruct (fold_left _ l _) as [m|e]; [|done].
    destruct IH as [Hm Hall].
    assert (type_of (if c then y else x) = type_of x) as Heq by by destruct c.
    rewrite Heq in Hm, Hall. split; [done|]. by constructor.
  - rewrite extremum_fold_raise. by eapply Hraise.
Qed.

Lemma extremum_mixed better name l a b :
  comparison better → a ∈ l → b ∈ l → type_of a ≠ type_of b →
  extremum better name l = Raise TypeError.
Proof.
  intros Hcmp Ha Hb Hne. destruct l as [|x l]; [by apply elem_of_nil in Ha|].
  unfold extremum. pose proof (extremum_fold better l x Hcmp) as Hfold.
  change (fold_left _ l (Ok x))
    with (fold_left (extremum_step better) l (Ok x)).
  destruct (fold_left _ l _) as [m|e]; [|by subst].
  destruct Hfold as [_ Hall]. rewrite Forall_forall in Hall.
  assert (∀ y, y ∈ x :: l → type_of y = type_of x) as Hsame.
  { intros y [->|Hy]%elem_of_cons; [done|by apply Hall]. }
  rewrite (Hsame a Ha), (Hsame b Hb) in Hne. done.
Qed.

(** Values of two different types make [analyze] fail with its own
    [ValueError]. *)
Lemma analyze_mixed_types {K} (self : list (K * pyval)) kv1 kv2 :
  kv1 ∈ self → kv2 ∈ self → type_of kv1.2 ≠ type_of kv2.2 →
  DictExt.analyze self = Raise (ValueError "Value must be int or float").
Proof.
  intros H1 H2 Hne. unfold DictExt.analyze, py_max.
  rewrite (extremum_mixed py_gt "max" (map snd self) kv1.2 kv2.2); try done.
  - apply py_gt_comparison.
  - apply list_elem_of_fmap. eauto.
  - apply list_elem_of_fmap. eauto.
Qed.

(** On integer values [analyze] returns the greatest and the least value,
    each with all the items that hold it. *)
Lemma extremum_ints (l : list Z) (x : Z) :
  fold_left (extremum_step py_gt) (map PInt l) (Ok (PInt x))
  = Ok (PInt (fold_left Z.max l x))
  ∧ fold_left (extremum_step py_lt) (map PInt l) (Ok (PInt x))
    = Ok (PInt (fold_left Z.min l x)).
Proof.
  revert x. induction l as [|y l IH]; intros x; simpl; [done|].
  assert ((if x <? y then PInt y else PInt x) = PInt (Z.max x y)) as ->.
  { destruct (Z.ltb_spec x y); f_equal; lia. }
  assert ((if y <? x then PInt y else PInt x) = PInt (Z.min x y)) as ->.
  { destruct (Z.ltb_spec y x); f_equal; lia. }
  split; apply IH.
Qed.

Lemma analyze_ints {K} (k0 : K) (z0 : Z) (items : list (K * Z)) :
  let self := map (λ kz, (kz.1, PInt kz.2)) ((k0, z0) :: items) in
  let M := fold_left Z.max (map snd items) z0 in
  let m := fold_left Z.min (map snd items) z0 in
  (∀ kz, kz ∈ (k0, z0) :: items → m ≤ kz.2 ≤ M)
  ∧ DictExt.analyze self
    = Ok (DictExt.MkDictAnalyzeResult K (PInt M) (PInt m)
            (filter (λ kv, py_eqb kv.2 (PInt M) = true) self)
            (filter (λ kv, py_eqb kv.2 (PInt m) = true) self)).
Proof.
  intros self M m. split.
  - destruct (fold_left_max (map snd items) z0) as (_ & HM0 & HM).
    destruct (fold_left_min (map snd items) z0) as (_ & Hm0 & Hm).
    intros kz [->|Hkz]%elem_of_cons; [simpl; unfold M, m; lia|].
    assert (kz.2 ∈ map snd items) as Hin by (apply list_elem_of_fmap; eauto).
    specialize (HM _ Hin). specialize (Hm _ Hin). unfold M, m. lia.
  - destruct (extremum_ints (map snd items) z0) as [Hmax Hmin].
    unfold DictExt.analyze, py_max, py_min, extremum, self. simpl map.
    rewrite !map_map. simpl.
    rewrite <- (map_map snd PInt items).
    change (fold_left _ (map PInt (map snd items)) (Ok (PInt z0)))
      with (fold_left (extremum_step py_gt) (map PInt (map snd items))
              (Ok (PInt z0))) at 1.
    rewrite Hmax. simpl bind.
    change (fold_left _ (map PInt (map snd items)) (Ok (PInt z0)))
      with (fold_left (extremum_step py_lt) (map PInt (map snd items))
              (Ok (PInt z0))).
    rewrite Hmin. reflexivity.
Qed.

(** C1 fails on the code: a mapping whose values are all strings, or that
    holds one value only, is analyzed without any error although no value
    is a number. *)
Theorem analyze_accepts_non_numeric :
  DictExt.analyze [("a", PStr "x"); ("b", PStr "y")]
  = Ok (DictExt.MkDictAnalyzeResult string (PStr "y") (PStr "x")
          [("b", PStr "y")] [("a", PStr "x")])
  ∧ DictExt.analyze [("a", PNone)]
    = Ok (DictExt.MkDictAnalyzeResult string PNone PNone
            [("a", PNone)] [("a", PNone)]).
Proof. split; vm_compute; reflexivity. Qed.

(** *** [aggregate] *)

Section AggregateSpec.
Context {K : Type} `{Countable K}.
Implicit Types (self other_dict merged : gmap K pyval) (k : K).

Lemma aggregate_step_ok self other_dict d f merged k :
  only_type_errors self other_dict d f k →
  DictExt.aggregate_step self other_dict d f merged k
  = Ok (<[k := aggregated self other_dict d f k]> merged).
Proof.
  intros Honly. unfold DictExt.aggregate_step, aggregated.
  unfold only_type_errors in Honly.
  destruct (f _ _) as [v|e]; simpl; [done|]. by rewrite (Honly e eq_refl).
Qed.

Lemma aggregate_loop_ok self other_dict d f (ks : list K) :
  (∀ k, k ∈ ks → only_type_errors self other_dict d f k) →
  ∀ merged, ∃ m,
    fold_left (λ acc k,
      let* merged_output := acc in
      DictExt.aggregate_step self other_dict d f merged_output k) ks (Ok merged)
    = Ok m
    ∧ (∀ k, k ∈ ks → m !! k = Some (aggregated self other_dict d f k))
    ∧ (∀ k, k ∉ ks → m !! k = merged !! k).
Proof.
  induction ks as [|k0 ks IH]; intros Honly merged; simpl.
  - exists merged. split_and!; [done| |done]. by intros k ?%elem_of_nil.
  - rewrite aggregate_step_ok by (apply Honly; by left).
    destruct (IH (λ k Hk, Honly k (list_elem_of_further _ _ _ Hk))
                (<[k0 := aggregated self other_dict d f k0]> merged))
      as (m & Hm & Hin & Hout).
    exists m. split_and!; [done| |].
    + intros k Hk. destruct (decide (k ∈ ks)) as [Hks|Hks]; [by apply Hin|].
      apply elem_of_cons in Hk as [->|Hk]; [|done].
      by rewrite Hout, lookup_insert_eq.
    + intros k Hk. apply not_elem_of_cons in Hk as [Hne Hk].
      by rewrite Hout, lookup_insert_ne.
Qed.

(** C3 (as amended): when the operator, at the values of every key of the
    union, returns or raises a type error, [aggregate] returns a mapping
    whose keys are exactly those of the union, whose value at a key [k] is
    [f(a.get(k, d), b.get(k, d))], or the list
    [[a.get(k, d), b.get(k, d)]] where that application raises the type
    error. *)
Theorem aggregate_union self other_dict (default_value : pyval)
    (operator_func : pyval → pyval → result pyval) :
  (∀ k, k ∈ dom self ∪ dom other_dict →
        only_type_errors self other_dict default_value operator_func k) →
  ∃ m, DictExt.aggregate self other_dict default_value operator_func = Ok m
    ∧ dom m = dom self ∪ dom other_dict
    ∧ ∀ k, k ∈ dom self ∪ dom other_dict →
        m !! k = Some (aggregated self other_dict default_value operator_func k).
Proof.
  intros Honly. unfold DictExt.aggregate, DictExt.aggregate_loop.
  destruct (aggregate_loop_ok self other_dict default_value operator_func
              (elements (dom self ∪ dom other_dict))
              (λ k Hk, Honly k (proj1 (elem_of_elements _ _) Hk)) ∅)
    as (m & Hm & Hin & Hout).
  exists m. split_and!; [done| |].
  - apply set_eq. intros k. rewrite elem_of_dom.
    destruct (decide (k ∈ dom self ∪ dom other_dict)) as [Hk|Hk].
    + rewrite Hin by by apply elem_of_elements. split; [done|eauto].
    + rewrite Hout by by rewrite elem_of_elements.
      rewrite lookup_empty. split; [by intros [? ?]|done].
  - intros k Hk. apply Hin. by apply elem_of_elements.
Qed.
End AggregateSpec.

Lemma py_add_raises x y e : py_add x y = Raise e → e = TypeError.
Proof. destruct x, y; simpl; congruence. Qed.

Lemma aggregate_union_witness :
  let a : gmap string pyval := {[ "test" := PInt 5; "test2" := PInt 9 ]} in
  let b : gmap string pyval := {[ "test1" := PInt 10; "test2" := PStr "1" ]} in
  ∃ m, DictExt.aggregate a b (PInt 0) py_add = Ok m
    ∧ dom m = dom a ∪ dom b
    ∧ ∀ k, k ∈ dom a ∪ dom b → m !! k = Some (aggregated a b (PInt 0) py_add k).
Proof.
  intros a b. apply (aggregate_union a b (PInt 0) py_add).
  intros k _ e. apply py_add_raises.
Defined.

(** *** The stable sort *)

Section SortedSpec.
Context {A : Type} (ltb : A → A → bool).

Lemma insert_sorted_perm (x : A) (l : list A) : insert_sorted ltb x l ≡ₚ x :: l.
Proof.
  induction l as [|y l IH]; simpl; [done|].
  destruct (ltb y x); [|done]. rewrite IH. apply Permutation_swap.
Qed.

Lemma sorted_asc_perm (l : list A) : sorted_asc ltb l ≡ₚ l.
Proof.
  induction l as [|x l IH]; simpl; [done|].
  by rewrite insert_sorted_perm, IH.
Qed.

Lemma insert_sorted_Sorted (x : A) (l : list A) :
  (∀ a b, ltb a b = true → ltb b a = false) →
  Sorted (in_order ltb) l → Sorted (in_order ltb) (insert_sorted ltb x l).
Proof.
  intros Hasym. induction l as [|y l IH]; intros Hl; simpl.
  - by repeat constructor.
  - apply Sorted_inv in Hl as [Hl Hy].
    destruct (ltb y x) eqn:Hyx.
    + constructor; [by apply IH|].
      destruct l as [|z l]; simpl.
      * constructor. by apply Hasym.
      * apply HdRel_inv in Hy.
        destruct (ltb z x); constructor; [done|by apply Hasym].
    + constructor; [by constructor|]. by constructor.
Qed.

Lemma sorted_asc_Sorted (l : list A) :
  (∀ a b, ltb a b = true → ltb b a = false) →
  Sorted (in_order ltb) (sorted_asc ltb l).
Proof.
  intros Hasym. induction l as [|x l IH]; simpl; [constructor|].
  by apply insert_sorted_Sorted.
Qed.

(** A list already in order is left as it is. *)
Lemma sorted_asc_fixed (l : list A) :
  Sorted (in_order ltb) l → sorted_asc ltb l = l.
Proof.
  induction l as [|x l IH]; intros Hl; simpl; [done|].
  apply Sorted_inv in Hl as [Hl Hx]. rewrite (IH Hl).
  destruct l as [|y l]; simpl; [done|].
  apply HdRel_inv in Hx. unfold in_order in Hx. by rewrite Hx.
Qed.
End SortedSpec.

(** *** [sorts] *)

Section SortsSpec.
Context {A T : Type} `{Countable T} (type_of : A → T) (str : A → string).

Abbreviation add_weight := (ListExt.add_type_weight type_of).
Abbreviation weights := (ListExt.type_weights_of type_of).
Abbreviation key := (ListExt.sort_key type_of str).
Abbreviation lt_by := (key_lt type_of str).

Lemma ranked_empty : ranked (∅ : gmap T nat).
Proof. split; intros *; by rewrite lookup_empty. Qed.

Lemma ranked_add tw x : ranked tw → ranked (add_weight tw x).
Proof.
  intros [Hlt Hinj]. unfold ListExt.add_type_weight.
  destruct (tw !! type_of x) eqn:Hx; [done|]. split.
  - intros t n. rewrite map_size_insert_None by done.
    rewrite lookup_insert. case_decide; [intros [= <-]; lia|].
    intros Hn%Hlt. lia.
  - intros t1 t2 n. rewrite !lookup_insert.
    repeat case_decide; subst; try done.
    + intros [= <-] Hn%Hlt. lia.
    + intros Hn%Hlt [= <-]. lia.
    + apply Hinj.
Qed.

Lemma add_weight_size tw x : (size tw ≤ size (add_weight tw x))%nat.
Proof.
  unfold ListExt.add_type_weight. destruct (tw !! type_of x) eqn:Hx; [done|].
  rewrite map_size_insert_None by done. lia.
Qed.

Lemma add_weight_lookup tw x t n :
  tw !! t = Some n → add_weight tw x !! t = Some n.
Proof.
  intros Ht. unfold ListExt.add_type_weight.
  destruct (tw !! type_of x) eqn:Hx; [done|].
  rewrite lookup_insert_ne; [done|]. congruence.
Qed.

Lemma add_weight_new tw x t n :
  tw !! t = None → add_weight tw x !! t = Some n → (size tw ≤ n)%nat.
Proof.
  intros Ht. unfold ListExt.add_type_weight.
  destruct (tw !! type_of x) eqn:Hx; [congruence|].
  rewrite lookup_insert. case_decide; [intros [= <-]; lia|congruence].
Qed.

Lemma weights_fold_ranked l tw : ranked tw → ranked (fold_left add_weight l tw).
Proof.
  revert tw. induction l as [|x l IH]; intros tw Htw; simpl; [done|].
  by apply IH, ranked_add.
Qed.

Lemma weights_fold_lookup l tw t n :
  tw !! t = Some n → fold_left add_weight l tw !! t = Some n.
Proof.
  revert tw. induction l as [|x l IH]; intros tw Ht; simpl; [done|].
  by apply IH, add_weight_lookup.
Qed.

Lemma weights_fold_new l tw t n :
  tw !! t = None → fold_left add_weight l tw !! t = Some n → (size tw ≤ n)%nat.
Proof.
  revert tw. induction l as [|x l IH]; intros tw Ht; simpl; [congruence|].
  intros Hn. destruct (add_weight tw x !! t) as [n'|] eqn:Hadd.
  - rewrite (weights_fold_lookup l _ t n' Hadd) in Hn.
    injection Hn as <-. by eapply add_weight_new.
  - specialize (IH _ Hadd Hn). pose proof (add_weight_size tw x). lia.
Qed.

Lemma weights_fold_dom l tw t :
  is_Some (fold_left add_weight l tw !! t)
  ↔ is_Some (tw !! t) ∨ ∃ x, x ∈ l ∧ type_of x = t.
Proof.
  revert tw. induction l as [|x l IH]; intros tw; simpl.
  - split; [by left|]. intros [?|(x & ?%elem_of_nil & _)]; done.
  - rewrite IH. unfold ListExt.add_type_weight.
    destruct (tw !! type_of x) eqn:Hx.
    + split.
      * intros [?|(y & Hy & <-)]; [by left|]. right. exists y. split; [by right|done].
      * intros [?|(y & [->|Hy]%elem_of_cons & <-)]; [by left| |].
        -- left. by rewrite Hx.
        -- right. by exists y.
    + rewrite lookup_insert. split.
      * intros [Ht|(y & Hy & <-)].
        -- case_decide as Heq; [|by left]. right. exists x. split; [by left|done].
        -- right. exists y. split; [by right|done].
      * intros [Ht|(y & [->|Hy]%elem_of_cons & <-)].
        -- left. case_decide; [done|]. done.
        -- left. by rewrite decide_True.
        -- right. by exists y.
Qed.

Lemma weights_dom l x : x ∈ l → is_Some (weights l !! type_of x).
Proof.
  intros Hx. apply weights_fold_dom. right. by exists x.
Qed.

(** The rank of the type of an item is the number of types seen before
    that type first occurs: for an item at the end of a prefix, it is
    below the number of types of the prefix, and every type that the
    prefix lacks is ranked after it. *)
Lemma weights_prefix_rank (p q : list A) (a b : A) :
  b ∈ q → (∀ c, c ∈ p ++ [a] → type_of c ≠ type_of b) →
  (weights (p ++ a :: q) !!! type_of a < weights (p ++ a :: q) !!! type_of b)%nat.
Proof.
  intros Hb Hfresh.
  replace (p ++ a :: q) with ((p ++ [a]) ++ q) by by rewrite <- app_assoc.
  unfold ListExt.type_weights_of. rewrite fold_left_app.
  set (mid := fold_left add_weight (p ++ [a]) ∅).
  assert (ranked mid) as [Hlt _] by apply weights_fold_ranked, ranked_empty.
  destruct (weights_dom (p ++ [a]) a) as [na Hna].
  { apply elem_of_app. right. by left. }
  fold mid in Hna.
  assert (mid !! type_of b = None) as Hnb.
  { apply eq_None_not_Some. intros Hsome.
    apply weights_fold_dom in Hsome as [Hsome|(c & Hc & Hcb)].
    - rewrite lookup_empty in Hsome. by destruct Hsome.
    - by apply (Hfresh c). }
  assert (is_Some (fold_left add_weight q mid !! type_of b)) as [nb Hb'].
  { apply weights_fold_dom. right. by exists b. }
  rewrite (lookup_total_correct _ _ _ (weights_fold_lookup q mid _ _ Hna)).
  rewrite (lookup_total_correct _ _ _ Hb').
  pose proof (weights_fold_new q mid _ _ Hnb Hb').
  specialize (Hlt _ _ Hna). lia.
Qed.

Lemma weights_inj l x y :
  x ∈ l → y ∈ l → weights l !!! type_of x = weights l !!! type_of y →
  type_of x = type_of y.
Proof.
  intros [nx Hx]%weights_dom [ny Hy]%weights_dom.
  rewrite (lookup_total_correct _ _ _ Hx), (lookup_total_correct _ _ _ Hy).
  intros ->.
  assert (ranked (weights l)) as [_ Hinj] by apply weights_fold_ranked, ranked_empty.
  by eapply Hinj.
Qed.

Lemma string_ltb_asym (s1 s2 : string) :
  String.ltb s1 s2 = true → String.ltb s2 s1 = false.
Proof.
  unfold String.ltb. rewrite (String.compare_antisym s2 s1).
  by destruct (String.compare s1 s2).
Qed.

Lemma lt_by_asym tw a b : lt_by tw a b = true → lt_by tw b a = false.
Proof.
  unfold key_lt, ListExt.key_ltb. simpl.
  intros [Hlt|[Heq Hstr]%andb_true_iff]%orb_true_iff.
  - apply Nat.ltb_lt in Hlt. apply orb_false_iff. split.
    + apply Nat.ltb_ge. lia.
    + apply andb_false_iff. left. apply Nat.eqb_neq. lia.
  - apply Nat.eqb_eq in Heq. rewrite Heq, Nat.ltb_irrefl, Nat.eqb_refl. simpl.
    by apply string_ltb_asym.
Qed.

Lemma in_order_rank tw a b :
  in_order (lt_by tw) a b → (tw !!! type_of a ≤ tw !!! type_of b)%nat.
Proof.
  unfold in_order, key_lt, ListExt.key_ltb. simpl.
  intros [Hlt _]%orb_false_iff. by apply Nat.ltb_ge in Hlt.
Qed.

Lemma in_order_same_type tw tw' a b :
  type_of a = type_of b → in_order (lt_by tw) a b → in_order (lt_by tw') a b.
Proof.
  unfold in_order, key_lt, ListExt.key_ltb. simpl. intros ->.
  by rewrite !Nat.ltb_irrefl, !Nat.eqb_refl.
Qed.

Lemma in_order_rank_lt tw a b :
  (tw !!! type_of a < tw !!! type_of b)%nat → in_order (lt_by tw) a b.
Proof.
  unfold in_order, key_lt, ListExt.key_ltb. simpl. intros Hlt.
  apply orb_false_iff. split.
  - apply Nat.ltb_ge. lia.
  - apply andb_false_iff. left. apply Nat.eqb_neq. lia.
Qed.

Lemma Sorted_middle (R : A → A → Prop) p a b q :
  Sorted R (p ++ a :: b :: q) → R a b.
Proof.
  induction p as [|c p IH]; simpl; intros [Hs Hhd]%Sorted_inv.
  - by apply HdRel_inv in Hhd.
  - by apply IH.
Qed.

Lemma Sorted_ranks_before tw p a r :
  Sorted (in_order (lt_by tw)) (p ++ a :: r) →
  Forall (λ c, (tw !!! type_of c ≤ tw !!! type_of a)%nat) p.
Proof.
  intros Hs.
  assert (StronglySorted
            (λ c d, (tw !!! type_of c ≤ tw !!! type_of d)%nat) (p ++ a :: r))
    as Hss.
  { induction Hs as [|c l Hl IH Hhd]; constructor; [done|].
    destruct Hhd as [|d l Hcd]; [constructor|].
    apply in_order_rank in Hcd. apply StronglySorted_inv in IH as [_ Hall].
    constructor; [done|]. eapply Forall_impl; [exact Hall|]. simpl. lia. }
  clear Hs. induction p as [|c p IH]; [constructor|].
  simpl in Hss. apply StronglySorted_inv in Hss as [Hss Hall].
  constructor; [|by apply IH].
  apply Forall_app in Hall as [_ Hall]. by apply Forall_cons in Hall as [? _].
Qed.

(** A list in the order of some ranks that tell its types apart is also in
    the order of the ranks computed from the list itself. *)
Lemma in_own_order tw o :
  (∀ x y, x ∈ o → y ∈ o →
          tw !!! type_of x = tw !!! type_of y → type_of x = type_of y) →
  Sorted (in_order (lt_by tw)) o →
  Sorted (in_order (lt_by (weights o))) o.
Proof.
  intros Hinj Hs.
  assert (∀ rest p, o = p ++ rest → Sorted (in_order (lt_by (weights o))) rest)
    as Hsuffix; [|by apply (Hsuffix o [])].
  induction rest as [|a rest IH]; intros p Ho; [constructor|].
  constructor.
  { apply (IH (p ++ [a])). by rewrite <- app_assoc. }
  destruct rest as [|b q]; constructor.
  assert (in_order (lt_by tw) a b) as Hab.
  { rewrite Ho in Hs. by eapply Sorted_middle. }
  destruct (decide (type_of a = type_of b)) as [Heq|Hne].
  { by eapply in_order_same_type. }
  assert (a ∈ o) as Ha.
  { rewrite Ho. apply elem_of_app. right. by left. }
  assert (b ∈ o) as Hb.
  { rewrite Ho. apply elem_of_app. right. right. by left. }
  assert (tw !!! type_of a < tw !!! type_of b)%nat as Hlt.
  { pose proof (in_order_rank _ _ _ Hab).
    destruct (decide (tw !!! type_of a = tw !!! type_of b)) as [Heq|]; [|lia].
    by apply Hinj in Heq. }
  apply in_order_rank_lt. rewrite Ho. apply weights_prefix_rank; [by left|].
  intros c [Hc| ->%list_elem_of_singleton]%elem_of_app; [|done].
  rewrite Ho in Hs. apply Sorted_ranks_before in Hs.
  rewrite Forall_forall in Hs. specialize (Hs c Hc).
  intros Heq. rewrite Heq in Hs. lia.
Qed.

(** C2: [sorts] is idempotent, [x.sorts().sorts() == x.sorts()]. Its result
    holds the items of [x] in the order of the keys
    [(type_weights[type(item)], str(item))], where a type that first occurs
    after another one in [x] has the greater rank. *)
Theorem sorts_idempotent (x : list A) :
  ListExt.sorts type_of str (ListExt.sorts type_of str x false) false
  = ListExt.sorts type_of str x false
  ∧ ListExt.sorts type_of str x false ≡ₚ x
  ∧ Sorted (λ a b, ListExt.key_ltb (key (weights x) b) (key (weights x) a) = false)
      (ListExt.sorts type_of str x false)
  ∧ (∀ p a q b, x = p ++ a :: q → b ∈ q →
       (∀ c, c ∈ p ++ [a] → type_of c ≠ type_of b) →
       (weights x !!! type_of a < weights x !!! type_of b)%nat).
Proof.
  unfold ListExt.sorts, sorted.
  set (o := sorted_asc (lt_by (weights x)) x).
  assert (o ≡ₚ x) as Hperm by apply sorted_asc_perm.
  assert (Sorted (in_order (lt_by (weights x))) o) as Hsorted
    by apply sorted_asc_Sorted, lt_by_asym.
  split_and!; [|done|done|].
  - apply (sorted_asc_fixed (lt_by (weights o))).
    apply (in_own_order (weights x)); [|done].
    intros a b Ha Hb. apply weights_inj; by rewrite <- Hperm.
  - intros p a q b -> Hb Hfresh. by apply weights_prefix_rank.
Qed.
End SortsSpec.

(** *** [freq] with [num_of_first_char] *)

Lemma min_int_str_len (data : list pyval) (m : Z) :
  is_min_len data m →
  min_int (map (λ x, Z.of_nat (String.length (py_str x))) data) = Ok m.
Proof.
  intros [(x0 & Hx0 & Hm) Hle]. destruct data as [|x data]; simpl.
  { by apply elem_of_nil in Hx0. }
  f_equal. change (λ x, Z.of_nat (String.length (py_str x))) with str_len.
  change (Z.of_nat (String.length (py_str x))) with (str_len x).
  destruct (fold_left_min (map str_len data) (str_len x)) as (Hin & Hge & Hall).
  revert Hin Hge Hall. generalize (fold_left Z.min (map str_len data) (str_len x)).
  intros r Hin Hge Hall. apply Z.le_antisymm.
  - rewrite <- Hm. apply elem_of_cons in Hx0 as [->|Hx0]; [done|].
    apply Hall. apply list_elem_of_fmap. eauto.
  - destruct Hin as [->|(y & -> & Hy)%list_elem_of_fmap].
    + apply Hle. by left.
    + apply Hle. by right.
Qed.

Lemma is_min_len_perm (l1 l2 : list pyval) (m : Z) :
  l1 ≡ₚ l2 → is_min_len l1 m → is_min_len l2 m.
Proof.
  intros Hperm [(x & Hx & Hm) Hle]. split.
  - exists x. by rewrite <- Hperm.
  - intros y Hy. apply Hle. by rewrite Hperm.
Qed.

Lemma py_eqb_str k s : py_eqb k (PStr s) = true ↔ k = PStr s.
Proof.
  destruct k; simpl; try (split; [discriminate|congruence]).
  rewrite String.eqb_eq. split; congruence.
Qed.

Lemma counter_add_counted c s t :
  counted (counter_add (PStr s) c) t
  = if decide (s = t) then Some (default 0 (counted c s) + 1) else counted c t.
Proof.
  induction c as [|[k n] c IH]; simpl.
  - destruct (decide (s = t)) as [->|Hne].
    + by rewrite String.eqb_refl.
    + by apply String.eqb_neq in Hne as ->.
  - destruct (py_eqb k (PStr s)) eqn:Hks; simpl.
    + apply py_eqb_str in Hks as ->. simpl.
      destruct (decide (s = t)) as [->|Hne].
      * by rewrite String.eqb_refl.
      * by apply String.eqb_neq in Hne as ->.
    + rewrite IH. destruct (decide (s = t)) as [->|Hne]; [by rewrite Hks|done].
Qed.

Lemma counter_add_keys c s :
  map fst (counter_add (PStr s) c)
  = match counted c s with
    | Some _ => map fst c
    | None => map fst c ++ [PStr s]
    end.
Proof.
  induction c as [|[k n] c IH]; simpl; [done|].
  destruct (py_eqb k (PStr s)) eqn:Hks; simpl; [done|].
  rewrite IH. by destruct (counted c s).
Qed.

Lemma counted_None c s : counted c s = None → PStr s ∉ map fst c.
Proof.
  induction c as [|[k n] c IH]; simpl; [by intros _ ?%elem_of_nil|].
  destruct (py_eqb k (PStr s)) eqn:Hks; [done|].
  intros Hc [Heq|Hin]%elem_of_cons; [|by apply IH].
  simpl in Heq. subst k. simpl in Hks. by rewrite String.eqb_refl in Hks.
Qed.

Lemma counted_elem c s n :
  NoDup (map fst c) → (PStr s, n) ∈ c ↔ counted c s = Some n.
Proof.
  induction c as [|[k m] c IH]; simpl; intros Hnd.
  - split; [by intros ?%elem_of_nil|done].
  - apply NoDup_cons in Hnd as [Hk Hnd].
    destruct (py_eqb k (PStr s)) eqn:Hks.
    + apply py_eqb_str in Hks as ->. split.
      * intros [[= ->]|Hin]%elem_of_cons; [done|].
        exfalso. apply Hk. apply list_elem_of_fmap. by exists (PStr s, n).
      * intros [= ->]. by left.
    + rewrite <- (IH Hnd). split.
      * intros [[= <- <-]|Hin]%elem_of_cons; [|done].
        simpl in Hks. by rewrite String.eqb_refl in Hks.
      * intros Hin. by right.
Qed.

Lemma counter_fold_keys ss c :
  NoDup (map fst c) → Forall (λ k, ∃ s, k = PStr s) (map fst c) →
  NoDup (map fst (counter_fold ss c))
  ∧ Forall (λ k, ∃ s, k = PStr s) (map fst (counter_fold ss c)).
Proof.
  unfold counter_fold. revert c.
  induction ss as [|s ss IH]; intros c Hnd Hstr; simpl; [done|].
  apply IH; rewrite counter_add_keys; destruct (counted c s) eqn:Hs; try done.
  - apply NoDup_app. split_and!; [done| |apply NoDup_singleton].
    intros k Hk ->%list_elem_of_singleton. by apply counted_None in Hs.
  - apply Forall_app. split; [done|]. constructor; [by exists s|constructor].
Qed.

Lemma counter_fold_counted ss c t :
  default 0 (counted (counter_fold ss c) t)
  = default 0 (counted c t) + occurrences t ss
  ∧ (is_Some (counted (counter_fold ss c) t) ↔ is_Some (counted c t) ∨ t ∈ ss).
Proof.
  unfold counter_fold, occurrences. revert c.
  induction ss as [|s ss IH]; intros c; simpl.
  - split; [lia|]. split; [by left|]. by intros [?|?%elem_of_nil].
  - destruct (IH (counter_add (PStr s) c)) as [Hn Hsome].
    rewrite Hn, Hsome, counter_add_counted, filter_cons.
    destruct (decide (s = t)) as [->|Hne]; simpl.
    + split; [lia|]. split; [intros _; right; by left|eauto].
    + split; [done|]. split.
      * intros [?|?]; [by left|right; by right].
      * intros [?|[->|?]%elem_of_cons]; [by left|done|by right].
Qed.

Lemma occurrences_pos s ss : s ∈ ss ↔ 0 < occurrences s ss.
Proof.
  unfold occurrences. split.
  - intros Hin. assert (s ∈ filter (λ t, t = s) ss) as Hf
      by by apply list_elem_of_filter.
    destruct (filter _ ss); [by apply elem_of_nil in Hf|simpl; lia].
  - intros Hpos. destruct (filter (λ t, t = s) ss) as [|t l] eqn:Hf;
      [simpl in Hpos; lia|].
    assert (t ∈ filter (λ t, t = s) ss) as Ht by (rewrite Hf; by left).
    by apply list_elem_of_filter in Ht as [-> ?].
Qed.

Lemma counter_counts (ss : list string) : counts_of ss (counter_fold ss []).
Proof.
  destruct (counter_fold_keys ss []) as [Hnd Hstr]; [constructor..|].
  split; [done|]. intros k n.
  pose proof (λ s, counter_fold_counted ss [] s) as Hcount. simpl in Hcount.
  split.
  - intros Hin. rewrite Forall_forall in Hstr.
    destruct (Hstr k) as [s ->]; [apply list_elem_of_fmap; by exists (k, n)|].
    apply counted_elem in Hin; [|done].
    destruct (Hcount s) as [Hn Hsome]. rewrite Hin in Hn, Hsome. simpl in Hn.
    assert (n = occurrences s ss) as -> by lia.
    exists s. split_and!; [done..|].
    apply occurrences_pos. destruct Hsome as [[[? [=]]|?] _]; eauto.
  - intros (s & -> & -> & Hpos). apply counted_elem; [done|].
    destruct (Hcount s) as [Hn Hsome].
    destruct Hsome as [_ [n Hn']]; [right; by apply occurrences_pos|].
    rewrite Hn' in Hn |- *. simpl in Hn. f_equal. lia.
Qed.

(** Where no comparison raises, [sorted] is the stable sort. *)
Lemma insert_sorted_r_pure {A} (lt : A → A → result bool) (ltb : A → A → bool)
    (x : A) (s : list A) :
  (∀ y, y ∈ s → lt y x = Ok (ltb y x)) →
  insert_sorted_r lt x s = Ok (insert_sorted ltb x s).
Proof.
  induction s as [|y s IH]; intros Hlt; simpl; [done|].
  rewrite Hlt by by left. simpl. destruct (ltb y x); [|done].
  rewrite IH; [done|]. intros z Hz. apply Hlt. by right.
Qed.

Lemma sorted_r_pure {A} (lt : A → A → result bool) (ltb : A → A → bool)
    (l : list A) :
  (∀ a b, a ∈ l → b ∈ l → lt a b = Ok (ltb a b)) →
  sorted_r lt l = Ok (sorted_asc ltb l).
Proof.
  induction l as [|x l IH]; intros Hlt; simpl; [done|].
  rewrite IH by (intros a b Ha Hb; apply Hlt; by right). simpl.
  apply insert_sorted_r_pure. intros y Hy.
  apply Hlt; [right|by left]. by rewrite <- (sorted_asc_perm ltb l).
Qed.

Lemma item_lt_str (a b : pyval * Z) :
  (∃ s, a.1 = PStr s) → (∃ t, b.1 = PStr t) →
  ListExt.item_lt a b = Ok (item_ltb a b).
Proof.
  intros [s Hs] [t Ht]. unfold ListExt.item_lt, item_ltb.
  rewrite Hs, Ht. simpl. by destruct (String.eqb s t).
Qed.

Lemma Counter_strs (ss : list string) :
  Counter (map PStr ss) = Ok (counter_fold ss []).
Proof.
  unfold Counter, counter_fold.
  assert (forallb hashable (map PStr ss) = true) as ->; [|done].
  by induction ss.
Qed.

Lemma str_prefix_first_chars (c : Z) (x : pyval) :
  0 ≤ c ≤ str_len x → str_prefix (py_str x) c = first_chars c x.
Proof.
  intros Hc. unfold str_prefix, first_chars. by rewrite slice_index_in.
Qed.

Lemma occurrences_perm s (l1 l2 : list string) :
  l1 ≡ₚ l2 → occurrences s l1 = occurrences s l2.
Proof. intros Hperm. unfold occurrences. by rewrite Hperm. Qed.

Lemma counts_of_perm (l1 l2 : list string) (d1 d2 : list (pyval * Z)) :
  l1 ≡ₚ l2 → d1 ≡ₚ d2 → counts_of l1 d1 → counts_of l2 d2.
Proof.
  intros Hl Hd [Hnd Hin]. split.
  - by rewrite <- Hd.
  - intros k n. rewrite <- Hd, Hin.
    by setoid_rewrite (occurrences_perm _ _ _ Hl).
Qed.

Lemma freq_data_perm (self : list pyval) (sort : bool) :
  (if sort then ListExt.sorts_py self false else self) ≡ₚ self.
Proof.
  destruct sort; [|done]. unfold ListExt.sorts_py, ListExt.sorts, sorted.
  apply sorted_asc_perm.
Qed.

Lemma is_min_len_exists (self : list pyval) :
  self ≠ [] → ∃ m, is_min_len self m.
Proof.
  destruct self as [|x self]; [done|]. intros _.
  destruct (fold_left_min (map str_len self) (str_len x)) as (Hin & Hge & Hall).
  exists (fold_left Z.min (map str_len self) (str_len x)). split.
  - destruct Hin as [Hin|(y & Hy & Hin)%list_elem_of_fmap].
    + exists x. split; [by left|done].
    + exists y. split; [by right|done].
  - intros y [->|Hy]%elem_of_cons; [done|].
    apply Hall, list_elem_of_fmap. eauto.
Qed.

(** The two cases of [num_of_first_char]: in [range(1, m)] the first [c]
    characters of the [str] of every item are counted, and any other [c]
    is ignored. *)
Lemma freq_first_char_cases (self : list pyval) (sort : bool) (c : Z)
    (appear_increment : bool) (m : Z) :
  is_min_len self m →
  (1 ≤ c < m →
     ∃ d, ListExt.freq self sort (Some c) appear_increment
          = Ok (freq_output appear_increment d)
        ∧ counts_of (map (first_chars c) self) d)
  ∧ (¬ (1 ≤ c < m) →
     ListExt.freq self sort (Some c) appear_increment
     = ListExt.freq self sort None appear_increment).
Proof.
  intros Hmin. unfold ListExt.freq.
  pose proof (freq_data_perm self sort) as Hperm.
  set (data := if sort then ListExt.sorts_py self false else self) in *.
  assert (is_min_len data m) as Hdata by by eapply is_min_len_perm.
  rewrite (min_int_str_len data m Hdata). simpl bind. split.
  - intros Hc.
    assert (in_range c 1 m = true) as ->.
    { unfold in_range. apply andb_true_iff. split; [apply Z.leb_le|apply Z.ltb_lt]; lia. }
    simpl negb. cbv iota.
    assert (map (λ x, PStr (str_prefix (py_str x) c)) data
            = map PStr (map (first_chars c) data)) as ->.
    { rewrite map_map. apply map_ext_in. intros x Hx%list_elem_of_In. f_equal.
      apply str_prefix_first_chars. destruct Hdata as [_ Hle].
      specialize (Hle x Hx). lia. }
    rewrite Counter_strs. simpl bind.
    set (ss := map (first_chars c) data).
    destruct (counter_fold_keys ss []) as [Hnd Hstr]; [constructor..|].
    rewrite Forall_forall in Hstr.
    rewrite (sorted_r_pure ListExt.item_lt item_ltb).
    2:{ intros a b Ha Hb. apply item_lt_str; apply Hstr, list_elem_of_fmap; eauto. }
    simpl. exists (sorted_asc item_ltb (counter_fold ss [])). split.
    + by destruct appear_increment.
    + apply (counts_of_perm ss _ (counter_fold ss [])).
      * unfold ss. by rewrite Hperm.
      * by rewrite sorted_asc_perm.
      * apply counter_counts.
  - intros Hc.
    assert (in_range c 1 m = false) as ->; [|done].
    unfold in_range. apply andb_false_iff.
    destruct (Z.leb_spec 1 c); [right; apply Z.ltb_ge; lia|by left].
Qed.

(** *** An operator that raises another error *)

Section AggregateFailure.
Context {K : Type} `{Countable K}.

Lemma aggregate_fold_raise (self other_dict : gmap K pyval) d f (ks : list K) e :
  fold_left (λ acc k,
    let* merged_output := acc in
    DictExt.aggregate_step self other_dict d f merged_output k) ks (Raise e)
  = Raise e.
Proof. by induction ks. Qed.

(** An error of the operator other than [TypeError], at any key of the
    union, is not caught: the whole call raises. *)
Lemma aggregate_other_error (self other_dict : gmap K pyval) d f k e :
  k ∈ dom self ∪ dom other_dict →
  f (default d (self !! k)) (default d (other_dict !! k)) = Raise e →
  e ≠ TypeError →
  ∃ e', DictExt.aggregate self other_dict d f = Raise e'.
Proof.
  intros Hk Hf He. unfold DictExt.aggregate, DictExt.aggregate_loop.
  apply elem_of_elements in Hk. revert Hk.
  generalize (elements (dom self ∪ dom other_dict)).
  generalize (∅ : gmap K pyval).
  intros merged ks. revert merged.
  induction ks as [|k0 ks IH]; intros merged Hk; [by apply elem_of_nil in Hk|].
  simpl. destruct (DictExt.aggregate_step self other_dict d f merged k0)
    as [merged'|e'] eqn:Hstep.
  - apply elem_of_cons in Hk as [->|Hk]; [|by apply IH].
    unfold DictExt.aggregate_step in Hstep. rewrite Hf in Hstep.
    by destruct e.
  - exists e'. apply aggregate_fold_raise.
Qed.
End AggregateFailure.

(** C3 as stated fails for an operator that raises another error: with
    [operator.floordiv] and the default [0], a key that [other_dict] lacks
    divides by zero, and [aggregate] raises instead of returning a mapping
    over the union of the keys. *)
Lemma aggregate_floordiv_raises :
  let a : gmap string pyval := {[ "a" := PInt 1 ]} in
  let b : gmap string pyval := ∅ in
  DictExt.aggregate a b (PInt 0) py_floordiv = Raise ZeroDivisionError
  ∧ ¬ ∃ m, DictExt.aggregate a b (PInt 0) py_floordiv = Ok m
         ∧ dom m = dom a ∪ dom b
         ∧ ∀ k, k ∈ dom a ∪ dom b →
             m !! k = Some (aggregated a b (PInt 0) py_floordiv k).
Proof.
  intros a b.
  assert (DictExt.aggregate a b (PInt 0) py_floordiv = Raise ZeroDivisionError)
    as Hraise by (vm_compute; reflexivity).
  split; [exact Hraise|]. intros (m & Hm & _). rewrite Hraise in Hm. discriminate.
Qed.

(** *** The examples of the docstrings *)

Example sorts_example :
  ListExt.sorts_py [PInt 9; PStr "abc"; PStr "aaa"; PInt 1] false
  = [PInt 1; PInt 9; PStr "aaa"; PStr "abc"].
Proof. vm_compute. reflexivity. Qed.

Example freq_example :
  ListExt.freq (map PInt [1; 1; 2; 3; 5; 5]) false None false
  = Ok (ListExt.FreqDict [(PInt 1, 2); (PInt 2, 1); (PInt 3, 1); (PInt 5, 2)]).
Proof. vm_compute. reflexivity. Qed.

Example freq_increment_example :
  ListExt.freq (map PInt [1; 1; 2; 3; 3; 4; 5; 6]) false None true
  = Ok (ListExt.FreqIncrement [2; 3; 5; 6; 7; 8]).
Proof. vm_compute. reflexivity. Qed.

Example flatten_example :
  ListExt.flatten
    [PList [PStr "test"]; PList [PStr "test"; PStr "test"]; PList [PStr "test"]]
    false
  = [PStr "test"; PStr "test"; PStr "test"; PStr "test"].
Proof. reflexivity. Qed.

Example flatten_recursive_example :
  ListExt.flatten [PList [PInt 1; PList [PInt 2; PTuple [PStr "ab"; PList []]]]; PNone]
    true
  = [PInt 1; PInt 2; PStr "ab"; PNone].
Proof. reflexivity. Qed.

Example group_by_pair_value_example_2 :
  ListExt.group_by_pair_value [[8; 3]; [4; 6]; [6; 3]; [5; 2]; [7; 2]] 3
  = [[8; 3; 4; 6]; [2; 5; 7]].
Proof. vm_compute. reflexivity. Qed.

Example slice_points_example :
  (ListExt.slice_points [1; 1; 2; 3; 3; 4; 5; 6] 0%nat {[ 0%nat := [2; 5] ]}).1
  = [[1; 1]; [2; 3; 3]; [4; 5; 6]].
Proof. vm_compute. reflexivity. Qed.

Example slice_points_empty_example :
  (ListExt.slice_points [1; 1; 2; 3; 3; 4; 5; 6] 0%nat {[ 0%nat := [] ]}).1
  = [[1; 1; 2; 3; 3; 4; 5; 6]].
Proof. vm_compute. reflexivity. Qed.

Example split_chunk_example :
  (ListExt.split_chunk (repeat 1 17) 5 ∅).1
  = [[1; 1; 1; 1; 1]; [1; 1; 1; 1; 1]; [1; 1; 1; 1; 1]; [1; 1]].
Proof. vm_compute. reflexivity. Qed.

Example wrap_to_column_example :
  (ListExt.wrap_to_column ["apple"; "banana"; "cherry"; "date"] 30 4 ∅).1
  = Ok ["apple  banana cherry "; "date   "]
  ∧ (ListExt.wrap_to_column ["apple"; "banana"; "cherry"; "date"] 15 4 ∅).1
    = Ok ["apple  "; "banana "; "cherry "; "date   "].
Proof. split; vm_compute; reflexivity. Qed.

Example analyze_example :
  DictExt.analyze
    [("abc", PInt 9); ("def", PInt 9); ("ghi", PInt 8); ("jkl", PInt 1); ("mno", PInt 1)]
  = Ok (DictExt.MkDictAnalyzeResult string (PInt 9) (PInt 1)
          [("abc", PInt 9); ("def", PInt 9)] [("jkl", PInt 1); ("mno", PInt 1)]).
Proof. vm_compute. reflexivity. Qed.

Example analyze_mixed_example :
  DictExt.analyze [("a", PInt 1); ("b", PStr "y")]
  = Raise (ValueError "Value must be int or float").
Proof. vm_compute. reflexivity. Qed.

Example aggregate_example :
  DictExt.aggregate (K := string)
    {[ "test" := PInt 5; "test2" := PInt 9 ]}
    {[ "test1" := PInt 10; "test2" := PStr "1" ]} (PInt 0) py_add
  = Ok {[ "test1" := PInt 10; "test" := PInt 5;
          "test2" := PList [PInt 9; PStr "1"] ]}.
Proof. vm_compute. reflexivity. Qed.


(** ** Further properties *)

(** *** Equality of values *)

Lemma py_eqb_eq (x y : pyval) : py_eqb x y = true ↔ x = y.
Proof.
  revert y. induction x as [|z|s|l IH|l IH] using pyval_ind';
    intros [|z'|s'|l'|l']; simpl; try (split; [discriminate|congruence]).
  - done.
  - rewrite Z.eqb_eq. split; congruence.
  - rewrite String.eqb_eq. split; congruence.
  - assert ((fix eqs (xs ys : list pyval) : bool :=
               match xs, ys with
               | [], [] => true
               | a :: xs', b :: ys' => py_eqb a b && eqs xs' ys'
               | _, _ => false
               end) l l' = true ↔ l = l') as ->; [|split; congruence].
    revert l'. induction IH as [|x l Hx _ IHl]; intros [|y l'];
      try (split; [discriminate|congruence]); [done|].
    rewrite andb_true_iff, Hx, IHl. split; [intros [-> ->]; done|by intros [= -> ->]].
  - assert ((fix eqs (xs ys : list pyval) : bool :=
               match xs, ys with
               | [], [] => true
               | a :: xs', b :: ys' => py_eqb a b && eqs xs' ys'
               | _, _ => false
               end) l l' = true ↔ l = l') as ->; [|split; congruence].
    revert l'. induction IH as [|x l Hx _ IHl]; intros [|y l'];
      try (split; [discriminate|congruence]); [done|].
    rewrite andb_true_iff, Hx, IHl. split; [intros [-> ->]; done|by intros [= -> ->]].
Qed.

Lemma py_eqb_refl (x : pyval) : py_eqb x x = true.
Proof. by apply py_eqb_eq. Qed.

Lemma py_eqb_neq (x y : pyval) : py_eqb x y = false ↔ x ≠ y.
Proof.
  rewrite <- py_eqb_eq. by destruct (py_eqb x y).
Qed.

Global Instance pyval_eq_dec : EqDecision pyval.
Proof.
  intros x y. destruct (py_eqb x y) eqn:Heq.
  - left. by apply py_eqb_eq.
  - right. by apply py_eqb_neq.
Defined.

(** *** [head], [tail] *)

Lemma set_min_max_len (n len : Z) :
  0 ≤ len → 0 ≤ ListExt.set_min_max n 0 len ≤ len
  ∧ Z.to_nat (ListExt.set_min_max n 0 len) = Nat.min (Z.to_nat n) (Z.to_nat len).
Proof. unfold ListExt.set_min_max. lia. Qed.

Lemma head_take {A} (self : list A) (n : Z) :
  ListExt.head self n = take (Z.to_nat n) self.
Proof.
  unfold ListExt.head.
  destruct (set_min_max_len n (Z.of_nat (length self))) as [Hk Hnat]; [lia|].
  rewrite slice_in by lia. rewrite Z.sub_0_r, Hnat, Nat2Z.id. simpl drop.
  rewrite drop_0. destruct (Nat.le_ge_cases (Z.to_nat n) (length self)).
  - by rewrite Nat.min_l.
  - rewrite Nat.min_r by done. by rewrite !take_ge.
Qed.

Lemma tail_drop {A} (self : list A) (n : Z) :
  ListExt.tail self n = drop (length self - Z.to_nat n) self.
Proof.
  unfold ListExt.tail.
  destruct (set_min_max_len n (Z.of_nat (length self))) as [Hk Hnat]; [lia|].
  rewrite slice_in by (rewrite ?length_rev; lia).
  rewrite Z.sub_0_r, Hnat, Nat2Z.id. simpl drop.
  rewrite drop_0, firstn_rev, rev_involutive. f_equal. lia.
Qed.

(** X1: [head(n)] is the first [n] items and [tail(n)] the last [n] items
    in their original order; a count beyond the length gives the whole
    list and a negative one the empty list, never a slice counted from the
    other end. *)
Theorem head_tail_items {A} (self : list A) (n : Z) :
  ListExt.head self n = take (Z.to_nat n) self
  ∧ ListExt.tail self n = drop (length self - Z.to_nat n) self
  ∧ Z.of_nat (length (ListExt.head self n))
    = Z.min (Z.max n 0) (Z.of_nat (length self))
  ∧ length (ListExt.tail self n) = length (ListExt.head self n).
Proof.
  rewrite head_take, tail_drop, length_take, length_drop. split_and!; try done; lia.
Qed.

(** X2: for every [n], [head(n)] followed by [tail(len(self) - n)] is the
    list itself. *)
Theorem head_tail_split {A} (self : list A) (n : Z) :
  ListExt.head self n ++ ListExt.tail self (Z.of_nat (length self) - n) = self.
Proof.
  rewrite head_take, tail_drop.
  destruct (Z.le_gt_cases n 0) as [Hneg|Hpos].
  - replace (Z.to_nat n) with 0%nat by lia.
    replace (length self - Z.to_nat (Z.of_nat (length self) - n))%nat
      with 0%nat by lia.
    by rewrite take_0, drop_0.
  - destruct (Z.le_gt_cases n (Z.of_nat (length self))).
    + replace (length self - Z.to_nat (Z.of_nat (length self) - n))%nat
        with (Z.to_nat n) by lia.
      apply take_drop.
    + replace (Z.to_nat (Z.of_nat (length self) - n)) with 0%nat by lia.
      rewrite take_ge, drop_ge by lia. apply app_nil_r.
Qed.

(** *** [join] *)




(** *** [numbering] *)

Lemma enumerate_lookup {A} (l : list A) (start : Z) (i : nat) :
  enumerate start l !! i = (λ x, (start + Z.of_nat i, x)) <$> l !! i.
Proof.
  revert start i. induction l as [|x l IH]; intros start [|i]; simpl; try done.
  - do 2 f_equal. lia.
  - rewrite IH. destruct (l !! i); simpl; [|done]. do 2 f_equal. lia.
Qed.

(** X4: [numbering(start)] pairs the item at position [i] with
    [max(start, 0) + i]: a negative [start] counts from 0, the items and
    their order are kept. *)
Theorem numbering_items {A} (self : list A) (start : Z) :
  map snd (ListExt.numbering self start) = self
  ∧ ∀ i, ListExt.numbering self start !! i
         = (λ x, (Z.max start 0 + Z.of_nat i, x)) <$> self !! i.
Proof.
  unfold ListExt.numbering. split; [|intros i; apply enumerate_lookup].
  generalize (Z.max start 0). induction self as [|x self IH]; intros s; simpl;
    [done|]. by rewrite IH.
Qed.

(** *** [pick_one], [get_random] *)

Section RandomSpec.
Context {G : Type} (randbelow : G → Z → Z * G).

(** [randbelow(n)] is below [n]. *)
Definition randbelow_in_range : Prop :=
  ∀ g n, 0 < n → 0 ≤ (randbelow g n).1 < n.

Lemma pick_one_nonempty {A} (self : list A) (g : G) :
  randbelow_in_range → self ≠ [] →
  ∃ x, (ListExt.pick_one randbelow self g).1 = inr x ∧ x ∈ self.
Proof.
  intros Hrange Hne. unfold ListExt.pick_one.
  assert (0 < Z.of_nat (length self)) as Hlen by (destruct self; [done|simpl; lia]).
  destruct (Z.eqb_spec (Z.of_nat (length self)) 0) as [|_]; [lia|]. simpl.
  specialize (Hrange g _ Hlen).
  destruct (randbelow g (Z.of_nat (length self))) as [i g']. simpl in Hrange.
  destruct (lookup_lt_is_Some_2 self (Z.to_nat i)) as [x Hx]; [lia|].
  rewrite Hx. exists x. split; [done|]. by eapply list_elem_of_lookup_2.
Qed.

(** X5: with a generator whose [randbelow(n)] is below [n], [pick_one]
    returns an item of the list when there is one; on the empty list it
    raises [IndexError("List empty!")] and draws nothing. *)
Theorem pick_one_member {A} (self : list A) (g : G) :
  randbelow_in_range →
  (self ≠ [] → ∃ x, (ListExt.pick_one randbelow self g).1 = inr x ∧ x ∈ self)
  ∧ (self = [] →
     ListExt.pick_one randbelow self g = (inl (ListExt.IndexError "List empty!"), g)).
Proof.
  intros Hrange. split.
  - by apply pick_one_nonempty.
  - by intros ->.
Qed.

(** X6: [get_random(n)] returns [n] items of the list, each one picked from
    it (so with repetition); for [n <= 0] it returns the empty list, also on
    an empty list, on which every [n >= 1] raises the [IndexError] of
    [pick_one]. *)
Theorem get_random_items {A} (self : list A) (n : Z) (g : G) :
  randbelow_in_range →
  (n ≤ 0 → ListExt.get_random randbelow self n g = (inr [], g))
  ∧ (self ≠ [] →
     ∃ xs, (ListExt.get_random randbelow self n g).1 = inr xs
         ∧ length xs = Z.to_nat n ∧ Forall (λ x, x ∈ self) xs)
  ∧ (self = [] → 0 < n →
     ListExt.get_random randbelow self n g
     = (inl (ListExt.IndexError "List empty!"), g)).
Proof.
  intros Hrange. unfold ListExt.get_random. split_and!.
  - intros Hn. by replace (Z.to_nat n) with 0%nat by lia.
  - intros Hne. generalize (Z.to_nat n). intros count. revert g.
    induction count as [|count IH]; intros g; simpl.
    + exists []. by split_and!.
    + destruct (pick_one_nonempty self g Hrange Hne) as (x & Hx & Hin).
      destruct (ListExt.pick_one randbelow self g) as [[e|x'] g']; simpl in Hx;
        [done|]. injection Hx as ->.
      destruct (IH g') as (xs & Hxs & Hlen & Hall).
      destruct (ListExt.get_random_loop randbelow self count g') as [[e|xs'] g''];
        simpl in Hxs; [done|]. injection Hxs as ->.
      exists (x :: xs). simpl. split_and!; [done|by rewrite Hlen|by constructor].
  - intros -> Hn. destruct (Z.to_nat n) as [|count] eqn:Hc; [lia|]. done.
Qed.
End RandomSpec.

(** A generator for the examples: a counter, reduced modulo [n]. *)
Definition counter_randbelow (g n : Z) : Z * Z := (g mod n, g + 1).

Lemma counter_randbelow_in_range : randbelow_in_range counter_randbelow.
Proof. intros g n Hn. simpl. by apply Z.mod_pos_bound. Qed.

Lemma pick_one_member_witness :
  (["foo"; "bar"] ≠ [] →
   ∃ x, (ListExt.pick_one counter_randbelow ["foo"; "bar"] 1).1 = inr x
      ∧ x ∈ ["foo"; "bar"])
  ∧ (["foo"; "bar"] = [] →
     ListExt.pick_one counter_randbelow ["foo"; "bar"] 1
     = (inl (ListExt.IndexError "List empty!"), 1)).
Proof.
  apply (pick_one_member counter_randbelow ["foo"; "bar"] 1).
  exact counter_randbelow_in_range.
Defined.

Lemma get_random_items_witness :
  (3 ≤ 0 → ListExt.get_random counter_randbelow ["foo"; "bar"] 3 0 = (inr [], 0))
  ∧ (["foo"; "bar"] ≠ [] →
     ∃ xs, (ListExt.get_random counter_randbelow ["foo"; "bar"] 3 0).1 = inr xs
         ∧ length xs = Z.to_nat 3 ∧ Forall (λ x, x ∈ ["foo"; "bar"]) xs)
  ∧ (["foo"; "bar"] = [] → 0 < 3 →
     ListExt.get_random counter_randbelow ["foo"; "bar"] 3 0
     = (inl (ListExt.IndexError "List empty!"), 0)).
Proof.
  apply (get_random_items counter_randbelow ["foo"; "bar"] 3 0).
  exact counter_randbelow_in_range.
Defined.

(** *** [len_items], [max_item_len] *)






(** *** [slice_points] on ascending cut points *)

Lemma slices_ascending {A} (s : list A) (pts : list Z) :
  ∀ a, 0 ≤ a →
  StronglySorted Z.le (a :: pts ++ [Z.of_nat (length s)]) →
  concat (map (λ i, slice s i.1 i.2) (zip (a :: pts) (pts ++ [Z.of_nat (length s)])))
  = drop (Z.to_nat a) s.
Proof.
  induction pts as [|p pts IH]; intros a Ha Hs.
  - simpl. apply StronglySorted_inv in Hs as [_ Hall].
    apply Forall_cons in Hall as [Han _].
    rewrite app_nil_r, slice_in by lia.
    apply take_ge. rewrite length_drop. lia.
  - apply StronglySorted_inv in Hs as [Hs Hall].
    pose proof Hs as Hs'. apply StronglySorted_inv in Hs' as [_ Hp].
    apply Forall_cons in Hall as [Hap _].
    assert (p ≤ Z.of_nat (length s)) as Hpn.
    { apply Forall_app in Hp as [_ Hp]. by apply Forall_cons in Hp as [? _]. }
    change (zip (a :: p :: pts) ((p :: pts) ++ [Z.of_nat (length s)]))
      with ((a, p) :: zip (p :: pts) (pts ++ [Z.of_nat (length s)])).
    rewrite map_cons. cbn [concat fst snd].
    rewrite (IH p) by (done || lia). rewrite slice_in by lia.
    rewrite <- (take_drop (Z.to_nat (p - a)) (drop (Z.to_nat a) s)) at 2.
    rewrite drop_drop. do 3 f_equal. lia.
Qed.

(** X9: when the cut points are ascending and between 0 and [len(s)],
    [slice_points] returns one slice more than there are points, and the
    slices put end to end are [s]. *)
Theorem slice_points_ascending {A} (s : list A) (points : ListExt.loc)
    (h : gmap ListExt.loc (list Z)) (pts : list Z) :
  h !! points = Some pts →
  Sorted Z.le (0 :: pts ++ [Z.of_nat (length s)]) →
  concat (ListExt.slice_points s points h).1 = s
  ∧ length (ListExt.slice_points s points h).1 = S (length pts).
Proof.
  intros Hpts Hsorted. apply lookup_total_correct in Hpts.
  rewrite slice_points_pairs, Hpts. split.
  - rewrite slices_ascending; [done|lia|].
    by apply Sorted_StronglySorted; [intros ???; lia|].
  - rewrite length_map, length_zip_with, length_app. simpl length. lia.
Qed.

Lemma slice_points_ascending_witness :
  let s := [1; 1; 2; 3; 3; 4; 5; 6] in
  let h : gmap ListExt.loc (list Z) := {[ 0%nat := [2; 5] ]} in
  concat (ListExt.slice_points s 0%nat h).1 = s
  ∧ length (ListExt.slice_points s 0%nat h).1 = S (length [2; 5]).
Proof.
  intros s h. apply (slice_points_ascending s 0%nat h [2; 5]).
  - vm_compute. reflexivity.
  - repeat constructor; simpl; lia.
Defined.

(** With an empty list of cut points, [slice_points] returns the whole
    list as its only slice. *)
Theorem slice_points_no_points {A} (s : list A) (points : ListExt.loc)
    (h : gmap ListExt.loc (list Z)) :
  h !! points = Some [] →
  (ListExt.slice_points s points h).1 = [s]
  ∧ (ListExt.slice_points s points h).2 !! points = Some [Z.of_nat (length s)].
Proof.
  intros Hpts. split.
  - apply lookup_total_correct in Hpts. rewrite slice_points_pairs, Hpts. simpl.
    rewrite slice_in by lia. rewrite Z.sub_0_r, Nat2Z.id. simpl.
    by rewrite drop_0, take_ge.
  - unfold ListExt.slice_points. simpl. rewrite lookup_insert_eq.
    by rewrite (lookup_total_correct _ _ _ Hpts).
Qed.

Lemma slice_points_no_points_witness :
  let h : gmap ListExt.loc (list Z) := {[ 0%nat := [] ]} in
  (ListExt.slice_points [1; 2; 3] 0%nat h).1 = [[1; 2; 3]]
  ∧ (ListExt.slice_points [1; 2; 3] 0%nat h).2 !! 0%nat
    = Some [Z.of_nat (length [1; 2; 3])].
Proof.
  intros h. apply (slice_points_no_points [1; 2; 3] 0%nat h).
  vm_compute. reflexivity.
Defined.

(** *** [flatten] and the leaves *)

(** The items that are no list or tuple, from left to right. *)
Fixpoint leaves (x : pyval) : list pyval :=
  match x with
  | PList l | PTuple l => concat (map leaves l)
  | _ => [x]
  end.

Lemma leaves_atoms (l : list pyval) :
  existsb ListExt._condition l = false → concat (map leaves l) = l.
Proof.
  induction l as [|x l IH]; simpl; [done|].
  intros [Hx Hl]%orb_false_iff. rewrite (IH Hl). by destruct x.
Qed.

Lemma leaves_instance_checking (x : pyval) :
  concat (map leaves (ListExt.instance_checking x)) = leaves x.
Proof. destruct x; simpl; try done; apply app_nil_r. Qed.

Lemma leaves_flatten_once (l : list pyval) :
  concat (map leaves (ListExt.flatten_once l)) = concat (map leaves l).
Proof.
  unfold ListExt.flatten_once. induction l as [|x l IH]; simpl; [done|].
  by rewrite map_app, concat_app, IH, leaves_instance_checking.
Qed.

Lemma flatten_while_leaves (l : list pyval) :
  ListExt.flatten_while l = concat (map leaves l).
Proof.
  funelim (ListExt.flatten_while l).
  - by rewrite <- leaves_flatten_once.
  - symmetry. by apply leaves_atoms.
Qed.

Lemma flatten_true_leaves (self : list pyval) :
  ListExt.flatten self true = concat (map leaves self).
Proof.
  unfold ListExt.flatten. by rewrite flatten_while_leaves, leaves_flatten_once.
Qed.

(** X11: [flatten(recursive=True)] returns the leaves of the nested lists
    and tuples, in their order from left to right: nothing is lost, added
    or moved, and strings stay whole. So it distributes over the
    concatenation of lists, and one more enclosing list changes nothing. *)
Theorem flatten_recursive_leaves (self other : list pyval) :
  ListExt.flatten self true = concat (map leaves self)
  ∧ ListExt.flatten (self ++ other) true
    = ListExt.flatten self true ++ ListExt.flatten other true
  ∧ ListExt.flatten [PList self] true = ListExt.flatten self true.
Proof.
  rewrite !flatten_true_leaves. split_and!; [done| |].
  - by rewrite map_app, concat_app.
  - simpl. apply app_nil_r.
Qed.

Lemma depth_flatten_once_le (l : list pyval) :
  (ListExt.depth_list (ListExt.flatten_once l) ≤ Nat.pred (ListExt.depth_list l))%nat.
Proof.
  induction l as [|x l IH]; simpl; [lia|].
  unfold ListExt.flatten_once in *. simpl. rewrite ListExt.depth_list_app.
  assert (ListExt.depth_list (ListExt.instance_checking x)
          ≤ Nat.pred (ListExt.depth x))%nat.
  { destruct x; simpl; unfold ListExt.depth_list; lia. }
  assert (ListExt.depth_list (ListExt.instance_checking x) ≤ ListExt.depth x)%nat.
  { destruct x; simpl; unfold ListExt.depth_list; lia. }
  destruct (ListExt.depth x) eqn:Hx.
  - destruct x; simpl in *; try discriminate; lia.
  - lia.
Qed.

Lemma depth_zero_atoms (l : list pyval) :
  ListExt.depth_list l = 0%nat → existsb ListExt._condition l = false.
Proof.
  induction l as [|x l IH]; simpl; [done|]. intros Hd.
  rewrite IH by lia. by destruct x; simpl in *; try lia.
Qed.

Lemma iter_flatten_once_leaves (n : nat) (l : list pyval) :
  (ListExt.depth_list l ≤ n)%nat →
  Nat.iter n ListExt.flatten_once l = concat (map leaves l).
Proof.
  revert l. induction n as [|n IH]; intros l Hd.
  - simpl. symmetry. apply leaves_atoms, depth_zero_atoms. lia.
  - rewrite Nat.iter_succ_r, IH, leaves_flatten_once; [done|].
    pose proof (depth_flatten_once_le l). lia.
Qed.

(** X12: [flatten(recursive=True)] is [flatten()] repeated: as many times
    as the nesting is deep, or any greater number of times. *)
Theorem flatten_recursive_iterates (self : list pyval) (n : nat) :
  (ListExt.depth_list self ≤ n)%nat →
  ListExt.flatten self true = Nat.iter n (λ l, ListExt.flatten l false) self.
Proof.
  intros Hd. change (λ l, ListExt.flatten l false) with ListExt.flatten_once.
  rewrite iter_flatten_once_leaves by done. apply flatten_true_leaves.
Qed.

Lemma flatten_recursive_iterates_witness :
  let self := [PList [PInt 1; PList [PInt 2; PTuple [PStr "ab"]]]; PNone] in
  ListExt.flatten self true = Nat.iter 3 (λ l, ListExt.flatten l false) self.
Proof.
  intros self. apply (flatten_recursive_iterates self 3). vm_compute. lia.
Defined.

(** *** [freq] without [num_of_first_char] *)

(** How often [x] occurs in [l], and the sum of the counts of a table. *)
Definition occurrences_of (x : pyval) (l : list pyval) : Z :=
  Z.of_nat (length (filter (λ y, y = x) l)).

Definition total_count (d : list (pyval * Z)) : Z :=
  foldr (λ kn acc, kn.2 + acc) 0 d.

(** The count that a [Counter] holds for an item. *)
Fixpoint counter_get (c : list (pyval * Z)) (x : pyval) : option Z :=
  match c with
  | [] => None
  | (k, n) :: c' => if py_eqb k x then Some n else counter_get c' x
  end.

Lemma counter_add_get c x y :
  counter_get (counter_add x c) y
  = if decide (x = y) then Some (default 0 (counter_get c x) + 1)
    else counter_get c y.
Proof.
  induction c as [|[k n] c IH]; simpl.
  - destruct (decide (x = y)) as [->|Hne].
    + by rewrite py_eqb_refl.
    + by apply py_eqb_neq in Hne as ->.
  - destruct (py_eqb k x) eqn:Hkx; simpl.
    + apply py_eqb_eq in Hkx as ->.
      destruct (decide (x = y)) as [->|Hne].
      * by rewrite py_eqb_refl.
      * by apply py_eqb_neq in Hne as ->.
    + rewrite IH. destruct (decide (x = y)) as [->|Hne]; [by rewrite Hkx|done].
Qed.

Lemma counter_add_fst c x :
  map fst (counter_add x c)
  = match counter_get c x with
    | Some _ => map fst c
    | None => map fst c ++ [x]
    end.
Proof.
  induction c as [|[k n] c IH]; simpl; [done|].
  destruct (py_eqb k x) eqn:Hkx; simpl; [done|].
  rewrite IH. by destruct (counter_get c x).
Qed.

Lemma counter_add_total c x : total_count (counter_add x c) = total_count c + 1.
Proof.
  induction c as [|[k n] c IH]; simpl; [lia|].
  destruct (py_eqb k x); simpl; [lia|]. rewrite IH. lia.
Qed.

Lemma counter_get_None c x : counter_get c x = None → x ∉ map fst c.
Proof.
  induction c as [|[k n] c IH]; simpl; [by intros _ ?%elem_of_nil|].
  destruct (py_eqb k x) eqn:Hkx; [done|].
  intros Hc [Heq|Hin]%elem_of_cons; [|by apply IH].
  simpl in Heq. subst k. by rewrite py_eqb_refl in Hkx.
Qed.

Lemma counter_get_elem c x n :
  NoDup (map fst c) → (x, n) ∈ c ↔ counter_get c x = Some n.
Proof.
  induction c as [|[k m] c IH]; simpl; intros Hnd.
  - split; [by intros ?%elem_of_nil|done].
  - apply NoDup_cons in Hnd as [Hk Hnd].
    destruct (py_eqb k x) eqn:Hkx.
    + apply py_eqb_eq in Hkx as ->. split.
      * intros [[= ->]|Hin]%elem_of_cons; [done|].
        exfalso. apply Hk. apply list_elem_of_fmap. by exists (x, n).
      * intros [= ->]. by left.
    + rewrite <- (IH Hnd). split.
      * intros [[= <- <-]|Hin]%elem_of_cons; [|done].
        by rewrite py_eqb_refl in Hkx.
      * intros Hin. by right.
Qed.

Lemma counter_table (l : list pyval) (c : list (pyval * Z)) :
  let c' := fold_left (λ c x, counter_add x c) l c in
  (NoDup (map fst c) → NoDup (map fst c'))
  ∧ total_count c' = total_count c + Z.of_nat (length l)
  ∧ ∀ x, default 0 (counter_get c' x)
         = default 0 (counter_get c x) + occurrences_of x l
       ∧ (is_Some (counter_get c' x) ↔ is_Some (counter_get c x) ∨ x ∈ l).
Proof.
  revert c. unfold occurrences_of.
  induction l as [|y l IH]; intros c; simpl.
  - split_and!; [done|lia|]. intros x. split; [lia|].
    split; [by left|]. by intros [?|?%elem_of_nil].
  - destruct (IH (counter_add y c)) as (Hnd & Htot & Hget). split_and!.
    + intros Hc. apply Hnd. rewrite counter_add_fst.
      destruct (counter_get c y) eqn:Hy; [done|].
      apply NoDup_app. split_and!; [done| |apply NoDup_singleton].
      intros k Hk ->%list_elem_of_singleton. by apply counter_get_None in Hy.
    + rewrite Htot, counter_add_total. lia.
    + intros x. destruct (Hget x) as [Hn Hsome].
      rewrite Hn, Hsome, counter_add_get, filter_cons.
      destruct (decide (y = x)) as [->|Hne]; simpl.
      * split; [lia|]. split; [intros _; right; by left|eauto].
      * split; [done|]. split.
        -- intros [?|?]; [by left|right; by right].
        -- intros [?|[->|?]%elem_of_cons]; [by left|done|by right].
Qed.

Lemma occurrences_of_pos x l : x ∈ l ↔ 0 < occurrences_of x l.
Proof.
  unfold occurrences_of. split.
  - intros Hin. assert (x ∈ filter (λ y, y = x) l) as Hf
      by by apply list_elem_of_filter.
    destruct (filter _ l); [by apply elem_of_nil in Hf|simpl; lia].
  - intros Hpos. destruct (filter (λ y, y = x) l) as [|y k] eqn:Hf;
      [simpl in Hpos; lia|].
    assert (y ∈ filter (λ y, y = x) l) as Hy by (rewrite Hf; by left).
    by apply list_elem_of_filter in Hy as [-> ?].
Qed.

(** [d] lists every item of [l] once, with the number of its occurrences. *)
Definition frequency_table (l : list pyval) (d : list (pyval * Z)) : Prop :=
  NoDup (map fst d)
  ∧ (∀ x n, (x, n) ∈ d ↔ n = occurrences_of x l ∧ 0 < n)
  ∧ total_count d = Z.of_nat (length l).

Lemma Counter_table (l : list pyval) :
  forallb hashable l = true →
  ∃ c, Counter l = Ok c ∧ frequency_table l c.
Proof.
  intros Hhash. unfold Counter. rewrite Hhash. eexists. split; [done|].
  destruct (counter_table l []) as (Hnd & Htot & Hget). simpl in *.
  split_and!; [apply Hnd; constructor| |lia].
  intros x n. rewrite counter_get_elem by (apply Hnd; constructor).
  destruct (Hget x) as [Hn Hsome]. split.
  - intros Hx. rewrite Hx in Hn, Hsome. simpl in Hn.
    assert (n = occurrences_of x l) as -> by lia.
    split; [done|]. apply occurrences_of_pos.
    destruct Hsome as [[[? [=]]|?] _]; eauto.
  - intros [-> Hpos]. destruct Hsome as [_ [n Hn']];
      [right; by apply occurrences_of_pos|].
    rewrite Hn' in Hn |- *. simpl in Hn. f_equal. lia.
Qed.

Lemma total_count_perm (d1 d2 : list (pyval * Z)) :
  d1 ≡ₚ d2 → total_count d1 = total_count d2.
Proof. induction 1; simpl; lia. Qed.

Lemma frequency_table_perm (l1 l2 : list pyval) (d1 d2 : list (pyval * Z)) :
  l1 ≡ₚ l2 → d1 ≡ₚ d2 → frequency_table l1 d1 → frequency_table l2 d2.
Proof.
  intros Hl Hd (Hnd & Hin & Htot). split_and!.
  - by rewrite <- Hd.
  - intros x n. rewrite <- Hd, Hin. unfold occurrences_of. by rewrite Hl.
  - by rewrite <- (total_count_perm _ _ Hd), Htot, Hl.
Qed.

(** [sorted] with a comparison that raises nothing but [TypeError] returns
    a rearrangement of the list, or raises [TypeError]. *)
Lemma insert_sorted_r_cases {A} (lt : A → A → result bool) (x : A) (l : list A) :
  (∀ a b e, lt a b = Raise e → e = TypeError) →
  (∃ l', insert_sorted_r lt x l = Ok l' ∧ l' ≡ₚ x :: l)
  ∨ insert_sorted_r lt x l = Raise TypeError.
Proof.
  intros Hraise. induction l as [|y l IH]; simpl.
  - left. by exists [x].
  - destruct (lt y x) as [[]|e] eqn:Hyx; simpl.
    + destruct IH as [(l' & -> & Hperm)| ->]; simpl; [left|by right].
      eexists. split; [done|]. rewrite Hperm. apply Permutation_swap.
    + left. by eexists.
    + right. by rewrite (Hraise _ _ _ Hyx).
Qed.

Lemma sorted_r_cases {A} (lt : A → A → result bool) (l : list A) :
  (∀ a b e, lt a b = Raise e → e = TypeError) →
  (∃ l', sorted_r lt l = Ok l' ∧ l' ≡ₚ l) ∨ sorted_r lt l = Raise TypeError.
Proof.
  intros Hraise. induction l as [|x l IH]; simpl.
  - left. by exists [].
  - destruct IH as [(l' & -> & Hperm)| ->]; simpl; [|by right].
    destruct (insert_sorted_r_cases lt x l' Hraise) as [(l'' & -> & Hperm')| ->];
      [left|by right].
    exists l''. split; [done|]. by rewrite Hperm', Hperm.
Qed.

Lemma item_lt_raises a b e : ListExt.item_lt a b = Raise e → e = TypeError.
Proof.
  unfold ListExt.item_lt. destruct (py_eqb a.1 b.1); [done|]. apply py_lt_raises.
Qed.

(** The table that [freq] returns for hashable items. *)
Lemma freq_table (self : list pyval) (sort appear_increment : bool) :
  forallb hashable self = true →
  ∃ d, ListExt.freq self sort None appear_increment
       = Ok (freq_output appear_increment d)
     ∧ frequency_table self d.
Proof.
  intros Hhash. unfold ListExt.freq.
  pose proof (freq_data_perm self sort) as Hperm.
  set (data := if sort then ListExt.sorts_py self false else self) in *.
  assert (forallb hashable data = true) as Hdata.
  { rewrite forallb_forall in Hhash |- *. intros x Hx%list_elem_of_In.
    apply Hhash, list_elem_of_In. by rewrite <- Hperm. }
  destruct (Counter_table data Hdata) as (c & -> & Hc). simpl bind.
  destruct (sorted_r_cases ListExt.item_lt c item_lt_raises)
    as [(d & -> & Hd)| ->]; simpl.
  - exists d. split; [by destruct appear_increment|].
    by apply (frequency_table_perm data self c d).
  - eexists. split; [by destruct appear_increment|].
    apply (frequency_table_perm data self c); [done| |done].
    unfold ListExt.sorts, sorted. by rewrite sorted_asc_perm.
Qed.



(** X14: an unhashable item (a list, or a tuple that holds one) makes
    [freq()] raise [TypeError], whatever [sort] and [appear_increment]
    are. *)
Theorem freq_unhashable (self : list pyval) (sort appear_increment : bool)
    (x : pyval) :
  x ∈ self → hashable x = false →
  ListExt.freq self sort None appear_increment = Raise TypeError.
Proof.
  intros Hx Hhash. unfold ListExt.freq.
  pose proof (freq_data_perm self sort) as Hperm.
  set (data := if sort then ListExt.sorts_py self false else self) in *.
  unfold Counter.
  assert (forallb hashable data = false) as ->; [|done].
  apply not_true_is_false. rewrite forallb_forall. intros Hall.
  rewrite (Hall x) in Hhash; [done|]. apply list_elem_of_In. by rewrite Hperm.
Qed.

Lemma freq_unhashable_witness :
  ListExt.freq [PInt 1; PList [PInt 2]] true None false = Raise TypeError.
Proof.
  apply (freq_unhashable [PInt 1; PList [PInt 2]] true false (PList [PInt 2])).
  - elem_solve.
  - reflexivity.
Defined.

(** *** [freq] with [num_of_first_char], on every list *)

Lemma freq_unhashable_raises (self : list pyval) (sort appear_increment : bool) :
  forallb hashable self = false →
  ListExt.freq self sort None appear_increment = Raise TypeError.
Proof.
  intros Hhash. unfold ListExt.freq.
  pose proof (freq_data_perm self sort) as Hperm.
  set (data := if sort then ListExt.sorts_py self false else self) in *.
  unfold Counter.
  assert (forallb hashable data = false) as ->; [|done].
  apply not_true_is_false. intros Hdata. rewrite forallb_forall in Hdata.
  assert (forallb hashable self = true) as Hself; [|congruence].
  apply forallb_forall. intros x Hx%list_elem_of_In.
  apply Hdata, list_elem_of_In. by rewrite Hperm.
Qed.

(** C7 as stated fails on a list with an unhashable item: on
    [[[1, 2], [3, 4, 5]]] the least [str] length is 6, so [c = 0] is out of
    range, and [Counter(data)] raises [TypeError] on the lists instead of
    counting them. *)
Lemma freq_num_of_first_char_unhashable :
  let self := [PList [PInt 1; PInt 2]; PList [PInt 3; PInt 4; PInt 5]] in
  self ≠ [] ∧ is_min_len self 6 ∧ ¬ (1 ≤ 0 < 6)
  ∧ ListExt.freq self false (Some 0) false = Raise TypeError
  ∧ ¬ ∃ d, ListExt.freq self false (Some 0) false = Ok (freq_output false d)
         ∧ frequency_table self d.
Proof.
  intros self.
  assert (ListExt.freq self false (Some 0) false = Raise TypeError) as Hraise
    by (vm_compute; reflexivity).
  split_and!; [done| |lia|exact Hraise|].
  - split.
    + exists (PList [PInt 1; PInt 2]). split; [by left|reflexivity].
    + intros x Hx. unfold self in Hx. elem_cases Hx; vm_compute; discriminate.
  - intros (d & Hd & _). rewrite Hraise in Hd. discriminate.
Qed.

(** C7 (as amended): on a list whose least [str] length is [m] (so a
    non-empty one), [freq(num_of_first_char=c)] with [1 <= c < m] returns
    the table, sorted, of the first [c] characters of the [str] of every
    item with their multiplicities (or its running sums). Any other [c] is
    ignored, the call being [freq] without [num_of_first_char]: when all
    items are hashable it returns the table of the items themselves, each
    distinct item once with the number of its occurrences (or its running
    sums), and when some item is unhashable it raises [TypeError]. *)
Theorem freq_num_of_first_char (self : list pyval) (sort appear_increment : bool)
    (m : Z) :
  is_min_len self m →
  (∀ c, 1 ≤ c < m →
     ∃ d, ListExt.freq self sort (Some c) appear_increment
          = Ok (freq_output appear_increment d)
        ∧ counts_of (map (first_chars c) self) d)
  ∧ (∀ c, ¬ (1 ≤ c < m) →
       ListExt.freq self sort (Some c) appear_increment
       = ListExt.freq self sort None appear_increment
       ∧ (forallb hashable self = true →
          ∃ d, ListExt.freq self sort (Some c) appear_increment
               = Ok (freq_output appear_increment d)
             ∧ frequency_table self d)
       ∧ (forallb hashable self = false →
          ListExt.freq self sort (Some c) appear_increment = Raise TypeError)).
Proof.
  intros Hmin. split.
  - intros c Hc.
    by apply (proj1 (freq_first_char_cases self sort c appear_increment m Hmin)).
  - intros c Hc.
    pose proof (proj2 (freq_first_char_cases self sort c appear_increment m Hmin) Hc)
      as Hignored.
    split_and!; [exact Hignored| |].
    + intros Hhash. rewrite Hignored. by apply freq_table.
    + intros Hhash. rewrite Hignored. by apply freq_unhashable_raises.
Qed.

Lemma freq_num_of_first_char_witness :
  let self := [PStr "apple"; PStr "avocado"; PStr "banana"; PInt 12345] in
  (∃ d, ListExt.freq self false (Some 1) false = Ok (freq_output false d)
      ∧ counts_of (map (first_chars 1) self) d)
  ∧ (∃ d, ListExt.freq self false (Some 5) false = Ok (freq_output false d)
        ∧ frequency_table self d).
Proof.
  intros self.
  assert (is_min_len self 5) as Hmin.
  { split.
    - exists (PStr "apple"). split; [by left|reflexivity].
    - intros x Hx. unfold self in Hx. elem_cases Hx; vm_compute; discriminate. }
  destruct (freq_num_of_first_char self false false 5 Hmin) as [Hin Hout].
  split.
  - apply (Hin 1). lia.
  - destruct (Hout 5) as (_ & Hhash & _); [lia|]. apply Hhash. reflexivity.
Defined.

Lemma accumulate_from_spec (l : list Z) (total : Z) :
  Forall (λ n, 0 < n) l →
  Forall (λ n, total < n) (accumulate_from total l)
  ∧ StronglySorted Z.lt (accumulate_from total l)
  ∧ last (accumulate_from total l)
    = match l with [] => None | _ => Some (total + foldr Z.add 0 l) end.
Proof.
  intros Hpos. revert total. induction Hpos as [|x l Hx _ IH]; intros total; simpl.
  - split_and!; [constructor..|done].
  - destruct (IH (total + x)) as (Hall & Hs & Hlast). split_and!.
    + constructor; [lia|]. eapply Forall_impl; [exact Hall|]. simpl. lia.
    + by constructor.
    + destruct l as [|y l]; simpl in *; [f_equal; lia|].
      rewrite Hlast. f_equal. lia.
Qed.

Lemma total_count_sum (d : list (pyval * Z)) :
  total_count d = foldr Z.add 0 (map snd d).
Proof. induction d as [|[k n] d IH]; simpl; [done|]. by rewrite <- IH. Qed.

Lemma accumulate_from_lookup (l : list Z) (total : Z) (i : nat) :
  (i < length l)%nat →
  accumulate_from total l !! i = Some (total + foldr Z.add 0 (take (S i) l)).
Proof.
  revert total i. induction l as [|x l IH]; intros total i Hi; simpl in Hi; [lia|].
  destruct i as [|i]; simpl.
  - rewrite ?take_0. simpl. f_equal. lia.
  - rewrite IH by lia. f_equal. simpl. lia.
Qed.

Lemma accumulate_lookup (l : list Z) (i : nat) :
  (i < length l)%nat →
  accumulate l !! i = Some (foldr Z.add 0 (take (S i) l)).
Proof.
  destruct l as [|x l]; simpl; intros Hi; [lia|].
  destruct i as [|i]; simpl.
  - rewrite ?take_0. simpl. f_equal. lia.
  - rewrite accumulate_from_lookup by lia. done.
Qed.

Lemma accumulate_from_length (l : list Z) (total : Z) :
  length (accumulate_from total l) = length l.
Proof. revert total. induction l as [|x l IH]; intros total; simpl; [done|]. by rewrite IH. Qed.

Lemma accumulate_length (l : list Z) : length (accumulate l) = length l.
Proof. destruct l as [|x l]; simpl; [done|]. by rewrite accumulate_from_length. Qed.

(** The table of [freq] does not depend on [appear_increment]. *)
Lemma freq_table_increment (self : list pyval) (sort : bool) :
  forallb hashable self = true →
  ∃ d, ListExt.freq self sort None false = Ok (ListExt.FreqDict d)
     ∧ ListExt.freq self sort None true
       = Ok (ListExt.FreqIncrement (accumulate (map snd d)))
     ∧ frequency_table self d.
Proof.
  intros Hhash. unfold ListExt.freq.
  pose proof (freq_data_perm self sort) as Hperm.
  set (data := if sort then ListExt.sorts_py self false else self) in *.
  assert (forallb hashable data = true) as Hdata.
  { rewrite forallb_forall in Hhash |- *. intros x Hx%list_elem_of_In.
    apply Hhash, list_elem_of_In. by rewrite <- Hperm. }
  destruct (Counter_table data Hdata) as (c & -> & Hc). simpl bind.
  destruct (sorted_r_cases ListExt.item_lt c item_lt_raises)
    as [(d & -> & Hd)| ->]; simpl.
  - exists d. split_and!; [done..|].
    by apply (frequency_table_perm data self c d).
  - eexists. split_and!; [done..|].
    apply (frequency_table_perm data self c); [done| |done].
    unfold ListExt.sorts, sorted. by rewrite sorted_asc_perm.
Qed.

(** X15: on hashable items [freq(appear_increment=True)] returns the
    running sums of the counts of [freq()]: its item at position [i] is the
    sum of the first [i + 1] counts of the table that [freq()] returns, in
    the order of that table. So it is as long as the table, strictly
    increasing, made of positive numbers, and it ends with [len(self)] (and
    is empty for the empty list). *)
Theorem freq_increment (self : list pyval) (sort : bool) :
  forallb hashable self = true →
  ∃ d acc,
    ListExt.freq self sort None false = Ok (ListExt.FreqDict d)
    ∧ ListExt.freq self sort None true = Ok (ListExt.FreqIncrement acc)
    ∧ (∀ x n, (x, n) ∈ d ↔ n = occurrences_of x self ∧ 0 < n)
    ∧ length acc = length d
    ∧ (∀ i, (i < length d)%nat → acc !! i = Some (total_count (take (S i) d)))
    ∧ StronglySorted Z.lt acc
    ∧ Forall (λ n, 0 < n) acc
    ∧ last acc = match self with
                 | [] => None
                 | _ => Some (Z.of_nat (length self))
                 end.
Proof.
  intros Hhash.
  destruct (freq_table_increment self sort Hhash)
    as (d & Hdict & Hinc & Hnd & Hin & Htot).
  exists d, (accumulate (map snd d)). split_and!; [exact Hdict|exact Hinc|exact Hin|..].
  { by rewrite accumulate_length, length_map. }
  { intros i Hi. rewrite accumulate_lookup by by rewrite length_map.
    by rewrite total_count_sum, fmap_take. }
  all: assert (Forall (λ n, 0 < n) (map snd d)) as Hpos
    by (apply Forall_forall; intros n ([x n'] & -> & Hx)%list_elem_of_fmap;
        by apply Hin in Hx as [_ ?]).
  all: rewrite total_count_sum in Htot.
  all: destruct (map snd d) as [|n ns] eqn:Hns; simpl.
  1, 3, 5: first [constructor | by (simpl in Htot; destruct self)].
  all: apply Forall_cons in Hpos as [Hn Hpos].
  all: destruct (accumulate_from_spec ns n Hpos) as (Hall & Hs & Hlast).
  - by constructor.
  - constructor; [done|]. eapply Forall_impl; [exact Hall|]. simpl. lia.
  - simpl in Htot.
    assert (self ≠ []) as Hne.
    { intros ->. simpl in Htot.
      assert (0 ≤ foldr Z.add 0 ns); [|lia].
      clear -Hpos. induction Hpos; simpl; lia. }
    destruct self as [|x self]; [done|].
    destruct ns as [|m ns']; simpl in *; [f_equal; lia|].
    rewrite Hlast. f_equal. lia.
Qed.

Lemma freq_increment_witness :
  ∃ d acc,
    ListExt.freq (map PInt [1; 1; 2; 3; 3; 4; 5; 6]) false None false
    = Ok (ListExt.FreqDict d)
    ∧ ListExt.freq (map PInt [1; 1; 2; 3; 3; 4; 5; 6]) false None true
      = Ok (ListExt.FreqIncrement acc)
    ∧ (∀ x n, (x, n) ∈ d
              ↔ n = occurrences_of x (map PInt [1; 1; 2; 3; 3; 4; 5; 6]) ∧ 0 < n)
    ∧ length acc = length d
    ∧ (∀ i, (i < length d)%nat → acc !! i = Some (total_count (take (S i) d)))
    ∧ StronglySorted Z.lt acc
    ∧ Forall (λ n, 0 < n) acc
    ∧ last acc = Some (Z.of_nat (length (map PInt [1; 1; 2; 3; 3; 4; 5; 6]))).
Proof.
  apply (freq_increment (map PInt [1; 1; 2; 3; 3; 4; 5; 6]) false). reflexivity.
Defined.

(** *** Dict comprehensions: [swap_items], [DictExt.apply] *)

Lemma dict_set_get k v d y :
  dict_get y (dict_set k v d) = if decide (k = y) then Some v else dict_get y d.
Proof.
  induction d as [|[k' v'] d IH]; simpl.
  - destruct (decide (k = y)) as [->|Hne].
    + by rewrite py_eqb_refl.
    + by apply py_eqb_neq in Hne as ->.
  - destruct (py_eqb k' k) eqn:Hk; simpl.
    + apply py_eqb_eq in Hk as ->. by destruct (decide (k = y)) as [->|Hne];
        [rewrite py_eqb_refl|apply py_eqb_neq in Hne as ->].
    + rewrite IH. destruct (decide (k = y)) as [->|Hne]; [by rewrite Hk|done].
Qed.

Lemma dict_set_fresh k v d : k ∉ map fst d → dict_set k v d = d ++ [(k, v)].
Proof.
  induction d as [|[k' v'] d IH]; simpl; [done|].
  intros [Hne Hk]%not_elem_of_cons.
  assert (py_eqb k' k = false) as -> by (apply py_eqb_neq; congruence).
  by rewrite IH.
Qed.

Lemma dict_set_fst k v d :
  map fst (dict_set k v d)
  = match dict_get k d with
    | Some _ => map fst d
    | None => map fst d ++ [k]
    end.
Proof.
  induction d as [|[k' v'] d IH]; simpl; [done|].
  destruct (py_eqb k' k); simpl; [done|]. rewrite IH. by destruct (dict_get k d).
Qed.

Lemma dict_get_None k d : dict_get k d = None → k ∉ map fst d.
Proof.
  induction d as [|[k' v'] d IH]; simpl; [by intros _ ?%elem_of_nil|].
  destruct (py_eqb k' k) eqn:Hk; [done|].
  intros Hd [Heq|Hin]%elem_of_cons; [|by apply IH].
  simpl in Heq. subst k'. by rewrite py_eqb_refl in Hk.
Qed.

Lemma dict_set_NoDup k v d : NoDup (map fst d) → NoDup (map fst (dict_set k v d)).
Proof.
  intros Hnd. rewrite dict_set_fst. destruct (dict_get k d) eqn:Hk; [done|].
  apply NoDup_app. split_and!; [done| |apply NoDup_singleton].
  intros k' Hk' ->%list_elem_of_singleton. by apply dict_get_None in Hk.
Qed.

Section DictBuild.
Context {A : Type} (key value : A → pyval).

(** The dict of a comprehension whose entries do not raise. *)
Definition dict_build (items : list A) (d : list (pyval * pyval))
    : list (pyval * pyval) :=
  fold_left (λ d item, dict_set (key item) (value item) d) items d.

Lemma dict_comprehension_build (entry : A → result (pyval * pyval)) (items : list A) :
  (∀ item, item ∈ items → entry item = Ok (key item, value item)) →
  forallb hashable (map key items) = true →
  dict_comprehension entry items = Ok (dict_build items []).
Proof.
  unfold dict_comprehension, dict_build. generalize (@nil (pyval * pyval)).
  induction items as [|item items IH]; intros d Hentry Hhash; simpl; [done|].
  simpl in Hhash. apply andb_true_iff in Hhash as [Hkey Hhash].
  rewrite (Hentry item) by by left. simpl. rewrite Hkey.
  apply IH; [|done]. intros it Hit. apply Hentry. by right.
Qed.

Lemma dict_comprehension_raise (entry : A → result (pyval * pyval))
    (items : list A) (e : exn) :
  fold_left (λ acc item,
    let* d := acc in
    let* kv := entry item in
    if hashable kv.1 then Ok (dict_set kv.1 kv.2 d) else Raise TypeError)
    items (Raise e) = Raise e.
Proof. by induction items. Qed.

Lemma dict_comprehension_unhashable (entry : A → result (pyval * pyval))
    (items : list A) :
  (∀ item, item ∈ items → entry item = Ok (key item, value item)) →
  forallb hashable (map key items) = false →
  dict_comprehension entry items = Raise TypeError.
Proof.
  unfold dict_comprehension. generalize (@nil (pyval * pyval)).
  induction items as [|item items IH]; intros d Hentry Hhash; simpl; [done|].
  simpl in Hhash. rewrite (Hentry item) by by left. simpl.
  destruct (hashable (key item)); simpl in Hhash.
  - apply IH; [|done]. intros it Hit. apply Hentry. by right.
  - apply dict_comprehension_raise.
Qed.

Lemma dict_build_snoc items item d :
  dict_build (items ++ [item]) d
  = dict_set (key item) (value item) (dict_build items d).
Proof. unfold dict_build. by rewrite fold_left_app. Qed.

Lemma dict_build_NoDup items d :
  NoDup (map fst d) → NoDup (map fst (dict_build items d)).
Proof.
  revert d. unfold dict_build.
  induction items as [|item items IH]; intros d Hnd; simpl; [done|].
  by apply IH, dict_set_NoDup.
Qed.

(** Distinct new keys are appended in their order. *)
Lemma dict_build_fresh items d :
  NoDup (map key items) → (∀ item, item ∈ items → key item ∉ map fst d) →
  dict_build items d = d ++ map (λ item, (key item, value item)) items.
Proof.
  revert d. unfold dict_build.
  induction items as [|item items IH]; intros d Hnd Hfresh; simpl.
  - by rewrite app_nil_r.
  - simpl in Hnd. apply NoDup_cons in Hnd as [Hitem Hnd].
    rewrite dict_set_fresh by (apply Hfresh; by left).
    rewrite IH; [by rewrite <- app_assoc|done|].
    intros it Hit. rewrite map_app. simpl. intros [Hin|Hin]%elem_of_app.
    + by apply (Hfresh it); [right|].
    + apply list_elem_of_singleton in Hin. apply Hitem. rewrite <- Hin.
      apply list_elem_of_fmap. eauto.
Qed.

(** The last write wins: the value at a key is that of the last item with
    that key. *)
Lemma dict_build_last items y v :
  dict_get y (dict_build items []) = Some v
  ↔ ∃ before item after,
      items = before ++ item :: after ∧ key item = y ∧ value item = v
      ∧ ∀ it, it ∈ after → key it ≠ y.
Proof.
  induction items as [|item items IH] using rev_ind.
  - simpl. split; [done|]. intros (before & it & after & Heq & _).
    by destruct before.
  - rewrite dict_build_snoc, dict_set_get.
    destruct (decide (key item = y)) as [Hy|Hy].
    + split.
      * intros [= <-]. exists items, item, []. split_and!; try done.
        by intros it ?%elem_of_nil.
      * intros (before & it & after & Heq & Hk & Hv & Hafter).
        destruct after as [|z after _] using rev_ind.
        -- apply app_inj_tail in Heq as [_ ->]. by rewrite Hv.
        -- rewrite app_comm_cons, app_assoc in Heq.
           apply app_inj_tail in Heq as [_ ->].
           exfalso. apply (Hafter z); [|done]. apply elem_of_app. right. by left.
    + rewrite IH. split.
      * intros (before & it & after & -> & Hk & Hv & Hafter).
        exists before, it, (after ++ [item]). split_and!; try done.
        -- by rewrite <- app_assoc.
        -- intros z [Hz| ->%list_elem_of_singleton]%elem_of_app; [by apply Hafter|done].
      * intros (before & it & after & Heq & Hk & Hv & Hafter).
        destruct after as [|z after _] using rev_ind.
        -- apply app_inj_tail in Heq as [_ ->]. done.
        -- rewrite app_comm_cons, app_assoc in Heq.
           apply app_inj_tail in Heq as [-> ->].
           exists before, it, after. split_and!; try done.
           intros w Hw. apply Hafter. apply elem_of_app. by left.
Qed.
End DictBuild.

Lemma dict_comprehension_first_raise {A} (entry : A → result (pyval * pyval))
    (key value : A → pyval) (before after : list A) (item : A) (e : exn) :
  (∀ it, it ∈ before → entry it = Ok (key it, value it)) →
  forallb hashable (map key before) = true →
  entry item = Raise e →
  dict_comprehension entry (before ++ item :: after) = Raise e.
Proof.
  intros Hentry Hhash Hitem. unfold dict_comprehension.
  rewrite fold_left_app.
  pose proof (dict_comprehension_build key value entry before Hentry Hhash) as Hb.
  unfold dict_comprehension in Hb. rewrite Hb. simpl. rewrite Hitem. simpl.
  apply dict_comprehension_raise.
Qed.

Definition swap (kv : pyval * pyval) : pyval * pyval := (kv.2, kv.1).

Ltac nodup_solve :=
  simpl;
  repeat (apply NoDup_cons_2;
          [let H := fresh in
           intros H;
           repeat (apply elem_of_cons in H as [H|H]; [discriminate H|]);
           by apply elem_of_nil in H|]);
  apply NoDup_nil_2.

Lemma map_swap_swap (d : list (pyval * pyval)) : map swap (map swap d) = d.
Proof. induction d as [|[k v] d IH]; simpl; [done|]. by rewrite IH. Qed.

Lemma map_fst_swap (d : list (pyval * pyval)) : map fst (map swap d) = map snd d.
Proof. induction d as [|[k v] d IH]; simpl; [done|]. by rewrite IH. Qed.

Lemma map_snd_swap (d : list (pyval * pyval)) : map snd (map swap d) = map fst d.
Proof. induction d as [|[k v] d IH]; simpl; [done|]. by rewrite IH. Qed.

Lemma swap_items_distinct (self : list (pyval * pyval)) :
  NoDup (map snd self) → forallb hashable (map snd self) = true →
  DictExt.swap_items self = Ok (map swap self).
Proof.
  intros Hnd Hhash. unfold DictExt.swap_items.
  rewrite (dict_comprehension_build snd fst) by done.
  rewrite dict_build_fresh; [done|done|]. by intros it _ ?%elem_of_nil.
Qed.

(** X16: on a dict whose values are hashable and pairwise distinct,
    [swap_items] keeps the order of the items and turns each of them around,
    and swapping twice gives the dict back. *)
Theorem swap_items_involutive (self : list (pyval * pyval)) :
  NoDup (map fst self) → forallb hashable (map fst self) = true →
  NoDup (map snd self) → forallb hashable (map snd self) = true →
  DictExt.swap_items self = Ok (map swap self)
  ∧ (let* swapped := DictExt.swap_items self in DictExt.swap_items swapped)
    = Ok self.
Proof.
  intros Hk Hkh Hv Hvh. rewrite swap_items_distinct by done. split; [done|].
  simpl. rewrite swap_items_distinct by by rewrite map_snd_swap.
  by rewrite map_swap_swap.
Qed.

Lemma swap_items_involutive_witness :
  let self := [(PStr "abc", PInt 9); (PStr "de", PInt 4)] in
  DictExt.swap_items self = Ok [(PInt 9, PStr "abc"); (PInt 4, PStr "de")]
  ∧ (let* swapped := DictExt.swap_items self in DictExt.swap_items swapped)
    = Ok self.
Proof.
  apply (swap_items_involutive [(PStr "abc", PInt 9); (PStr "de", PInt 4)]).
  - nodup_solve.
  - reflexivity.
  - nodup_solve.
  - reflexivity.
Defined.

(** X17: with hashable values, [swap_items] returns a dict with one entry
    per distinct value, and the key kept for a value is the one of the last
    item of the dict that has this value: earlier keys of a repeated value
    are lost. *)
Theorem swap_items_last_wins (self : list (pyval * pyval)) :
  forallb hashable (map snd self) = true →
  ∃ d, DictExt.swap_items self = Ok d
     ∧ NoDup (map fst d)
     ∧ ∀ v k, dict_get v d = Some k
              ↔ ∃ before after,
                  self = before ++ (k, v) :: after ∧ v ∉ map snd after.
Proof.
  intros Hhash. exists (dict_build snd fst self []). split_and!.
  - by apply (dict_comprehension_build snd fst).
  - apply dict_build_NoDup. constructor.
  - intros v k. rewrite dict_build_last. split.
    + intros (before & [k' v'] & after & -> & Hv & Hk & Hafter).
      simpl in Hv, Hk. subst. exists before, after. split; [done|].
      intros ([k'' v''] & -> & Hin)%list_elem_of_fmap. by apply (Hafter _ Hin).
    + intros (before & after & -> & Hafter).
      exists before, (k, v), after. split_and!; try done.
      intros it Hit Heq. apply Hafter. rewrite <- Heq.
      apply list_elem_of_fmap. eauto.
Qed.

Lemma swap_items_last_wins_witness :
  ∃ d, DictExt.swap_items [(PStr "a", PInt 1); (PStr "b", PInt 1)] = Ok d
     ∧ NoDup (map fst d)
     ∧ ∀ v k, dict_get v d = Some k
              ↔ ∃ before after,
                  [(PStr "a", PInt 1); (PStr "b", PInt 1)]
                  = before ++ (k, v) :: after ∧ v ∉ map snd after.
Proof.
  apply (swap_items_last_wins [(PStr "a", PInt 1); (PStr "b", PInt 1)]).
  reflexivity.
Defined.

(** X18: [swap_items] raises TypeError as soon as one value of the dict is
    unhashable (a list, or a tuple that holds one). *)
Theorem swap_items_unhashable (self : list (pyval * pyval)) :
  forallb hashable (map snd self) = false →
  DictExt.swap_items self = Raise TypeError.
Proof.
  intros Hhash. by apply (dict_comprehension_unhashable snd fst).
Qed.

Lemma swap_items_unhashable_witness :
  DictExt.swap_items [(PStr "a", PInt 1); (PStr "b", PList [PInt 2])]
  = Raise TypeError.
Proof.
  apply (swap_items_unhashable [(PStr "a", PInt 1); (PStr "b", PList [PInt 2])]).
  reflexivity.
Defined.

(** X19: applied to the values with a function that returns on each of
    them, [apply] keeps the keys and their order and replaces each value by
    its image. *)
Theorem apply_to_values (self : list (pyval * pyval)) (func : pyval → result pyval)
    (g : pyval → pyval) :
  NoDup (map fst self) → forallb hashable (map fst self) = true →
  (∀ kv, kv ∈ self → func kv.2 = Ok (g kv.2)) →
  DictExt.apply self func true = Ok (map (λ kv, (kv.1, g kv.2)) self).
Proof.
  intros Hnd Hhash Hfunc. unfold DictExt.apply.
  rewrite (dict_comprehension_build fst (λ kv, g kv.2)); [|by intros kv ->%Hfunc|done].
  rewrite dict_build_fresh; [done|done|]. by intros it _ ?%elem_of_nil.
Qed.

Lemma apply_to_values_witness :
  DictExt.apply [(PStr "abc", PInt 9)] (λ v, Ok (PStr (py_str v))) true
  = Ok [(PStr "abc", PStr "9")].
Proof.
  apply (apply_to_values [(PStr "abc", PInt 9)] (λ v, Ok (PStr (py_str v)))
           (λ v, PStr (py_str v))).
  - nodup_solve.
  - reflexivity.
  - intros kv Hkv. reflexivity.
Defined.

(** X20: applied to the keys, [apply] returns a dict in which a new key
    holds the value of the last item whose key is mapped to it, so that keys
    with the same image are merged; when the images are pairwise distinct
    nothing is lost and the order is kept. *)
Theorem apply_to_keys (self : list (pyval * pyval)) (func : pyval → result pyval)
    (g : pyval → pyval) :
  (∀ kv, kv ∈ self → func kv.1 = Ok (g kv.1)) →
  forallb hashable (map (λ kv, g kv.1) self) = true →
  ∃ d, DictExt.apply self func false = Ok d
     ∧ NoDup (map fst d)
     ∧ (∀ k v, dict_get k d = Some v
               ↔ ∃ before k0 after,
                   self = before ++ (k0, v) :: after ∧ g k0 = k
                   ∧ ∀ kv, kv ∈ after → g kv.1 ≠ k)
     ∧ (NoDup (map (λ kv, g kv.1) self) →
        d = map (λ kv, (g kv.1, kv.2)) self).
Proof.
  intros Hfunc Hhash. exists (dict_build (λ kv, g kv.1) snd self []). split_and!.
  - unfold DictExt.apply.
    by apply (dict_comprehension_build (λ kv, g kv.1) snd); [intros kv ->%Hfunc|].
  - apply dict_build_NoDup. constructor.
  - intros k v. rewrite dict_build_last. split.
    + intros (before & [k0 v0] & after & -> & Hk & Hv & Hafter).
      simpl in Hk, Hv. subst. by exists before, k0, after.
    + intros (before & k0 & after & -> & Hk & Hafter).
      by exists before, (k0, v), after.
  - intros Hnd. rewrite dict_build_fresh; [done|done|]. by intros it _ ?%elem_of_nil.
Qed.

Lemma apply_to_keys_witness :
  ∃ d, DictExt.apply [(PInt 1, PStr "x"); (PInt 2, PStr "y")]
         (λ k, py_floordiv k (PInt 4)) false = Ok d
     ∧ NoDup (map fst d)
     ∧ (∀ k v, dict_get k d = Some v
               ↔ ∃ before k0 after,
                   [(PInt 1, PStr "x"); (PInt 2, PStr "y")]
                   = before ++ (k0, v) :: after ∧ PInt 0 = k
                   ∧ ∀ kv, kv ∈ after → PInt 0 ≠ k)
     ∧ (NoDup (map (λ kv : pyval * pyval, PInt 0)
                 [(PInt 1, PStr "x"); (PInt 2, PStr "y")]) →
        d = map (λ kv, (PInt 0, kv.2)) [(PInt 1, PStr "x"); (PInt 2, PStr "y")]).
Proof.
  apply (apply_to_keys [(PInt 1, PStr "x"); (PInt 2, PStr "y")]
           (λ k, py_floordiv k (PInt 4)) (λ _, PInt 0)).
  - intros kv [-> | [-> | []%elem_of_nil]%elem_of_cons]%elem_of_cons; reflexivity.
  - reflexivity.
Defined.

(** X21: a failure of the function stops [apply]: the error raised on the
    first item on which it fails is the error of the call, whether the
    function is applied to the values or to the keys. *)
Theorem apply_propagates (before after : list (pyval * pyval)) (k v : pyval)
    (func : pyval → result pyval) (g : pyval → pyval) (e : exn)
    (apply_to_value : bool) :
  forallb hashable
    (map (λ kv, if apply_to_value then kv.1 else g kv.1) before) = true →
  (∀ kv, kv ∈ before →
     func (if apply_to_value then kv.2 else kv.1)
     = Ok (g (if apply_to_value then kv.2 else kv.1))) →
  func (if apply_to_value then v else k) = Raise e →
  DictExt.apply (before ++ (k, v) :: after) func apply_to_value = Raise e.
Proof.
  intros Hhash Hfunc Hv. unfold DictExt.apply. destruct apply_to_value.
  - apply (dict_comprehension_first_raise _ fst (λ kv, g kv.2));
      [|done|by simpl; rewrite Hv].
    by intros kv ->%Hfunc.
  - apply (dict_comprehension_first_raise _ (λ kv, g kv.1) snd);
      [|done|by simpl; rewrite Hv].
    by intros kv ->%Hfunc.
Qed.

Lemma apply_propagates_witness :
  DictExt.apply ([(PStr "a", PInt 2)] ++ (PStr "b", PStr "x") :: [(PStr "c", PInt 5)])
    (λ v, py_add v (PInt 1)) true = Raise TypeError.
Proof.
  apply (apply_propagates [(PStr "a", PInt 2)] [(PStr "c", PInt 5)]
           (PStr "b") (PStr "x") (λ v, py_add v (PInt 1)) (λ _, PInt 3) TypeError
           true).
  - reflexivity.
  - intros kv [-> | []%elem_of_nil]%elem_of_cons. reflexivity.
  - reflexivity.
Defined.

(** *** [group_by_unique] *)

Lemma string_compare_le_trans (a b c : string) :
  String.compare a b ≠ Gt → String.compare b c ≠ Gt → String.compare a c ≠ Gt.
Proof.
  revert b c. induction a as [|x a IH]; intros [|y b] [|z c]; simpl; try done.
  unfold Ascii.compare.
  destruct (N.compare_spec (N_of_ascii x) (N_of_ascii y)),
    (N.compare_spec (N_of_ascii y) (N_of_ascii z)),
    (N.compare_spec (N_of_ascii x) (N_of_ascii z));
    try done; try lia; eauto.
Qed.

Lemma string_ltb_false (s t : string) :
  String.ltb s t = false ↔ String.compare t s ≠ Gt.
Proof.
  unfold String.ltb. rewrite (String.compare_antisym t s).
  destruct (String.compare s t); simpl; split; congruence.
Qed.

Lemma key_ltb_false (k1 k2 : nat * string) :
  ListExt.key_ltb k1 k2 = false
  ↔ (k2.1 < k1.1)%nat ∨ (k2.1 = k1.1 ∧ String.compare k2.2 k1.2 ≠ Gt).
Proof.
  unfold ListExt.key_ltb.
  rewrite orb_false_iff, andb_false_iff, Nat.ltb_ge, Nat.eqb_neq, string_ltb_false.
  destruct (decide (k1.1 = k2.1)); split; intros ?; intuition lia.
Qed.

Section KeyOrder.
Context {A T : Type} `{Countable T} (type_of : A → T) (str : A → string).
Context (tw : gmap T nat).

Lemma in_order_key_trans : Transitive (in_order (key_lt type_of str tw)).
Proof.
  intros a b c. unfold in_order, key_lt. rewrite !key_ltb_false.
  intros [Hab|[Hab Hsab]] [Hbc|[Hbc Hsbc]]; try (left; lia).
  right. split; [lia|]. by eapply string_compare_le_trans.
Qed.

Lemma in_order_key_antisym (a b : A) :
  in_order (key_lt type_of str tw) a b → in_order (key_lt type_of str tw) b a →
  tw !!! type_of a = tw !!! type_of b ∧ str a = str b.
Proof.
  unfold in_order, key_lt. rewrite !key_ltb_false. simpl.
  intros [Hab|[Hab Hsab]] [Hba|[Hba Hsba]]; try lia.
  split; [done|]. apply String.compare_eq_iff.
  rewrite (String.compare_antisym (str b) (str a)) in Hsba.
  destruct (String.compare (str a) (str b)); simpl in *; congruence.
Qed.
End KeyOrder.

(** Once the value changes, the earlier value does not come back. *)
Definition clustered {A} (l : list A) : Prop :=
  ∀ p x y r, l = p ++ x :: y :: r → x ≠ y → x ∉ r.

Lemma clustered_suffix {A} (p l : list A) : clustered (p ++ l) → clustered l.
Proof.
  intros Hc q x y r -> Hne. apply (Hc (p ++ q) x y r); [|done].
  by rewrite <- app_assoc.
Qed.

Lemma sorted_clustered {A} (R : A → A → Prop) (l : list A) :
  StronglySorted R l →
  (∀ a b, a ∈ l → b ∈ l → R a b → R b a → a = b) →
  clustered l.
Proof.
  intros Hs Hanti p x y r -> Hne Hx.
  apply StronglySorted_app_1_r in Hs as Hs'.
  apply StronglySorted_inv in Hs' as [Hs' Hall].
  apply Forall_cons in Hall as [Hxy _].
  apply StronglySorted_inv in Hs' as [_ Hall].
  rewrite Forall_forall in Hall. specialize (Hall x Hx).
  apply Hne, Hanti; try done.
  - apply elem_of_app. right. by left.
  - apply elem_of_app. right. right. by left.
Qed.

Lemma rev_replicate {A} (n : nat) (x : A) : rev (replicate n x) = replicate n x.
Proof.
  induction n as [|n IH]; simpl; [done|].
  rewrite IH. symmetry. apply replicate_cons_app.
Qed.

Lemma groupby_acc_concat {A} (eqb : A → A → bool) (tgt : A) (cur l : list A) :
  concat (groupby_acc eqb tgt cur l) = rev cur ++ l.
Proof.
  revert tgt cur. induction l as [|e l IH]; intros tgt cur; simpl.
  - done.
  - destruct (eqb tgt e); simpl; rewrite IH; simpl; [|done].
    by rewrite <- app_assoc.
Qed.

Lemma groupby_concat {A} (eqb : A → A → bool) (l : list A) :
  concat (groupby eqb l) = l.
Proof. destruct l as [|x l]; simpl; [done|]. by rewrite groupby_acc_concat. Qed.

Definition copies (x : pyval) (l : list pyval) : list pyval :=
  replicate (Z.to_nat (occurrences_of x l)) x.

Lemma occurrences_of_app x l1 l2 :
  occurrences_of x (l1 ++ l2) = occurrences_of x l1 + occurrences_of x l2.
Proof. unfold occurrences_of. rewrite filter_app, length_app. lia. Qed.

Lemma occurrences_of_replicate x n :
  occurrences_of x (replicate n x) = Z.of_nat n.
Proof.
  unfold occurrences_of. induction n as [|n IH]; simpl; [done|].
  rewrite filter_cons_True by done. simpl. lia.
Qed.

Lemma occurrences_of_absent x l : x ∉ l → occurrences_of x l = 0.
Proof.
  unfold occurrences_of. induction l as [|y l IH]; [done|].
  intros [Hne Hl]%not_elem_of_cons. rewrite filter_cons_False by done. by apply IH.
Qed.

Lemma groupby_acc_groups (tgt : pyval) (n : nat) (l : list pyval) :
  clustered (replicate (S n) tgt ++ l) →
  ∀ g, g ∈ groupby_acc py_eqb tgt (replicate (S n) tgt) l →
       ∃ x, x ∈ replicate (S n) tgt ++ l ∧ g = copies x (replicate (S n) tgt ++ l).
Proof.
  revert tgt n. induction l as [|e l IH]; intros tgt n Hc g Hg.
  - cbn [groupby_acc] in Hg. apply list_elem_of_singleton in Hg.
    rewrite rev_replicate in Hg. exists tgt. split.
    + rewrite app_nil_r. simpl. by left.
    + unfold copies. rewrite app_nil_r, occurrences_of_replicate.
      by rewrite Nat2Z.id.
  - cbn [groupby_acc] in Hg. destruct (py_eqb tgt e) eqn:He.
    + apply py_eqb_eq in He as <-.
      assert (replicate (S n) tgt ++ tgt :: l = replicate (S (S n)) tgt ++ l) as Heq.
      { change (tgt :: l) with ([tgt] ++ l). rewrite app_assoc.
        by rewrite <- replicate_cons_app. }
      rewrite Heq. apply IH; [by rewrite <- Heq|done].
    + apply py_eqb_neq in He.
      assert (tgt ∉ e :: l) as Habsent.
      { apply not_elem_of_cons. split; [done|].
        apply (Hc (replicate n tgt) tgt e l); [|done].
        rewrite replicate_S_end. by rewrite <- app_assoc. }
      apply elem_of_cons in Hg as [->|Hg].
      * exists tgt. split; [by left|].
        unfold copies. rewrite rev_replicate, occurrences_of_app.
        rewrite occurrences_of_replicate, occurrences_of_absent by done.
        by rewrite Z.add_0_r, Nat2Z.id.
      * apply (IH e 0%nat) in Hg as (x & Hx & ->);
          [|by apply clustered_suffix in Hc].
        change (replicate 1 e ++ l) with (e :: l) in *.
        exists x. split; [apply elem_of_app; by right|].
        unfold copies. rewrite (occurrences_of_app x (replicate (S n) tgt)).
        rewrite (occurrences_of_absent x (replicate (S n) tgt)); [done|].
        intros [-> _]%elem_of_replicate. by apply Habsent.
Qed.

Lemma groupby_groups (l : list pyval) :
  clustered l → ∀ g, g ∈ groupby py_eqb l → ∃ x, x ∈ l ∧ g = copies x l.
Proof.
  destruct l as [|x l]; simpl; [by intros _ g ?%elem_of_nil|].
  intros Hc g Hg. by apply (groupby_acc_groups x 0).
Qed.

(** None, an integer or a string: the items whose [(type, str)] key tells
    them apart. *)
Definition scalar (x : pyval) : bool :=
  match x with
  | PList _ | PTuple _ => false
  | _ => true
  end.

Lemma scalar_key_inj (x y : pyval) :
  scalar x = true → scalar y = true →
  type_of x = type_of y → py_str x = py_str y → x = y.
Proof.
  destruct x, y; simpl; try done.
  - intros _ _ _ Heq. f_equal. by apply (inj pretty) in Heq.
  - intros _ _ _ ->. done.
Qed.

Lemma occurrences_of_perm x l1 l2 :
  l1 ≡ₚ l2 → occurrences_of x l1 = occurrences_of x l2.
Proof. unfold occurrences_of. by intros ->. Qed.

(** X22: on a list of integers, strings and None, [group_by_unique] returns
    one group per distinct item, made of all the occurrences of this item;
    the groups follow the order of [sorts], so that chaining them gives the
    sorted list. *)
Theorem group_by_unique_groups (self : list pyval) :
  forallb scalar self = true →
  concat (ListExt.group_by_unique self) = ListExt.sorts_py self false
  ∧ (∀ g, g ∈ ListExt.group_by_unique self → ∃ x, x ∈ self ∧ g = copies x self)
  ∧ (∀ x, x ∈ self → copies x self ∈ ListExt.group_by_unique self).
Proof.
  intros Hscalar. unfold ListExt.group_by_unique.
  set (o := ListExt.sorts_py self false).
  assert (o ≡ₚ self) as Hperm by apply sorted_asc_perm.
  assert (∀ g, g ∈ groupby py_eqb o → ∃ x, x ∈ self ∧ g = copies x self) as Hgroups.
  { intros g Hg. apply groupby_groups in Hg as (x & Hx & ->).
    - exists x. split; [by rewrite <- Hperm|].
      unfold copies. by rewrite (occurrences_of_perm x o self).
    - apply (sorted_clustered
               (in_order (key_lt type_of py_str (ListExt.type_weights_of type_of self)))).
      + apply Sorted_StronglySorted; [apply in_order_key_trans|].
        apply sorted_asc_Sorted, lt_by_asym.
      + intros a b Ha Hb Hab Hba. rewrite Hperm in Ha, Hb.
        destruct (in_order_key_antisym _ _ _ a b Hab Hba) as [Hrank Hstr].
        rewrite forallb_forall in Hscalar.
        apply scalar_key_inj; try done.
        * apply Hscalar. by apply list_elem_of_In.
        * apply Hscalar. by apply list_elem_of_In.
        * by apply (weights_inj type_of self). }
  split_and!; [apply groupby_concat|done|].
  intros x Hx. rewrite <- Hperm in Hx.
  rewrite <- (groupby_concat py_eqb o) in Hx.
  apply list_elem_of_In, in_concat in Hx as (g & Hg & Hxg).
  apply list_elem_of_In in Hg, Hxg.
  destruct (Hgroups g Hg) as (y & Hy & ->).
  unfold copies in Hxg. apply elem_of_replicate in Hxg as [-> _]. done.
Qed.

Lemma group_by_unique_groups_witness :
  let self := map PInt [1; 2; 3; 1; 3; 3; 2] in
  concat (ListExt.group_by_unique self) = ListExt.sorts_py self false
  ∧ (∀ g, g ∈ ListExt.group_by_unique self → ∃ x, x ∈ self ∧ g = copies x self)
  ∧ (∀ x, x ∈ self → copies x self ∈ ListExt.group_by_unique self).
Proof.
  apply (group_by_unique_groups (map PInt [1; 2; 3; 1; 3; 3; 2])). reflexivity.
Defined.

(** *** [analyze] *)

Lemma extremum_fold_member better (l : list pyval) (x m : pyval) :
  fold_left (extremum_step better) l (Ok x) = Ok m → m ∈ x :: l.
Proof.
  revert x. induction l as [|y l IH]; intros x; simpl.
  - intros [= ->]. by left.
  - destruct (better y x) as [c|e]; simpl.
    + intros Hm. apply IH in Hm.
      apply elem_of_cons in Hm as [->|Hm]; [|right; by right].
      destruct c; [right; by left|by left].
    + by rewrite extremum_fold_raise.
Qed.

Lemma extremum_outcome better name (l : list pyval) :
  comparison better →
  match extremum better name l with
  | Ok m => m ∈ l ∧ ∀ y, y ∈ l → type_of y = type_of m
  | Raise e =>
      e = TypeError
      ∨ (l = [] ∧ e = ValueError (name +:+ "() arg is an empty sequence"))
  end.
Proof.
  intros Hcmp. destruct l as [|x l]; simpl; [by right|].
  pose proof (extremum_fold better l x Hcmp) as Hfold.
  pose proof (extremum_fold_member better l x) as Hmem.
  change (fold_left _ l (Ok x)) with (fold_left (extremum_step better) l (Ok x)).
  destruct (fold_left _ l _) as [m|e]; [|by left].
  destruct Hfold as [Hm Hall]. split; [by apply Hmem|].
  rewrite Forall_forall in Hall.
  intros y [->|Hy]%elem_of_cons; [done|]. rewrite Hm. by apply Hall.
Qed.

(** X23: on a non-empty dict of integers [analyze] returns the greatest and
    the least value, both values of the dict, each with the items that hold
    it, in the order of the dict. *)
Theorem analyze_integers {K} (items : list (K * Z)) :
  items ≠ [] →
  ∃ M m,
    DictExt.analyze (map (λ kz, (kz.1, PInt kz.2)) items)
    = Ok (DictExt.MkDictAnalyzeResult K (PInt M) (PInt m)
            (filter (λ kv, py_eqb kv.2 (PInt M) = true)
               (map (λ kz, (kz.1, PInt kz.2)) items))
            (filter (λ kv, py_eqb kv.2 (PInt m) = true)
               (map (λ kz, (kz.1, PInt kz.2)) items)))
    ∧ M ∈ map snd items ∧ m ∈ map snd items
    ∧ ∀ z, z ∈ map snd items → m ≤ z ≤ M.
Proof.
  destruct items as [|[k0 z0] items]; [done|]. intros _.
  destruct (analyze_ints k0 z0 items) as [Hbounds Hanalyze].
  exists (fold_left Z.max (map snd items) z0), (fold_left Z.min (map snd items) z0).
  split_and!.
  - exact Hanalyze.
  - destruct (fold_left_max (map snd items) z0) as ([-> |Hin] & _);
      [by left|by right].
  - destruct (fold_left_min (map snd items) z0) as ([-> |Hin] & _);
      [by left|by right].
  - intros z ([k z'] & -> & Hin)%list_elem_of_fmap. by apply (Hbounds (k, z')).
Qed.

Lemma analyze_integers_witness :
  ∃ M m,
    DictExt.analyze
      (map (λ kz, (kz.1, PInt kz.2)) [("abc", 9); ("def", 9); ("ghi", 8); ("jkl", 1)])
    = Ok (DictExt.MkDictAnalyzeResult string (PInt M) (PInt m)
            (filter (λ kv, py_eqb kv.2 (PInt M) = true)
               (map (λ kz, (kz.1, PInt kz.2))
                  [("abc", 9); ("def", 9); ("ghi", 8); ("jkl", 1)]))
            (filter (λ kv, py_eqb kv.2 (PInt m) = true)
               (map (λ kz, (kz.1, PInt kz.2))
                  [("abc", 9); ("def", 9); ("ghi", 8); ("jkl", 1)])))
    ∧ M ∈ map snd [("abc", 9); ("def", 9); ("ghi", 8); ("jkl", 1)]
    ∧ m ∈ map snd [("abc", 9); ("def", 9); ("ghi", 8); ("jkl", 1)]
    ∧ ∀ z, z ∈ map snd [("abc", 9); ("def", 9); ("ghi", 8); ("jkl", 1)] → m ≤ z ≤ M.
Proof.
  apply (analyze_integers [("abc", 9); ("def", 9); ("ghi", 8); ("jkl", 1)]).
  discriminate.
Defined.

(** X24: as soon as two values of the dict have different types, [analyze]
    raises ValueError with its own message, whatever the other values are. *)
Theorem analyze_rejects_mixed_types {K} (self : list (K * pyval)) (kv1 kv2 : K * pyval) :
  kv1 ∈ self → kv2 ∈ self → type_of kv1.2 ≠ type_of kv2.2 →
  DictExt.analyze self = Raise (ValueError "Value must be int or float")
  ∧ DictExt.analyze (reverse self) = Raise (ValueError "Value must be int or float").
Proof.
  intros H1 H2 Hne. split.
  - by apply (analyze_mixed_types self kv1 kv2).
  - apply (analyze_mixed_types (reverse self) kv1 kv2); [| |done];
      by apply elem_of_reverse.
Qed.

Lemma analyze_rejects_mixed_types_witness :
  DictExt.analyze [("a", PInt 1); ("b", PStr "x")]
  = Raise (ValueError "Value must be int or float")
  ∧ DictExt.analyze (reverse [("a", PInt 1); ("b", PStr "x")])
    = Raise (ValueError "Value must be int or float").
Proof.
  apply (analyze_rejects_mixed_types [("a", PInt 1); ("b", PStr "x")]
           ("a", PInt 1) ("b", PStr "x")).
  - by left.
  - right. by left.
  - discriminate.
Defined.

(** X25: the outcomes of [analyze] on a dict whose values are of the types
    None, int, str, list and tuple (floats and booleans excluded, nested
    items included). It never raises TypeError: a failure is its own
    ValueError, or the ValueError of [max] when the dict is empty. When it
    returns, both values are values of the dict, all values have one of
    these types, the same for all, and neither list is empty. *)
Theorem analyze_outcome {K} (self : list (K * pyval)) :
  match DictExt.analyze self with
  | Ok r =>
      (∃ kv, kv ∈ self ∧ kv.2 = DictExt.max_value r ∧ kv ∈ DictExt.max_list r)
      ∧ (∃ kv, kv ∈ self ∧ kv.2 = DictExt.min_value r ∧ kv ∈ DictExt.min_list r)
      ∧ (∀ kv, kv ∈ self → type_of kv.2 = type_of (DictExt.max_value r))
      ∧ (∀ kv, kv ∈ DictExt.max_list r ↔ kv ∈ self ∧ kv.2 = DictExt.max_value r)
      ∧ (∀ kv, kv ∈ DictExt.min_list r ↔ kv ∈ self ∧ kv.2 = DictExt.min_value r)
  | Raise e =>
      e = ValueError "Value must be int or float"
      ∨ (self = [] ∧ e = ValueError "max() arg is an empty sequence")
  end.
Proof.
  unfold DictExt.analyze, py_max, py_min.
  pose proof (extremum_outcome py_gt "max" (map snd self) py_gt_comparison) as Hmax.
  pose proof (extremum_outcome py_lt "min" (map snd self) py_lt_comparison) as Hmin.
  destruct (extremum py_gt "max" (map snd self)) as [M|e]; simpl.
  2: { destruct Hmax as [->|[Hnil ->]]; simpl; [by left|].
       right. split; [|done]. by destruct self. }
  destruct (extremum py_lt "min" (map snd self)) as [m|e]; simpl.
  2: { destruct Hmin as [->|[Hnil ->]]; simpl; [by left|].
       destruct Hmax as [HM _]. rewrite Hnil in HM. by apply elem_of_nil in HM. }
  destruct Hmax as [(kvM & -> & HkvM)%list_elem_of_fmap HtyM].
  destruct Hmin as [(kvm & -> & Hkvm)%list_elem_of_fmap Htym].
  assert (∀ v kv, kv ∈ filter (λ kv, py_eqb kv.2 v = true) self ↔ kv ∈ self ∧ kv.2 = v)
    as Hfilter.
  { intros v kv. rewrite list_elem_of_filter, py_eqb_eq. tauto. }
  split_and!.
  - exists kvM. split_and!; [done|done|]. by apply Hfilter.
  - exists kvm. split_and!; [done|done|]. by apply Hfilter.
  - intros kv Hkv. apply HtyM. apply list_elem_of_fmap. eauto.
  - apply Hfilter.
  - apply Hfilter.
Qed.

(** *** [aggregate] *)

Section AggregateMore.
Context {K : Type} `{Countable K}.

Lemma aggregate_lookup (self other_dict : gmap K pyval) d f :
  (∀ k, only_type_errors self other_dict d f k) →
  ∃ m, DictExt.aggregate self other_dict d f = Ok m
     ∧ ∀ k, m !! k = if decide (k ∈ dom self ∪ dom other_dict)
                     then Some (aggregated self other_dict d f k) else None.
Proof.
  intros Honly. unfold DictExt.aggregate, DictExt.aggregate_loop.
  destruct (aggregate_loop_ok self other_dict d f
              (elements (dom self ∪ dom other_dict)) (λ k _, Honly k) ∅)
    as (m & Hm & Hin & Hout).
  exists m. split; [done|]. intros k.
  destruct (decide (k ∈ dom self ∪ dom other_dict)) as [Hk|Hk].
  - apply Hin. by apply elem_of_elements.
  - rewrite Hout by by rewrite elem_of_elements. apply lookup_empty.
Qed.

Lemma aggregated_add_integers (a b : gmap K Z) (d : Z) (k : K) :
  aggregated (PInt <$> a) (PInt <$> b) (PInt d) py_add k
  = PInt (default d (a !! k) + default d (b !! k)).
Proof.
  unfold aggregated. rewrite !lookup_fmap.
  by destruct (a !! k), (b !! k).
Qed.

(** X26: with the default operator [operator.add], two dicts of integers
    and an integer default, [aggregate] returns the dict over the union of
    the keys that holds at each key the sum of the two values, the default
    standing for a missing one; exchanging the two dicts gives the same
    dict. *)
Theorem aggregate_add_integers (a b : gmap K Z) (d : Z) :
  ∃ m, DictExt.aggregate (PInt <$> a) (PInt <$> b) (PInt d) py_add = Ok m
     ∧ dom m = dom a ∪ dom b
     ∧ (∀ k, k ∈ dom a ∪ dom b →
          m !! k = Some (PInt (default d (a !! k) + default d (b !! k))))
     ∧ DictExt.aggregate (PInt <$> b) (PInt <$> a) (PInt d) py_add = Ok m.
Proof.
  destruct (aggregate_lookup (PInt <$> a) (PInt <$> b) (PInt d) py_add)
    as (m & Hm & Hlookup).
  { intros k e. apply py_add_raises. }
  destruct (aggregate_lookup (PInt <$> b) (PInt <$> a) (PInt d) py_add)
    as (m' & Hm' & Hlookup').
  { intros k e. apply py_add_raises. }
  exists m. split_and!; [done| | |].
  - apply set_eq. intros k. rewrite elem_of_dom, Hlookup, !dom_fmap_L.
    destruct (decide (k ∈ dom a ∪ dom b)); split; try done; eauto.
  - intros k Hk. rewrite Hlookup, !dom_fmap_L.
    rewrite decide_True by done. by rewrite aggregated_add_integers.
  - rewrite Hm'. f_equal. apply map_eq. intros k.
    rewrite Hlookup, Hlookup', !dom_fmap_L, !aggregated_add_integers.
    destruct (decide (k ∈ dom a ∪ dom b)) as [Hk|Hk].
    + rewrite decide_True by (apply elem_of_union; apply elem_of_union in Hk; tauto).
      do 2 f_equal. lia.
    + rewrite decide_False; [done|].
      intros Hk'. apply Hk. apply elem_of_union. apply elem_of_union in Hk'. tauto.
Qed.

(** X27: an error of the operator other than TypeError, raised at the
    values of some key of the union, is not caught: the call raises, and
    what it raises is such an error of the operator at a key of the union. *)
Theorem aggregate_propagates_error (self other_dict : gmap K pyval) d f k e :
  k ∈ dom self ∪ dom other_dict →
  f (default d (self !! k)) (default d (other_dict !! k)) = Raise e →
  e ≠ TypeError →
  ∃ k' e', k' ∈ dom self ∪ dom other_dict
         ∧ f (default d (self !! k')) (default d (other_dict !! k')) = Raise e'
         ∧ e' ≠ TypeError
         ∧ DictExt.aggregate self other_dict d f = Raise e'.
Proof.
  intros Hk Hf He. unfold DictExt.aggregate, DictExt.aggregate_loop.
  assert (∀ ks merged, k ∈ ks →
    ∃ k' e', k' ∈ ks
      ∧ f (default d (self !! k')) (default d (other_dict !! k')) = Raise e'
      ∧ e' ≠ TypeError
      ∧ fold_left (λ acc k,
          let* merged_output := acc in
          DictExt.aggregate_step self other_dict d f merged_output k) ks (Ok merged)
        = Raise e') as Hloop.
  { induction ks as [|k0 ks IH]; intros merged Hin; [by apply elem_of_nil in Hin|].
    simpl. unfold DictExt.aggregate_step at 2.
    destruct (f (default d (self !! k0)) (default d (other_dict !! k0)))
      as [v|e0] eqn:Hf0; simpl.
    - apply elem_of_cons in Hin as [->|Hin]; [congruence|].
      destruct (IH (<[k0:=v]> merged) Hin) as (k' & e' & Hk' & Hf' & He' & Hfold).
      exists k', e'. split_and!; try done. by right.
    - assert (e0 = TypeError ∨ e0 ≠ TypeError) as [-> | He0]
        by (destruct e0; (by left) || (by right)); simpl.
      + apply elem_of_cons in Hin as [->|Hin]; [congruence|].
        destruct (IH (<[k0:=PList [default d (self !! k0);
                                   default d (other_dict !! k0)]]> merged) Hin)
          as (k' & e' & Hk' & Hf' & He' & Hfold).
        exists k', e'. split_and!; try done. by right.
      + exists k0, e0. split_and!; [by left|done|done|].
        destruct e0; try done; simpl; apply aggregate_fold_raise. }
  destruct (Hloop (elements (dom self ∪ dom other_dict)) ∅)
    as (k' & e' & Hk' & Hrest); [by apply elem_of_elements|].
  exists k', e'. split; [by apply elem_of_elements in Hk'|done].
Qed.
End AggregateMore.

Lemma aggregate_propagates_error_witness :
  ∃ k' e', k' ∈ dom ({[ "a" := PInt 1 ]} : gmap string pyval) ∪ dom (∅ : gmap string pyval)
         ∧ py_floordiv (default (PInt 0) (({[ "a" := PInt 1 ]} : gmap string pyval) !! k'))
             (default (PInt 0) ((∅ : gmap string pyval) !! k')) = Raise e'
         ∧ e' ≠ TypeError
         ∧ DictExt.aggregate ({[ "a" := PInt 1 ]} : gmap string pyval) ∅ (PInt 0)
             py_floordiv = Raise e'.
Proof.
  apply (aggregate_propagates_error ({[ "a" := PInt 1 ]} : gmap string pyval) ∅
           (PInt 0) py_floordiv "a" ZeroDivisionError).
  - apply elem_of_union. left. apply elem_of_dom. exists (PInt 1).
    vm_compute. reflexivity.
  - vm_compute. reflexivity.
  - discriminate.
Defined.

(** *** [split_chunk]: the number of chunks *)

Lemma concat_length_chunks {A} (K : Z) (body : list (list A)) :
  Forall (λ c, Z.of_nat (length c) = K) body →
  Z.of_nat (length (concat body)) = Z.of_nat (length body) * K.
Proof.
  induction 1 as [|c body Hc _ IH]; simpl; [done|].
  rewrite length_app. lia.
Qed.

Lemma split_chunk_length {A} (s : list A) (chunk_size : Z)
    (h : gmap ListExt.loc (list Z)) :
  Z.of_nat (length (ListExt.split_chunk s chunk_size h).1)
  = Z.max 1 ((Z.of_nat (length s) + Z.max chunk_size 1 - 1) / Z.max chunk_size 1).
Proof.
  unfold ListExt.split_chunk.
  rewrite slice_points_pairs, lookup_total_insert_eq, slice_tail.
  set (K := Z.max chunk_size 1). set (n := Z.of_nat (length s)).
  assert (0 < K) as HK by lia.
  rewrite range_from_zero by done.
  assert (0 ≤ (n + K - 1) / K) as Hq by (apply Z.div_pos; lia).
  rewrite length_map, length_zip_with, length_app. simpl length.
  rewrite length_map, length_seq. lia.
Qed.

Lemma split_chunk_body {A} (s : list A) (chunk_size : Z)
    (h : gmap ListExt.loc (list Z)) :
  ∃ body last,
    (ListExt.split_chunk s chunk_size h).1 = body ++ [last]
    ∧ Forall (λ c, Z.of_nat (length c) = Z.max chunk_size 1) body
    ∧ Z.of_nat (length last) ≤ Z.max chunk_size 1
    ∧ Z.of_nat (length s)
      = Z.of_nat (length body) * Z.max chunk_size 1 + Z.of_nat (length last)
    ∧ Z.of_nat (length body) + 1
      = Z.max 1 ((Z.of_nat (length s) + Z.max chunk_size 1 - 1)
                 / Z.max chunk_size 1).
Proof.
  pose proof (split_chunk_length s chunk_size h) as Hlen.
  destruct (split_chunk_chunks s chunk_size h)
    as (Hcat & body & last & Hch & Hbody & Hlast).
  exists body, last. split_and!; [done..| |].
  - rewrite <- Hcat at 1. rewrite Hch, concat_app, length_app. simpl.
    rewrite app_nil_r, Nat2Z.inj_add.
    by rewrite (concat_length_chunks (Z.max chunk_size 1) body).
  - rewrite <- Hlen, Hch, length_app. simpl. lia.
Qed.

Lemma split_chunk_no_empty_chunk {A} (s : list A) (chunk_size : Z)
    (h : gmap ListExt.loc (list Z)) :
  s ≠ [] → Forall (λ c, c ≠ []) (ListExt.split_chunk s chunk_size h).1.
Proof.
  intros Hne.
  destruct (split_chunk_body s chunk_size h)
    as (body & last & -> & Hbody & Hlast & Hn & Hcount).
  set (K := Z.max chunk_size 1) in *. set (n := Z.of_nat (length s)) in *.
  assert (0 < K) as HK by lia.
  apply Forall_app. split.
  - eapply Forall_impl; [exact Hbody|]. simpl. intros c Hc ->. simpl in Hc. lia.
  - constructor; [|constructor]. intros ->. simpl in Hn.
    assert (0 < n) as Hpos by (unfold n; destruct s; [done|simpl; lia]).
    pose proof (Z.mul_div_le (n + K - 1) K HK) as Hle.
    assert (1 ≤ (n + K - 1) / K) as Hq by (apply Z.div_le_lower_bound; lia).
    assert (Z.of_nat (length body) = (n + K - 1) / K - 1) as Hb by lia.
    rewrite Hb in Hn. nia.
Qed.

(** X28: [split_chunk] returns [max(1, ceil(len(s) / k))] chunks for
    [k = max(chunk_size, 1)]: one empty chunk for the empty list, and no
    empty chunk otherwise. The list of slice points is an object of its
    own, so that no list of the caller is changed. *)
Theorem split_chunk_count {A} (s : list A) (chunk_size : Z)
    (h : gmap ListExt.loc (list Z)) :
  Z.of_nat (length (ListExt.split_chunk s chunk_size h).1)
  = Z.max 1 ((Z.of_nat (length s) + Z.max chunk_size 1 - 1) / Z.max chunk_size 1)
  ∧ (s = [] → (ListExt.split_chunk s chunk_size h).1 = [[]])
  ∧ (s ≠ [] → Forall (λ c, c ≠ []) (ListExt.split_chunk s chunk_size h).1)
  ∧ (∀ p, p ∈ dom h → (ListExt.split_chunk s chunk_size h).2 !! p = h !! p).
Proof.
  split_and!.
  - apply split_chunk_length.
  - intros ->.
    destruct (split_chunk_body (@nil A) chunk_size h)
      as (body & last & -> & Hbody & Hlast & Hn & Hcount).
    simpl in Hn.
    assert (length body = 0%nat ∧ length last = 0%nat) as [Hb Hl] by nia.
    destruct body, last; simpl in *; try lia. done.
  - apply split_chunk_no_empty_chunk.
  - intros p Hp. unfold ListExt.split_chunk, ListExt.slice_points. simpl.
    rewrite !lookup_insert_ne; [done| |];
      intros <-; by apply (is_fresh (dom h)).
Qed.

(** *** [SphinxDocstring]: the indentation of the version notes *)

Fixpoint char_count (c : ascii) (s : string) : Z :=
  match s with
  | EmptyString => 0
  | String a s' => (if Ascii.eqb a c then 1 else 0) + char_count c s'
  end.

Lemma string_append_cons (c : ascii) (s1 s2 : string) :
  String c s1 +:+ s2 = String c (s1 +:+ s2).
Proof. reflexivity. Qed.

Lemma string_append_assoc (s1 s2 s3 : string) :
  (s1 +:+ s2) +:+ s3 = s1 +:+ s2 +:+ s3.
Proof.
  induction s1 as [|c s1 IH]; [done|].
  rewrite !string_append_cons. f_equal. exact IH.
Qed.

(** The loop stops at the first character that is no white space: it has
    counted the blanks before it, and four for every tab. *)
Lemma white_space_loop_lead (res : Z) (lead : string) (c : ascii) (rest : string) :
  forallb isspace (list_ascii_of_string lead) = true → isspace c = false →
  Docstring.white_space_loop res (lead +:+ String c rest)
  = res + char_count " " lead + 4 * char_count Docstring.tab lead.
Proof.
  intros Hlead Hc. revert res Hlead.
  induction lead as [|a lead IH]; intros res Hlead.
  - change ("" +:+ String c rest) with (String c rest).
    cbn [char_count Docstring.white_space_loop].
    assert (Ascii.eqb c " " = false) as ->.
    { apply Ascii.eqb_neq. intros ->. by vm_compute in Hc. }
    assert (Ascii.eqb c Docstring.tab = false) as ->.
    { apply Ascii.eqb_neq. intros ->. by vm_compute in Hc. }
    rewrite Hc. cbn [negb]. lia.
  - cbn [list_ascii_of_string forallb] in Hlead.
    apply andb_true_iff in Hlead as [Ha Hlead].
    rewrite string_append_cons.
    cbn [char_count Docstring.white_space_loop].
    rewrite Ha. cbn [negb]. rewrite IH by done.
    destruct (Ascii.eqb a " "), (Ascii.eqb a Docstring.tab); lia.
Qed.

(** X29: for a docstring whose first character that is no white space comes
    after [lead], the note is indented by the number of blanks of [lead] plus
    four for each of its tabs, line breaks counting for nothing; the note is
    appended to the docstring, and a second decorator on top of the first
    computes the same indentation and appends its note after the first. *)
Theorem version_notes_stack (version1 version2 : string) (reason1 reason2 : option string)
    (mode1 mode2 : Docstring.SphinxDocstringMode)
    (lead : string) (c : ascii) (rest : string) :
  forallb isspace (list_ascii_of_string lead) = true →
  isspace c = false →
  let doc := lead +:+ String c rest in
  let n := char_count " " lead + 4 * char_count Docstring.tab lead in
  Docstring._calculate_white_space (Some doc) = n
  ∧ Docstring.decorated_doc version1 reason1 mode1 (Some doc)
    = doc +:+ Docstring._generate_version_note version1 reason1 mode1 n
  ∧ Docstring.decorated_doc version2 reason2 mode2
      (Some (Docstring.decorated_doc version1 reason1 mode1 (Some doc)))
    = doc +:+ Docstring._generate_version_note version1 reason1 mode1 n
          +:+ Docstring._generate_version_note version2 reason2 mode2 n.
Proof.
  intros Hlead Hc doc n.
  assert (∀ suffix, Docstring._calculate_white_space (Some (doc +:+ suffix)) = n)
    as Hws.
  { intros suffix. unfold Docstring._calculate_white_space, doc.
    rewrite string_append_assoc, string_append_cons.
    rewrite white_space_loop_lead by done. unfold n. lia. }
  assert (Docstring._calculate_white_space (Some doc) = n) as Hdoc.
  { unfold Docstring._calculate_white_space, doc.
    rewrite white_space_loop_lead by done. unfold n. lia. }
  split_and!; [done| |].
  - unfold Docstring.decorated_doc. by rewrite Hdoc.
  - unfold Docstring.decorated_doc. rewrite Hdoc. cbn [default].
    rewrite Hws. unfold id. by rewrite string_append_assoc.
Qed.

Lemma version_notes_stack_witness :
  let doc := "    Aggregates the values." in
  Docstring._calculate_white_space (Some doc) = 4
  ∧ Docstring.decorated_doc "3.4.0" None Docstring.ADDED (Some doc)
    = doc +:+ Docstring._generate_version_note "3.4.0" None Docstring.ADDED 4
  ∧ Docstring.decorated_doc "5.0.0" (Some "Updated") Docstring.CHANGED
      (Some (Docstring.decorated_doc "3.4.0" None Docstring.ADDED (Some doc)))
    = doc +:+ Docstring._generate_version_note "3.4.0" None Docstring.ADDED 4
          +:+ Docstring._generate_version_note "5.0.0" (Some "Updated")
                Docstring.CHANGED 4.
Proof.
  apply (version_notes_stack "3.4.0" "5.0.0" None (Some "Updated")
           Docstring.ADDED Docstring.CHANGED "    " "A" "ggregates the values.").
  - reflexivity.
  - reflexivity.
Defined.

(** *** [wrap_to_column]: the width of the rows *)

Lemma is_max_len_exists (self : list string) : self ≠ [] → ∃ M, is_max_len self M.
Proof.
  destruct self as [|x self]; [done|]. intros _.
  set (len := λ x : string, Z.of_nat (String.length x)).
  destruct (fold_left_max (map len self) (len x)) as (Hin & Hge & Hall).
  exists (fold_left Z.max (map len self) (len x)). split.
  - destruct Hin as [Hin|(y & Hy & Hin)%list_elem_of_fmap].
    + exists x. split; [by left|done].
    + exists y. split; [by right|done].
  - intros y [->|Hy]%elem_of_cons; [done|].
    apply Hall, list_elem_of_fmap. eauto.
Qed.

Lemma ljust_length (x : string) (cell : Z) :
  Z.of_nat (String.length x) < cell →
  Z.of_nat (String.length (ljust x cell)) = cell.
Proof.
  intros Hlt. rewrite ljust_pad_right by done. unfold pad_right.
  rewrite string_length_append, spaces_length. lia.
Qed.

Lemma row_length (cell : Z) (row : list string) :
  Forall (λ x, Z.of_nat (String.length x) < cell) row →
  Z.of_nat (String.length (join "" (map (λ x, ljust x cell) row)))
  = Z.of_nat (length row) * cell.
Proof.
  induction 1 as [|x row Hx Hrow IH]; [done|].
  destruct row as [|y row].
  - simpl. rewrite ljust_length by done. lia.
  - change (join "" (map (λ x, ljust x cell) (x :: y :: row)))
      with (ljust x cell +:+ "" +:+ join "" (map (λ x, ljust x cell) (y :: row))).
    rewrite !string_length_append, !Nat2Z.inj_add, IH, ljust_length by done.
    simpl String.length. simpl length. lia.
Qed.

(** X30: [wrap_to_column] fails on the empty list only, with the ValueError
    of [max]. On any other list every row is a non-empty string made of
    cells of [M + 1] characters, [M] being the greatest item length, and no
    row is wider than the available width [max(width, 4) - max(margin, 2)],
    or than one cell where a cell is wider than that. *)
Theorem wrap_to_column_rows (self : list string) (width margin : Z)
    (h : gmap ListExt.loc (list Z)) :
  match (ListExt.wrap_to_column self width margin h).1 with
  | Ok rows =>
      ∃ M, is_max_len self M
        ∧ Forall (λ row,
            0 < Z.of_nat (String.length row)
                ≤ Z.max (M + 1) (Z.max width 4 - Z.max margin 2)
            ∧ Z.of_nat (String.length row) `mod` (M + 1) = 0) rows
  | Raise e => self = [] ∧ e = ValueError "max() arg is an empty sequence"
  end.
Proof.
  destruct (decide (self = [])) as [->|Hne]; [done|].
  destruct (is_max_len_exists self Hne) as [M HM].
  assert (0 ≤ M) as HM0 by (destruct HM as [(x & _ & <-) _]; lia).
  set (C := Z.max 1 ((Z.max width 4 - Z.max margin 2) / (M + 1))).
  destruct (split_chunk_chunks self C h) as (Hcat & body & last & Hch & Hbody & Hlast).
  pose proof (split_chunk_no_empty_chunk self C h Hne) as Hnonempty.
  unfold ListExt.wrap_to_column. rewrite (max_item_len_strs _ _ HM).
  destruct (Z.ltb_spec 0 (M + 1)); [|lia]. fold C.
  destruct (ListExt.split_chunk self C h) as [chunks h'] eqn:Hsplit.
  simpl in *. exists M. split; [done|].
  apply Forall_fmap, Forall_forall. intros row Hrow. simpl.
  assert (Forall (λ x, Z.of_nat (String.length x) < M + 1) row) as Hcells.
  { apply Forall_forall. intros x Hx. destruct HM as [_ Hle].
    assert (Z.of_nat (String.length x) ≤ M); [|lia].
    apply Hle. rewrite <- Hcat. apply list_elem_of_In, in_concat.
    exists row. split; by apply list_elem_of_In. }
  rewrite (row_length (M + 1) row Hcells).
  assert (row ≠ []) as Hrow0.
  { rewrite Forall_forall in Hnonempty. by apply Hnonempty. }
  assert (1 ≤ Z.of_nat (length row) ≤ C) as Hcount.
  { split; [destruct row; [done|simpl; lia]|].
    rewrite Hch in Hrow. rewrite Z.max_l in Hbody, Hlast by lia.
    apply elem_of_app in Hrow as [Hrow| ->%list_elem_of_singleton]; [|done].
    rewrite Forall_forall in Hbody. rewrite (Hbody row Hrow). lia. }
  split; [split; [nia|]|by apply Z.mod_mul; lia].
  pose proof (Z.mul_div_le (Z.max width 4 - Z.max margin 2) (M + 1)) as Hdiv.
  unfold C in Hcount. nia.
Qed.

(** *** [sorts] in descending order *)

Lemma StronglySorted_rev {A} (R : A → A → Prop) (l : list A) :
  StronglySorted R l → StronglySorted (flip R) (rev l).
Proof.
  induction 1 as [|x l Hl IH Hx]; simpl; [constructor|].
  apply StronglySorted_app_2; [|done|by repeat constructor].
  intros x1 x2 Hx1 ->%list_elem_of_singleton. unfold flip.
  rewrite Forall_forall in Hx. apply Hx.
  by apply list_elem_of_In, in_rev, list_elem_of_In.
Qed.

Lemma sorts_py_ascending (self tw_of : list pyval) :
  StronglySorted (in_order (key_lt type_of py_str (ListExt.type_weights_of type_of tw_of)))
    (sorted_asc (key_lt type_of py_str (ListExt.type_weights_of type_of tw_of)) self).
Proof.
  apply Sorted_StronglySorted; [apply in_order_key_trans|].
  apply sorted_asc_Sorted, lt_by_asym.
Qed.

(** X10: [sorts(reverse=True)] returns the items of the list in descending
    order of the key: no item stands before one with a greater key. On a
    list of integers, strings and None it is the ascending result read
    backwards. *)
Theorem sorts_descending (self : list pyval) :
  ListExt.sorts_py self true ≡ₚ self
  ∧ StronglySorted
      (λ a b, key_lt type_of py_str (ListExt.type_weights_of type_of self) a b = false)
      (ListExt.sorts_py self true)
  ∧ (forallb scalar self = true →
     ListExt.sorts_py self true = rev (ListExt.sorts_py self false)).
Proof.
  unfold ListExt.sorts_py, ListExt.sorts, sorted.
  set (lt := key_lt type_of py_str (ListExt.type_weights_of type_of self)).
  change (λ y x, ListExt.key_ltb
            (ListExt.sort_key type_of py_str (ListExt.type_weights_of type_of self) y)
            (ListExt.sort_key type_of py_str (ListExt.type_weights_of type_of self) x))
    with lt.
  split_and!.
  - rewrite <- Permutation_rev, sorted_asc_perm. symmetry. apply Permutation_rev.
  - apply (StronglySorted_rev (in_order lt)), sorts_py_ascending.
  - intros Hscalar. f_equal.
    apply (StronglySorted_unique_strong (in_order lt));
      [|apply sorts_py_ascending..|].
    + intros a b Ha Hb Hab Hba.
      rewrite sorted_asc_perm in Ha, Hb. rewrite <- Permutation_rev in Ha.
      destruct (in_order_key_antisym _ _ _ a b Hab Hba) as [Hrank Hstr].
      rewrite forallb_forall in Hscalar.
      apply scalar_key_inj; try done.
      * apply Hscalar. by apply list_elem_of_In.
      * apply Hscalar. by apply list_elem_of_In.
      * by apply (weights_inj type_of self).
    + rewrite !sorted_asc_perm. symmetry. apply Permutation_rev.
Qed.

Lemma sorts_descending_witness :
  ListExt.sorts_py [PInt 9; PStr "abc"; PStr "aaa"; PInt 1] true
  = rev (ListExt.sorts_py [PInt 9; PStr "abc"; PStr "aaa"; PInt 1] false).
Proof.
  apply (sorts_descending [PInt 9; PStr "abc"; PStr "aaa"; PInt 1]). reflexivity.
Defined.
